(** * Batch enqueuer of the batch API operator (package [batchapi])

    A shallow embedding of [batch_enqueuer.go] (the SQS batch uploader), of
    the enqueue orchestrators that feed it and of [logging.go] (the log group
    of a job), together with the properties of the natural-language
    specification that were checked against them and further properties read
    off the code.

    Conventions of the embedding.
    - A Go [int] is a [Z]; lengths are [Z.of_nat] of a list or string length.
      No wrap-around is written out: every integer of this code is a length,
      an index or a counter bounded by the size of the data held in memory.
    - A Go [error] is an [option error] ([None] is [nil]).
    - A Go [string] is a [string] (a sequence of bytes), a [[]byte] is a
      [list ascii].
    - A Go map is an [option (gmap string Z)]: [None] is the [nil] map, which
      can be read (every key yields the zero value) but not assigned to.
    - The collaborators (SQS, S3, CloudWatch, the random sources, [json.Marshal])
      are the operations of the class [Collaborators] over an abstract world
      [W]; every call to one of them is recorded in a trace, and a run-time
      panic is an outcome of its own. *)

From Stdlib Require Import ZArith Lia Ascii.
From stdpp Require Import gmap strings list.

Local Open Scope Z_scope.

(** ** Errors *)

(** The text a wrapped error is prefixed with; the format arguments are kept
    apart from the format. *)
Inductive wrapmsg : Type :=
| MsgFailedAfterRetrying (retries : Z)   (* "failed after retrying %d times" *)
| MsgBatch (index : Z)                   (* "batch %s", "batch %d" *)
| MsgItem (index : Z)                    (* "item %d" *)
| MsgItemsBetween (lo hi : Z)            (* "items with index between %d to %d" *)
| MsgText (s : string).

Inductive error : Type :=
| ErrorMessageExceedsMaxSize (size limit : Z)
| ErrorFailedToEnqueueMessages (message : string)
| ErrUnexpectedEOF                       (* io.ErrUnexpectedEOF *)
| SyntaxError (c : ascii) (context : string)
| ExternalError (description : string)   (* an error value of a collaborator *)
| MarshalerError (description : string)  (* an error of json.Marshal *)
| WithStack (e : error)
| Wrapped (m : wrapmsg) (e : error).

(** Modelled from the spec: the helpers [errors.Wrap] and [errors.WithStack]
    of [pkg/lib/errors], which are not part of the sources at hand ("returns
    a wrapped error identifying the failure and retry count"). Both return
    [nil] on [nil] and otherwise a fresh error value around the given one. *)
Definition errors_Wrap (err : option error) (m : wrapmsg) : option error :=
  match err with
  | None => None
  | Some e => Some (Wrapped m e)
  end.

Definition errors_WithStack (err : option error) : option error :=
  match err with
  | None => None
  | Some e => Some (WithStack e)
  end.

(** ** Data of the SQS interface *)

Record Entry : Type := mkEntry {
  Id : string;
  MessageBody : string;
  MessageDeduplicationId : string;
  MessageGroupId : string
}.

Record BatchResultErrorEntry : Type := mkFailed {
  FailedId : string;
  FailedMessage : string
}.

Record SendMessageBatchOutput : Type := mkOutput {
  Failed : list BatchResultErrorEntry;
  Successful : list string
}.

Record SendMessageInput : Type := mkSendMessageInput {
  smQueueUrl : string;
  smMessageBody : string;
  smMessageDeduplicationId : string;
  smMessageGroupId : string;
  smMessageAttributes : list (string * (string * string))
}.

(** Lines written to the log group of a job. *)
Inductive logline : Type :=
| LogPartitioning (items batches size : Z)
| LogEnqueued (batches : Z)
| LogEnqueuingFile (path : string).

(** ** Effects: the trace of calls and the outcome of a run *)

Inductive event : Type :=
| EvSendMessageBatch (queueURL : string) (entries : list Entry)
                     (output : SendMessageBatchOutput) (err : option error)
| EvSendMessage (input : SendMessageInput) (err : option error)
| EvUpdateLiveness (jobKey : string) (err : option error)
| EvCronRun (jobKey : string)
| EvCronCancel
| EvLog (jobKey : string) (line : logline)
| EvAddToBatch (id body : string).   (* ghost: entry into [AddToBatch] *)

(** [OutOfFuel] is an artefact of the embedding: a loop whose bound on the
    number of iterations is computed from its input ran past that bound. It is
    shown below not to happen. *)
Inductive outcome (A : Type) : Type :=
| Returned (a : A)
| Panicked (reason : string)
| OutOfFuel.
Arguments Returned {A} a.
Arguments Panicked {A} reason.
Arguments OutOfFuel {A}.

Class Collaborators (W : Type) : Type := {
  SQS_SendMessageBatch :
    string -> list Entry -> W -> (SendMessageBatchOutput * option error) * W;
  SQS_SendMessage : SendMessageInput -> W -> option error * W;
  S3_UploadLiveness : string -> W -> option error * W;
  CloudWatch_write : string -> logline -> W -> W;
  random_String : nat -> W -> string * W;
  k8s_RandomName : W -> string * W;
  (* [json.Marshal]: the text, or what its error says ([MarshalerError]) *)
  json_Marshal_raw : list (list ascii) -> string + string;
  json_Marshal_strings : list string -> string + string
}.

(** ** The JSON decoder ([encoding/json] of the Go library)

    [streamJSONToQueue] reads documents with [json.Decoder.Decode] into a
    [json.RawMessage]. The decoder is the scanner of [scanner.go] driven by
    [Decoder.readValue] of [stream.go]; both are transcribed here, state by
    state. The error of the scanner keeps the offending byte and the context
    of the message. *)

Module json.

Inductive scan_code : Type :=
| scanContinue | scanBeginLiteral | scanBeginObject | scanObjectKey
| scanObjectValue | scanEndObject | scanBeginArray | scanArrayValue
| scanEndArray | scanSkipSpace | scanEnd | scanError.

Inductive parse_state : Type :=
| parseObjectKey | parseObjectValue | parseArrayValue.

Inductive step_state : Type :=
| stateBeginValueOrEmpty | stateBeginValue | stateBeginStringOrEmpty
| stateBeginString | stateEndValue | stateEndTop
| stateInString | stateInStringEsc | stateInStringEscU | stateInStringEscU1
| stateInStringEscU12 | stateInStringEscU123
| stateNeg | state1 | state0 | stateDot | stateDot0 | stateE | stateESign
| stateE0
| stateT | stateTr | stateTru
| stateF | stateFa | stateFal | stateFals
| stateN | stateNu | stateNul
| stateError.

(** The scanner; the head of [parseState] is the innermost open value. *)
Record scanner : Type := mkScanner {
  step : step_state;
  parseState : list parse_state;
  err : option error;
  endTop : bool
}.

Definition maxNestingDepth : N := 10000.

Definition reset : scanner := mkScanner stateBeginValue [] None false.

Definition set_step (s : scanner) (st : step_state) : scanner :=
  mkScanner st (parseState s) (err s) (endTop s).

Definition scan_error (s : scanner) (c : ascii) (context : string)
  : scanner * scan_code :=
  (mkScanner stateError (parseState s) (Some (SyntaxError c context)) (endTop s),
   scanError).

Definition code (c : ascii) : N := N_of_ascii c.

Definition isByte (c : ascii) (d : ascii) : bool := Ascii.eqb c d.

Definition quote : ascii := "034"%char.
Definition backslash : ascii := "092"%char.

Definition isSpace (c : ascii) : bool :=
  isByte c " " || isByte c "009" || isByte c "013" || isByte c "010".

Definition isDigit (c : ascii) : bool :=
  (code "0" <=? code c)%N && (code c <=? code "9")%N.

Definition isDigit19 (c : ascii) : bool :=
  (code "1" <=? code c)%N && (code c <=? code "9")%N.

Definition isHex (c : ascii) : bool :=
  isDigit c
  || ((code "a" <=? code c)%N && (code c <=? code "f")%N)
  || ((code "A" <=? code c)%N && (code c <=? code "F")%N).

Definition pushParseState (s : scanner) (c : ascii) (newParseState : parse_state)
    (successState : scan_code) : scanner * scan_code :=
  let s' := mkScanner (step s) (newParseState :: parseState s) (err s) (endTop s) in
  if (N.of_nat (length (parseState s')) <=? maxNestingDepth)%N
  then (s', successState)
  else scan_error s' c "exceeded max depth".

Definition popParseState (s : scanner) : scanner :=
  match tail (parseState s) with
  | [] => mkScanner stateEndTop [] (err s) true
  | rest => mkScanner stateEndValue rest (err s) (endTop s)
  end.

Definition replace_top (s : scanner) (p : parse_state) : scanner :=
  mkScanner (step s) (p :: tail (parseState s)) (err s) (endTop s).

Definition do_stateEndTop (s : scanner) (c : ascii) : scanner * scan_code :=
  if isSpace c then (s, scanEnd)
  else (fst (scan_error s c "after top-level value"), scanEnd).

Definition do_stateEndValue (s : scanner) (c : ascii) : scanner * scan_code :=
  match parseState s with
  | [] =>
      do_stateEndTop (mkScanner stateEndTop (parseState s) (err s) true) c
  | ps :: _ =>
      if isSpace c then (set_step s stateEndValue, scanSkipSpace)
      else
        match ps with
        | parseObjectKey =>
            if isByte c ":" then
              (set_step (replace_top s parseObjectValue) stateBeginValue,
               scanObjectKey)
            else scan_error s c "after object key"
        | parseObjectValue =>
            if isByte c "," then
              (set_step (replace_top s parseObjectKey) stateBeginString,
               scanObjectValue)
            else if isByte c "}" then (popParseState s, scanEndObject)
            else scan_error s c "after object key:value pair"
        | parseArrayValue =>
            if isByte c "," then (set_step s stateBeginValue, scanArrayValue)
            else if isByte c "]" then (popParseState s, scanEndArray)
            else scan_error s c "after array element"
        end
  end.

Definition do_stateBeginValue (s : scanner) (c : ascii) : scanner * scan_code :=
  if isSpace c then (s, scanSkipSpace)
  else if isByte c "{" then
    pushParseState (set_step s stateBeginStringOrEmpty) c parseObjectKey
                   scanBeginObject
  else if isByte c "[" then
    pushParseState (set_step s stateBeginValueOrEmpty) c parseArrayValue
                   scanBeginArray
  else if isByte c quote then (set_step s stateInString, scanBeginLiteral)
  else if isByte c "-" then (set_step s stateNeg, scanBeginLiteral)
  else if isByte c "0" then (set_step s state0, scanBeginLiteral)
  else if isByte c "t" then (set_step s stateT, scanBeginLiteral)
  else if isByte c "f" then (set_step s stateF, scanBeginLiteral)
  else if isByte c "n" then (set_step s stateN, scanBeginLiteral)
  else if isDigit19 c then (set_step s state1, scanBeginLiteral)
  else scan_error s c "looking for beginning of value".

Definition do_stateBeginValueOrEmpty (s : scanner) (c : ascii)
  : scanner * scan_code :=
  if isSpace c then (s, scanSkipSpace)
  else if isByte c "]" then do_stateEndValue s c
  else do_stateBeginValue s c.

Definition do_stateBeginString (s : scanner) (c : ascii) : scanner * scan_code :=
  if isSpace c then (s, scanSkipSpace)
  else if isByte c quote then (set_step s stateInString, scanBeginLiteral)
  else scan_error s c "looking for beginning of object key string".

Definition do_stateBeginStringOrEmpty (s : scanner) (c : ascii)
  : scanner * scan_code :=
  if isSpace c then (s, scanSkipSpace)
  else if isByte c "}" then do_stateEndValue (replace_top s parseObjectValue) c
  else do_stateBeginString s c.

Definition do_stateInString (s : scanner) (c : ascii) : scanner * scan_code :=
  if isByte c quote then (set_step s stateEndValue, scanContinue)
  else if isByte c backslash then (set_step s stateInStringEsc, scanContinue)
  else if (code c <? 32)%N then scan_error s c "in string literal"
  else (s, scanContinue).

Definition do_stateInStringEsc (s : scanner) (c : ascii) : scanner * scan_code :=
  if isByte c "b" || isByte c "f" || isByte c "n" || isByte c "r" || isByte c "t"
     || isByte c backslash || isByte c "/" || isByte c quote
  then (set_step s stateInString, scanContinue)
  else if isByte c "u" then (set_step s stateInStringEscU, scanContinue)
  else scan_error s c "in string escape code".

Definition do_hex (next : step_state) (s : scanner) (c : ascii)
  : scanner * scan_code :=
  if isHex c then (set_step s next, scanContinue)
  else scan_error s c "in \u hexadecimal character escape".

Definition do_stateNeg (s : scanner) (c : ascii) : scanner * scan_code :=
  if isByte c "0" then (set_step s state0, scanContinue)
  else if isDigit19 c then (set_step s state1, scanContinue)
  else scan_error s c "in numeric literal".

Definition do_state0 (s : scanner) (c : ascii) : scanner * scan_code :=
  if isByte c "." then (set_step s stateDot, scanContinue)
  else if isByte c "e" || isByte c "E" then (set_step s stateE, scanContinue)
  else do_stateEndValue s c.

Definition do_state1 (s : scanner) (c : ascii) : scanner * scan_code :=
  if isDigit c then (set_step s state1, scanContinue)
  else do_state0 s c.

Definition do_stateDot (s : scanner) (c : ascii) : scanner * scan_code :=
  if isDigit c then (set_step s stateDot0, scanContinue)
  else scan_error s c "after decimal point in numeric literal".

Definition do_stateDot0 (s : scanner) (c : ascii) : scanner * scan_code :=
  if isDigit c then (s, scanContinue)
  else if isByte c "e" || isByte c "E" then (set_step s stateE, scanContinue)
  else do_stateEndValue s c.

Definition do_stateESign (s : scanner) (c : ascii) : scanner * scan_code :=
  if isDigit c then (set_step s stateE0, scanContinue)
  else scan_error s c "in exponent of numeric literal".

Definition do_stateE (s : scanner) (c : ascii) : scanner * scan_code :=
  if isByte c "+" || isByte c "-" then (set_step s stateESign, scanContinue)
  else do_stateESign s c.

Definition do_stateE0 (s : scanner) (c : ascii) : scanner * scan_code :=
  if isDigit c then (s, scanContinue)
  else do_stateEndValue s c.

(** One letter of [true], [false] or [null]. *)
Definition do_letter (expected : ascii) (next : step_state) (context : string)
    (s : scanner) (c : ascii) : scanner * scan_code :=
  if isByte c expected then (set_step s next, scanContinue)
  else scan_error s c context.

(** [s.step(s, c)] *)
Definition scan_step (s : scanner) (c : ascii) : scanner * scan_code :=
  match step s with
  | stateBeginValueOrEmpty => do_stateBeginValueOrEmpty s c
  | stateBeginValue => do_stateBeginValue s c
  | stateBeginStringOrEmpty => do_stateBeginStringOrEmpty s c
  | stateBeginString => do_stateBeginString s c
  | stateEndValue => do_stateEndValue s c
  | stateEndTop => do_stateEndTop s c
  | stateInString => do_stateInString s c
  | stateInStringEsc => do_stateInStringEsc s c
  | stateInStringEscU => do_hex stateInStringEscU1 s c
  | stateInStringEscU1 => do_hex stateInStringEscU12 s c
  | stateInStringEscU12 => do_hex stateInStringEscU123 s c
  | stateInStringEscU123 => do_hex stateInString s c
  | stateNeg => do_stateNeg s c
  | state1 => do_state1 s c
  | state0 => do_state0 s c
  | stateDot => do_stateDot s c
  | stateDot0 => do_stateDot0 s c
  | stateE => do_stateE s c
  | stateESign => do_stateESign s c
  | stateE0 => do_stateE0 s c
  | stateT => do_letter "r" stateTr "in literal true (expecting 'r')" s c
  | stateTr => do_letter "u" stateTru "in literal true (expecting 'u')" s c
  | stateTru => do_letter "e" stateEndValue "in literal true (expecting 'e')" s c
  | stateF => do_letter "a" stateFa "in literal false (expecting 'a')" s c
  | stateFa => do_letter "l" stateFal "in literal false (expecting 'l')" s c
  | stateFal => do_letter "s" stateFals "in literal false (expecting 's')" s c
  | stateFals => do_letter "e" stateEndValue "in literal false (expecting 'e')" s c
  | stateN => do_letter "u" stateNu "in literal null (expecting 'u')" s c
  | stateNu => do_letter "l" stateNul "in literal null (expecting 'l')" s c
  | stateNul => do_letter "l" stateEndValue "in literal null (expecting 'l')" s c
  | stateError => (s, scanError)
  end.

Definition is_scanEnd (c : scan_code) : bool :=
  match c with scanEnd => true | _ => false end.

Inductive read_result : Type :=
| ReadValue (n : nat)        (* the next value takes the first [n] bytes *)
| ReadEOF                    (* io.EOF *)
| ReadUnexpectedEOF          (* io.ErrUnexpectedEOF *)
| ReadError (e : error).

Definition nonSpace (b : list ascii) : bool :=
  existsb (fun c => negb (isSpace c)) b.

(** [Decoder.readValue] over the bytes [data] the reader still yields, [n] of
    which have been scanned; [buf] is the decoder's buffer at end of input,
    that is, every byte not yet consumed by an earlier value. The reader is a
    [bytes.Buffer]: it hands over its content in pieces and then reports
    [io.EOF]; the scan does not depend on the size of the pieces. *)
Fixpoint scan_value (s : scanner) (buf data : list ascii) (n : nat)
  : read_result :=
  match data with
  | [] =>
      if is_scanEnd (snd (scan_step s " ")) then ReadValue n
      else if nonSpace buf then ReadUnexpectedEOF
      else ReadEOF
  | c :: rest =>
      let '(s', op) := scan_step s c in
      match op with
      | scanEnd => ReadValue n
      | scanEndObject | scanEndArray =>
          let '(s'', op') := do_stateEndValue s' " " in
          if is_scanEnd op' then ReadValue (S n)
          else scan_value s'' buf rest (S n)
      | scanError =>
          (* the scanner has set its error whenever it answers [scanError] *)
          ReadError (default (SyntaxError c EmptyString) (err s'))
      | _ => scan_value s' buf rest (S n)
      end
  end.

Definition readValue (data : list ascii) : read_result :=
  scan_value reset data data 0.

Inductive decode_result : Type :=
| DecValue (doc rest : list ascii)   (* the document read, the bytes left *)
| DecEOF
| DecUnexpectedEOF
| DecError (e : error).

Fixpoint skipSpace (b : list ascii) : list ascii :=
  match b with
  | c :: rest => if isSpace c then skipSpace rest else b
  | [] => []
  end.

(** [dec.Decode(&doc)] with [doc] a [json.RawMessage]: the raw message is the
    text of the value without the white space before it. *)
Definition Decode (data : list ascii) : decode_result :=
  match readValue data with
  | ReadValue n => DecValue (skipSpace (take n data)) (drop n data)
  | ReadEOF => DecEOF
  | ReadUnexpectedEOF => DecUnexpectedEOF
  | ReadError e => DecError e
  end.

(** *** The scan as a run of the scanner

    The same scan, told apart from what happens at the end of the input:
    the value ends within the bytes given, the scanner fails on one of them,
    or the bytes run out and the scanner is left in a state. *)

Inductive run_result : Type :=
| RunDone (n : nat)
| RunError (e : error)
| RunMore (s : scanner).

Fixpoint scan_run (s : scanner) (data : list ascii) (n : nat) : run_result :=
  match data with
  | [] => RunMore s
  | c :: rest =>
      let '(s', op) := scan_step s c in
      match op with
      | scanEnd => RunDone n
      | scanEndObject | scanEndArray =>
          let '(s'', op') := do_stateEndValue s' " " in
          if is_scanEnd op' then RunDone (S n)
          else scan_run s'' rest (S n)
      | scanError => RunError (default (SyntaxError c EmptyString) (err s'))
      | _ => scan_run s' rest (S n)
      end
  end.

(** The first byte of a number. *)
Definition number_start (c : ascii) : bool := isDigit c || isByte c "-".

(** The first value of [data], if any, is a number. *)
Definition starts_number (data : list ascii) : bool :=
  match skipSpace data with
  | c :: _ => number_start c
  | [] => false
  end.

Definition string_or_literal (st : step_state) : bool :=
  match st with
  | stateInString | stateInStringEsc | stateInStringEscU | stateInStringEscU1
  | stateInStringEscU12 | stateInStringEscU123
  | stateT | stateTr | stateTru
  | stateF | stateFa | stateFal | stateFals
  | stateN | stateNu | stateNul
  | stateEndValue => true
  | _ => false
  end.

(** The scanner is inside an object or an array, or inside (or just past) a
    string or a literal at the top level: it is not reading a number at the
    top level. *)
Definition not_in_number (s : scanner) : bool :=
  match parseState s with
  | [] => string_or_literal (step s)
  | _ :: _ => match step s with stateEndTop => false | _ => true end
  end.

(** A value at the top level has been read to its last byte. *)
Definition settled (s : scanner) : bool :=
  match parseState s, step s with
  | [], stateEndValue => true
  | _, _ => false
  end.

(** *** The documents of a buffer

    What a loop of [Decode] calls makes of a buffer: the documents, and how
    the loop ends: at the end of the input, on an incomplete document (the
    bytes of which are kept), or on an error. *)

Inductive split_end : Type :=
| EndClean
| EndIncomplete (tail : list ascii)
| EndError (e : error).

Fixpoint split_documents (fuel : nat) (data : list ascii)
  : list (list ascii) * split_end :=
  match fuel with
  | O => ([], EndClean)
  | S fuel' =>
      match Decode data with
      | DecValue doc rest =>
          let '(docs, e) := split_documents fuel' rest in (doc :: docs, e)
      | DecEOF => ([], EndClean)
      | DecUnexpectedEOF => ([], EndIncomplete data)
      | DecError e => ([], EndError e)
      end
  end.

Definition documents (data : list ascii) : list (list ascii) * split_end :=
  split_documents (S (length data)) data.

(** No value at the top level of the buffer begins as a number does. *)
Fixpoint number_free (fuel : nat) (data : list ascii) : bool :=
  match fuel with
  | O => true
  | S fuel' =>
      negb (starts_number data)
      && match Decode data with
         | DecValue _ rest => number_free fuel' rest
         | _ => true
         end
  end.

Definition no_top_level_number (data : list ascii) : Prop :=
  number_free (S (length data)) data = true.

End json.

Section Enqueuer.

Context {W : Type} {C : Collaborators W}.

Record env : Type := mkEnv {
  world : W;
  trace : list event
}.

Definition M (A : Type) : Type := env -> outcome A * env.

Definition ret {A} (a : A) : M A := fun s => (Returned a, s).

Definition panic {A} (reason : string) : M A := fun s => (Panicked reason, s).

Definition bind {A B} (m : M A) (k : A -> M B) : M B :=
  fun s =>
    match m s with
    | (Returned a, s') => k a s'
    | (Panicked r, s') => (Panicked r, s')
    | (OutOfFuel, s') => (OutOfFuel, s')
    end.

Definition emit (e : event) : M unit :=
  fun s => (Returned tt, mkEnv (world s) (trace s ++ [e])).

Notation "x <- m ;; k" := (bind m (fun x => k))
  (at level 100, m at next level, right associativity).

(** The calls to the collaborators, each leaving its event in the trace. *)
Definition SendMessageBatch (queueURL : string) (entries : list Entry)
  : M (SendMessageBatchOutput * option error) :=
  fun s =>
    let '((out, err), w') := SQS_SendMessageBatch queueURL entries (world s) in
    (Returned (out, err),
     mkEnv w' (trace s ++ [EvSendMessageBatch queueURL entries out err])).

Definition SendMessage (input : SendMessageInput) : M (option error) :=
  fun s =>
    let '(err, w') := SQS_SendMessage input (world s) in
    (Returned err, mkEnv w' (trace s ++ [EvSendMessage input err])).

Definition randomString (n : nat) : M string :=
  fun s =>
    let '(r, w') := random_String n (world s) in
    (Returned r, mkEnv w' (trace s)).

Definition RandomName : M string :=
  fun s =>
    let '(r, w') := k8s_RandomName (world s) in
    (Returned r, mkEnv w' (trace s)).

(** [writeToJobLogGroup]: every caller discards its result. *)
Definition writeToJobLogGroup (jobKey : string) (line : logline) : M unit :=
  fun s =>
    (Returned tt,
     mkEnv (CloudWatch_write jobKey line (world s))
           (trace s ++ [EvLog jobKey line])).

(** ** The uploader ([batch_enqueuer.go]) *)

Definition _messageSizeLimit : Z := 256 * 1024.
Definition _maxMessagesPerBatch : Z := 10.

Record SQSBatchUploader : Type := mkUploader {
  QueueURL : string;
  Retries : option Z;                           (* default 3 times *)
  messageList : list Entry;
  messageIDToListIndex : option (gmap string Z);
  totalBytes : Z;
  TotalBatches : Z
}.

Definition len (s : string) : Z := Z.of_nat (String.length s).

(** Reading a Go map: the zero value for an absent key and for the nil map. *)
Definition map_index (m : option (gmap string Z)) (k : string) : Z :=
  match m with
  | None => 0
  | Some g => default 0 (g !! k)
  end.

Definition enqueueToSQS (uploader : SQSBatchUploader) : M (option error) :=
  r <- SendMessageBatch (QueueURL uploader) (messageList uploader) ;;
  let '(output, err) := r in
  match err with
  | Some e =>
      match Failed output with
      | [] => ret (errors_WithStack (Some e))
      | f :: _ =>
          ret (errors_Wrap
                 (Some (ErrorFailedToEnqueueMessages (FailedMessage f)))
                 (MsgBatch (map_index (messageIDToListIndex uploader) (FailedId f))))
      end
  | None => ret None
  end.

(** The state [Flush] leaves behind after a send that it takes as successful. *)
Definition cleared (uploader : SQSBatchUploader) : SQSBatchUploader :=
  mkUploader (QueueURL uploader) (Retries uploader) [] (Some ∅) 0
             (TotalBatches uploader).

(** The loop of [Flush] with [k] iterations left; [err] is the variable of
    that name, [None] before the first attempt. *)
Fixpoint Flush_attempts (k : nat) (retries : Z) (uploader : SQSBatchUploader)
    (err : option error) : M (SQSBatchUploader * option error) :=
  match k with
  | O => ret (uploader, errors_Wrap err (MsgFailedAfterRetrying retries))
  | S k' =>
      err' <- enqueueToSQS uploader ;;
      match err' with
      | None => ret (cleared uploader, None)
      | Some e => Flush_attempts k' retries uploader (Some e)
      end
  end.

Definition Flush (uploader : SQSBatchUploader)
  : M (SQSBatchUploader * option error) :=
  match messageList uploader with
  | [] => ret (uploader, None)
  | _ :: _ =>
      let retries := match Retries uploader with
                     | Some r => r
                     | None => 3
                     end in
      Flush_attempts (Z.to_nat retries) retries uploader None
  end.

Definition AddToBatch (id body : string) (uploader : SQSBatchUploader)
  : M (SQSBatchUploader * option error) :=
  _ <- emit (EvAddToBatch id body) ;;
  if len body >? _messageSizeLimit then
    ret (uploader, Some (ErrorMessageExceedsMaxSize (len body) _messageSizeLimit))
  else
    let message := mkEntry id body id id in
    r <-
      (if (len (MessageBody message) + totalBytes uploader >? _messageSizeLimit)
          || (Z.of_nat (length (messageList uploader)) =? _maxMessagesPerBatch)
       then Flush uploader
       else ret (uploader, None)) ;;
    let '(u1, err) := r in
    match err with
    | Some e => ret (u1, Some e)
    | None =>
        let list' := messageList u1 ++ [message] in
        match messageIDToListIndex u1 with
        | None => panic "assignment to entry in nil map"
        | Some m =>
            ret (mkUploader (QueueURL u1) (Retries u1) list'
                            (Some (<[id := TotalBatches u1]> m))
                            (totalBytes u1 + len (MessageBody message))
                            (TotalBatches u1 + 1),
                 None)
        end
    end.

(** ** The orchestrators *)

Record Job : Type := mkJob {
  JobKey : string;
  SQSUrl : string
}.

(** [schema.ItemList]; [BatchSize] is the integer its pointer field holds. *)
Record ItemList : Type := mkItemList {
  Items : list (list ascii);
  ItemListBatchSize : Z
}.

(** One read of a part of an S3 object: the bytes [ReadFrom] appends to the
    buffer and the error it ends with, if any. *)
Record chunk : Type := mkChunk {
  chunk_bytes : list ascii;
  chunk_err : option error
}.

Record s3Object : Type := mkObject {
  Bucket : string;
  Key : string;
  Chunks : list chunk
}.

(** What a lister yields: the objects found, then possibly a failure of the
    listing itself. *)
Record S3Lister : Type := mkLister {
  listed : list s3Object;
  listing_err : option error
}.

Record FilePathLister : Type := mkFilePathLister {
  PathLister : S3Lister;
  PathBatchSize : Z
}.

Record DelimitedFiles : Type := mkDelimitedFiles {
  FileLister : S3Lister;
  FileBatchSize : Z
}.

Record JobSubmission : Type := mkSubmission {
  SubmittedItemList : option ItemList;
  SubmittedFilePathLister : option FilePathLister;
  SubmittedDelimitedFiles : option DelimitedFiles
}.

Definition randomID : M string := randomString 40.

Definition S3Path (bucket key : string) : string :=
  String.append "s3://" (String.append bucket (String.append "/" key)).

Definition llen {A} (l : list A) : Z := Z.of_nat (length l).

(** [l[lo:hi]], which panics unless [0 <= lo <= hi <= len(l)]. *)
Definition slice {A} (l : list A) (lo hi : Z) : option (list A) :=
  if (0 <=? lo) && (lo <=? hi) && (hi <=? llen l)
  then Some (take (Z.to_nat (hi - lo)) (drop (Z.to_nat lo) l))
  else None.

(** The [SQSBatchUploader] literal of the three orchestrators: only [Client],
    [QueueURL] and [Retries] are set. *)
Definition newUploader (jobSpec : Job) : SQSBatchUploader :=
  mkUploader (SQSUrl jobSpec) (Some 3) [] None 0 0.

Definition logProgress (jobSpec : Job) (uploader : SQSBatchUploader) : M unit :=
  if Z.rem (TotalBatches uploader) 10 =? 0
  then writeToJobLogGroup (JobKey jobSpec) (LogEnqueued (TotalBatches uploader))
  else ret tt.

(** The bounds [min] and [max] of the [i]-th slice of [enqueueItems]. *)
Definition slice_bounds (itemList : ItemList) (i : Z) : Z * Z :=
  let min := i * ItemListBatchSize itemList in
  let max := (i + 1) * ItemListBatchSize itemList in
  let max := if max >? llen (Items itemList)
             then llen (Items itemList) else max in
  (min, max).

(** The loop of [enqueueItems] at index [i] with [k] iterations left. *)
Fixpoint enqueueItems_loop (k : nat) (i : Z) (jobSpec : Job)
    (itemList : ItemList) (uploader : SQSBatchUploader)
  : M (SQSBatchUploader * option error) :=
  match k with
  | O => ret (uploader, None)
  | S k' =>
      let '(min, max) := slice_bounds itemList i in
      match slice (Items itemList) min max with
      | None => panic "slice bounds out of range"
      | Some items =>
          match json_Marshal_raw items with
          | inr e =>
              ret (uploader, errors_Wrap (Some (MarshalerError e)) (MsgBatch i))
          | inl jsonBytes =>
              id <- randomID ;;
              r <- AddToBatch id jsonBytes uploader ;;
              let '(uploader', err) := r in
              match err with
              | Some e =>
                  if ItemListBatchSize itemList >? 1
                  then ret (uploader', errors_Wrap (Some e) (MsgItem i))
                  else ret (uploader',
                            errors_Wrap (Some e) (MsgItemsBetween min max))
              | None =>
                  _ <- logProgress jobSpec uploader' ;;
                  enqueueItems_loop k' (i + 1) jobSpec itemList uploader'
              end
          end
      end
  end.

Definition batchCount (itemList : ItemList) : Z :=
  let n := Z.quot (llen (Items itemList)) (ItemListBatchSize itemList) in
  if Z.rem (llen (Items itemList)) (ItemListBatchSize itemList) =? 0
  then n else n + 1.

Definition enqueueItems (jobSpec : Job) (itemList : ItemList)
  : M (Z * option error) :=
  if ItemListBatchSize itemList =? 0 then panic "integer divide by zero"
  else
    _ <- writeToJobLogGroup (JobKey jobSpec)
           (LogPartitioning (llen (Items itemList)) (batchCount itemList)
                            (ItemListBatchSize itemList)) ;;
    r <- enqueueItems_loop (Z.to_nat (batchCount itemList)) 0 jobSpec itemList
           (newUploader jobSpec) ;;
    let '(uploader, err) := r in
    match err with
    | Some e => ret (0, Some e)
    | None =>
        r <- Flush uploader ;;
        let '(uploader, err) := r in
        match err with
        | Some e => ret (0, Some e)
        | None => ret (TotalBatches uploader, None)
        end
    end.

(** Modelled from the spec: the iteration [s3IteratorFromLister] over the
    objects of a listing, which is not part of the sources at hand
    ("ListObjects(prefix/filter) -> lazy sequence of object references;
    supports early termination by the orchestrator returning stop from its
    visitor"). An error of the visitor ends the iteration with that error. *)
Fixpoint s3IteratorFromLister {S : Type} (objects : list s3Object)
    (listing : option error)
    (fn : s3Object -> S -> M (S * bool * option error)) (st : S)
  : M (S * option error) :=
  match objects with
  | [] => ret (st, listing)
  | o :: rest =>
      r <- fn o st ;;
      let '(st', continue, err) := r in
      match err with
      | Some e => ret (st', Some e)
      | None =>
          if continue then s3IteratorFromLister rest listing fn st'
          else ret (st', None)
      end
  end.

(** Modelled from the spec: the iteration [S3FileIterator] over the parts of
    one object, which is not part of the sources at hand
    ("ReadObjectChunks(object, chunkSize) -> lazy sequence of
    (bytes, isLastChunk)"). *)
Fixpoint S3FileIterator {S : Type} (chunks : list chunk)
    (fn : chunk -> bool -> S -> M (S * bool * option error)) (st : S)
  : M (S * option error) :=
  match chunks with
  | [] => ret (st, None)
  | c :: rest =>
      let isLastChunk := match rest with [] => true | _ :: _ => false end in
      r <- fn c isLastChunk st ;;
      let '(st', continue, err) := r in
      match err with
      | Some e => ret (st', Some e)
      | None =>
          if continue then S3FileIterator rest fn st' else ret (st', None)
      end
  end.

Definition addS3PathsToQueue (uploader : SQSBatchUploader)
    (s3PathList : list string) : M (SQSBatchUploader * option error) :=
  match json_Marshal_strings s3PathList with
  | inr e =>
      ret (uploader,
           errors_Wrap (Some (MarshalerError e)) (MsgBatch (TotalBatches uploader)))
  | inl jsonBytes =>
      id <- randomID ;;
      AddToBatch id jsonBytes uploader
  end.

Definition enqueueS3Paths (jobSpec : Job) (s3PathsLister : FilePathLister)
  : M (Z * option error) :=
  let visit (s3Obj : s3Object) (st : list string * SQSBatchUploader)
    : M (list string * SQSBatchUploader * bool * option error) :=
    let '(s3PathList, uploader) := st in
    let s3Path := S3Path (Bucket s3Obj) (Key s3Obj) in
    let s3PathList := s3PathList ++ [s3Path] in
    if llen s3PathList =? PathBatchSize s3PathsLister then
      r <- addS3PathsToQueue uploader s3PathList ;;
      let '(uploader, err) := r in
      match err with
      | Some e => ret ((s3PathList, uploader), false, Some e)
      | None =>
          _ <- logProgress jobSpec uploader ;;
          ret (([], uploader), true, None)
      end
    else ret ((s3PathList, uploader), true, None) in
  r <- s3IteratorFromLister (listed (PathLister s3PathsLister))
         (listing_err (PathLister s3PathsLister)) visit
         ([], newUploader jobSpec) ;;
  let '((s3PathList, uploader), err) := r in
  match err with
  | Some e => ret (0, Some e)
  | None =>
      r <- (if 0 <? llen s3PathList
            then addS3PathsToQueue uploader s3PathList
            else ret (uploader, None)) ;;
      let '(uploader, err) := r in
      match err with
      | Some e => ret (0, Some e)
      | None =>
          r <- Flush uploader ;;
          let '(uploader, err) := r in
          match err with
          | Some e => ret (0, Some e)
          | None => ret (TotalBatches uploader, None)
          end
      end
  end.

Record jsonBuffer : Type := mkJSONBuffer {
  BatchSize : Z;
  bufferedMessages : list (list ascii)
}.

(** [make([]json.RawMessage, 0, batchSize)] panics at run time when the
    capacity asked for is negative. *)
Definition newJSONBuffer (batchSize : Z) : M jsonBuffer :=
  if batchSize <? 0 then panic "makeslice: cap out of range"
  else ret (mkJSONBuffer batchSize []).

Definition jsonBuffer_Add (j : jsonBuffer) (jsonMessage : list ascii)
  : jsonBuffer :=
  mkJSONBuffer (BatchSize j) (bufferedMessages j ++ [jsonMessage]).

(** [Clear] makes a slice of capacity [BatchSize] too; it is called only
    when the length of the buffer, at least one, has reached [BatchSize]. *)
Definition jsonBuffer_Clear (j : jsonBuffer) : jsonBuffer :=
  mkJSONBuffer (BatchSize j) [].

Definition jsonBuffer_Length (j : jsonBuffer) : Z :=
  llen (bufferedMessages j).

Definition addJSONObjectsToQueue (uploader : SQSBatchUploader)
    (jsonMessageList : jsonBuffer) : M (SQSBatchUploader * option error) :=
  match json_Marshal_raw (bufferedMessages jsonMessageList) with
  | inr e => ret (uploader, Some (MarshalerError e))
  | inl jsonBytes =>
      id <- randomID ;;
      AddToBatch id jsonBytes uploader
  end.

(** What [streamJSONToQueue] works on: the uploader, the byte buffer of the
    file being read, the documents waiting for a full batch and the number of
    documents seen in the file. *)
Record splitter : Type := mkSplitter {
  sp_uploader : SQSBatchUploader;
  bytesBuffer : list ascii;
  jsonMessageList : jsonBuffer;
  itemIndex : Z
}.

(** The loop of [streamJSONToQueue]. [dec] holds the bytes the decoder has
    not consumed; the decoder takes them from [bytesBuffer], which is empty
    once the decoder has met the end of input. After an error other than
    [io.ErrUnexpectedEOF] the file is abandoned and the buffer is not read
    again; the embedding leaves the bytes not consumed in it. *)
Fixpoint streamJSON_loop (fuel : nat) (jobSpec : Job) (dec : list ascii)
    (uploader : SQSBatchUploader) (jsonMessageList : jsonBuffer)
    (itemIndex : Z) : M (splitter * option error) :=
  match fuel with
  | O => fun s => (OutOfFuel, s)
  | S fuel' =>
      match json.Decode dec with
      | json.DecEOF =>
          ret (mkSplitter uploader [] jsonMessageList itemIndex, None)
      | json.DecUnexpectedEOF =>
          (* bytesBuffer.Reset(); bytesBuffer.ReadFrom(dec.Buffered()) *)
          ret (mkSplitter uploader dec jsonMessageList itemIndex,
               Some ErrUnexpectedEOF)
      | json.DecError e =>
          ret (mkSplitter uploader dec jsonMessageList itemIndex, Some e)
      | json.DecValue doc rest =>
          if llen doc >? _messageSizeLimit then
            ret (mkSplitter uploader rest jsonMessageList itemIndex,
                 errors_Wrap
                   (Some (ErrorMessageExceedsMaxSize (llen doc) _messageSizeLimit))
                   (MsgItem itemIndex))
          else
            let itemIndex := itemIndex + 1 in
            let jsonMessageList := jsonBuffer_Add jsonMessageList doc in
            if jsonBuffer_Length jsonMessageList =? BatchSize jsonMessageList
            then
              r <- addJSONObjectsToQueue uploader jsonMessageList ;;
              let '(uploader, err) := r in
              match err with
              | Some e =>
                  ret (mkSplitter uploader rest jsonMessageList itemIndex,
                       Some e)
              | None =>
                  let jsonMessageList := jsonBuffer_Clear jsonMessageList in
                  _ <- logProgress jobSpec uploader ;;
                  streamJSON_loop fuel' jobSpec rest uploader jsonMessageList
                                  itemIndex
              end
            else
              streamJSON_loop fuel' jobSpec rest uploader jsonMessageList
                              itemIndex
      end
  end.

(** Every document takes at least one byte, so the loop runs at most once
    per byte of the buffer and once more for the end of input. *)
Definition streamJSONToQueue (jobSpec : Job) (sp : splitter)
  : M (splitter * option error) :=
  streamJSON_loop (S (length (bytesBuffer sp))) jobSpec (bytesBuffer sp)
                  (sp_uploader sp) (jsonMessageList sp) (itemIndex sp).

Definition isErrUnexpectedEOF (e : error) : bool :=
  match e with ErrUnexpectedEOF => true | _ => false end.

(** The function [enqueueS3FileContents] hands to [S3FileIterator]. *)
Definition readChunk (jobSpec : Job) (c : chunk) (isLastChunk : bool)
    (sp : splitter) : M (splitter * bool * option error) :=
  let sp := mkSplitter (sp_uploader sp) (bytesBuffer sp ++ chunk_bytes c)
                       (jsonMessageList sp) (itemIndex sp) in
  match chunk_err c with
  | Some e => ret (sp, false, Some e)
  | None =>
      r <- streamJSONToQueue jobSpec sp ;;
      let '(sp', err) := r in
      match err with
      | Some e =>
          if negb (isErrUnexpectedEOF e) || (isErrUnexpectedEOF e && isLastChunk)
          then ret (sp', false, Some e)
          else ret (sp', true, None)
      | None => ret (sp', true, None)
      end
  end.

(** The function [enqueueS3FileContents] hands to [s3IteratorFromLister]. *)
Definition readFile (jobSpec : Job) (s3Obj : s3Object) (sp : splitter)
  : M (splitter * bool * option error) :=
  let s3Path := S3Path (Bucket s3Obj) (Key s3Obj) in
  _ <- writeToJobLogGroup (JobKey jobSpec) (LogEnqueuingFile s3Path) ;;
  let sp := mkSplitter (sp_uploader sp) (bytesBuffer sp) (jsonMessageList sp) 0 in
  r <- S3FileIterator (Chunks s3Obj) (readChunk jobSpec) sp ;;
  let '(sp', err) := r in
  match err with
  | Some e => ret (sp', false, errors_Wrap (Some e) (MsgText s3Path))
  | None => ret (sp', true, None)
  end.

Definition enqueueS3FileContents (jobSpec : Job) (delimitedFiles : DelimitedFiles)
  : M (Z * option error) :=
  buffer <- newJSONBuffer (FileBatchSize delimitedFiles) ;;
  let sp := mkSplitter (newUploader jobSpec) [] buffer 0 in
  r <- s3IteratorFromLister (listed (FileLister delimitedFiles))
         (listing_err (FileLister delimitedFiles)) (readFile jobSpec) sp ;;
  let '(sp, err) := r in
  match err with
  | Some e => ret (0, Some e)
  | None =>
      r <- (if negb (jsonBuffer_Length (jsonMessageList sp) =? 0)
            then addJSONObjectsToQueue (sp_uploader sp) (jsonMessageList sp)
            else ret (sp_uploader sp, None)) ;;
      let '(uploader, err) := r in
      match err with
      | Some e => ret (0, Some e)
      | None =>
          r <- Flush uploader ;;
          let '(uploader, err) := r in
          match err with
          | Some e => ret (0, Some e)
          | None => ret (TotalBatches uploader, None)
          end
      end
  end.

(** ** The driver *)

Definition updateLiveness (jobKey : string) : M (option error) :=
  fun s =>
    let '(err, w') := S3_UploadLiveness jobKey (world s) in
    (Returned (errors_Wrap err (MsgText "failed to update liveness")),
     mkEnv w' (trace s ++ [EvUpdateLiveness jobKey err])).

(** [defer d] around [m]: [d] runs when [m] returns and when it panics. *)
Definition deferring {A} (d : M unit) (m : M A) : M A :=
  fun s => let '(o, s') := m s in (o, snd (d s')).

(** The body of the sentinel message: the word job_complete between double
    quotes. *)
Definition job_complete_body : string :=
  String json.quote (String.append "job_complete" (String json.quote EmptyString)).

Definition job_complete_message (jobSpec : Job) (randomID : string)
  : SendMessageInput :=
  mkSendMessageInput (SQSUrl jobSpec) job_complete_body randomID randomID
                     [("job_complete", ("String", "true"))].

(** The orchestrator [enqueue] selects, or none of them. *)
Definition orchestrate (jobSpec : Job) (submission : JobSubmission)
  : M (Z * option error) :=
  match SubmittedItemList submission with
  | Some itemList => enqueueItems jobSpec itemList
  | None =>
      match SubmittedFilePathLister submission with
      | Some lister => enqueueS3Paths jobSpec lister
      | None =>
          match SubmittedDelimitedFiles submission with
          | Some files => enqueueS3FileContents jobSpec files
          | None => ret (0, None)
          end
      end
  end.

(** [enqueue]. The liveness cron runs beside it; of the cron only its start
    and its cancellation are recorded. *)
Definition enqueue (jobSpec : Job) (submission : JobSubmission)
  : M (Z * option error) :=
  err <- updateLiveness (JobKey jobSpec) ;;
  match err with
  | Some e => ret (0, Some e)
  | None =>
      _ <- emit (EvCronRun (JobKey jobSpec)) ;;
      deferring (emit EvCronCancel)
        (r <- orchestrate jobSpec submission ;;
         let '(totalBatches, err) := r in
         match err with
         | Some e => ret (0, Some e)
         | None =>
             randomID <- RandomName ;;
             err <- SendMessage (job_complete_message jobSpec randomID) ;;
             match err with
             | Some e =>
                 ret (0, errors_Wrap (Some e)
                           (MsgText "failed to enqueue job_complete placeholder"))
             | None => ret (totalBatches, None)
             end
         end)
  end.

End Enqueuer.

(** ** Sequences of calls and what a trace shows *)

Inductive call : Type :=
| CallAddToBatch (id body : string)
| CallFlush.

Definition is_sentinel_send (e : event) : bool :=
  match e with
  | EvSendMessage _ _ => true
  | _ => false
  end.

(** The error of a scanner: none, or a syntax error. *)
Definition syntax_or_none (o : option error) : Prop :=
  match o with
  | None => True
  | Some (SyntaxError _ _) => True
  | Some _ => False
  end.

(** The messages sent one by one ([SendMessage]), in order. *)
Fixpoint sentinels (tr : list event) : list SendMessageInput :=
  match tr with
  | [] => []
  | EvSendMessage input _ :: tr' => input :: sentinels tr'
  | _ :: tr' => sentinels tr'
  end.

Section Runs.

Context {W : Type} {C : Collaborators W}.

Definition run_call (c : call) (uploader : SQSBatchUploader)
  : M (SQSBatchUploader * option error) :=
  match c with
  | CallAddToBatch id body => AddToBatch id body uploader
  | CallFlush => Flush uploader
  end.

(** A client calling the uploader, going on after an error as it pleases;
    each call is returned with its result. *)
Fixpoint run_calls (cs : list call) (uploader : SQSBatchUploader)
  : M (SQSBatchUploader * list (call * option error)) :=
  match cs with
  | [] => ret (uploader, [])
  | c :: cs' =>
      bind (run_call c uploader) (fun r =>
        bind (run_calls cs' (fst r)) (fun r' =>
          ret (fst r', (c, snd r) :: snd r')))
  end.

(** The send of the same batch fails [k] times in a row from world [w]. *)
Fixpoint sends_fail (k : nat) (queueURL : string) (entries : list Entry)
    (w : W) : Prop :=
  match k with
  | O => True
  | S k' =>
      snd (fst (SQS_SendMessageBatch queueURL entries w)) <> None
      /\ sends_fail k' queueURL entries
           (snd (SQS_SendMessageBatch queueURL entries w))
  end.

(** The [i]-th slice [enqueueItems] takes of the items, [None] where the
    slice expression would panic. *)
Definition item_slice (itemList : ItemList) (i : Z) : option (list (list ascii)) :=
  let '(min, max) := slice_bounds itemList i in
  slice (Items itemList) min max.

(** The slices of [k] iterations of the loop of [enqueueItems] from index [i]
    on, and those of the whole loop. *)
Fixpoint slices_from (itemList : ItemList) (i : Z) (k : nat)
  : list (list (list ascii)) :=
  match k with
  | O => []
  | S k' => default [] (item_slice itemList i) :: slices_from itemList (i + 1) k'
  end.

Definition item_slices (itemList : ItemList) : list (list (list ascii)) :=
  slices_from itemList 0 (Z.to_nat (batchCount itemList)).

(** A computation is orderly when it ends within the bounds of its loops and
    adds to the trace, without sending a single message of its own. *)
Definition orderly {A} (m : @M W A) : Prop :=
  forall s : @env W,
    fst (m s) <> OutOfFuel
    /\ exists evs,
         trace (snd (m s)) = trace s ++ evs
         /\ Forall (fun e => is_sentinel_send e = false) evs.

(** What [streamJSONToQueue] does with one document it has decoded, on the
    uploader, the documents waiting for a full batch and the number of
    documents seen: the body of its loop below the call of [Decode]. *)
Definition handle_document (jobSpec : Job) (doc : list ascii)
    (st : SQSBatchUploader * jsonBuffer * Z)
  : M (SQSBatchUploader * jsonBuffer * Z * option error) :=
  let '(uploader, jsonMessageList, itemIndex) := st in
  if llen doc >? _messageSizeLimit then
    ret (st,
         errors_Wrap
           (Some (ErrorMessageExceedsMaxSize (llen doc) _messageSizeLimit))
           (MsgItem itemIndex))
  else
    let itemIndex := itemIndex + 1 in
    let jsonMessageList := jsonBuffer_Add jsonMessageList doc in
    if jsonBuffer_Length jsonMessageList =? BatchSize jsonMessageList
    then
      bind (addJSONObjectsToQueue uploader jsonMessageList) (fun r =>
        let '(uploader, err) := r in
        match err with
        | Some e => ret ((uploader, jsonMessageList, itemIndex), Some e)
        | None =>
            bind (logProgress jobSpec uploader) (fun _ =>
              ret ((uploader, jsonBuffer_Clear jsonMessageList, itemIndex),
                   None))
        end)
    else ret ((uploader, jsonMessageList, itemIndex), None).

(** The documents [docs] handled one after the other, up to the first
    error. *)
Fixpoint feed (jobSpec : Job) (docs : list (list ascii))
    (st : SQSBatchUploader * jsonBuffer * Z)
  : M (SQSBatchUploader * jsonBuffer * Z * option error) :=
  match docs with
  | [] => ret (st, None)
  | doc :: docs' =>
      bind (handle_document jobSpec doc st) (fun r =>
        match snd r with
        | Some e => ret (fst r, Some e)
        | None => feed jobSpec docs' (fst r)
        end)
  end.

(** How [streamJSONToQueue] ends once the documents of its buffer have been
    handled with outcome [r], the decoding having ended as [e] says; [buf] is
    what the buffer holds after an error. *)
Definition stream_result (e : json.split_end) (buf : list ascii)
    (r : outcome (SQSBatchUploader * jsonBuffer * Z * option error))
  : outcome (splitter * option error) :=
  match r with
  | Returned ((u, jml, idx), Some err) =>
      Returned (mkSplitter u buf jml idx, Some err)
  | Returned ((u, jml, idx), None) =>
      match e with
      | json.EndClean => Returned (mkSplitter u [] jml idx, None)
      | json.EndIncomplete t =>
          Returned (mkSplitter u t jml idx, Some ErrUnexpectedEOF)
      | json.EndError e0 => Returned (mkSplitter u buf jml idx, Some e0)
      end
  | Panicked x => Panicked x
  | OutOfFuel => OutOfFuel
  end.

(** How the iteration over the parts of a file ends once the documents of
    the file have been handled with outcome [r]: the buffer is empty unless
    an error ended the iteration. *)
Definition file_result (buf : list ascii)
    (r : outcome (SQSBatchUploader * jsonBuffer * Z * option error))
  : outcome (splitter * option error) :=
  match r with
  | Returned ((u, jml, idx), err) =>
      Returned (mkSplitter u (if err is None then [] else buf) jml idx, err)
  | Panicked x => Panicked x
  | OutOfFuel => OutOfFuel
  end.

Definition splitter_state (sp : splitter) : SQSBatchUploader * jsonBuffer * Z :=
  (sp_uploader sp, jsonMessageList sp, itemIndex sp).

Definition stream_of (chunks : list chunk) : list ascii :=
  concat (map chunk_bytes chunks).

(** [body] is what [json.Marshal] makes of the slice [items]. *)
Definition marshals (items : list (list ascii)) (body : string) : Prop :=
  json_Marshal_raw items = inl body.

End Runs.

(** The retry count [Flush] works with. *)
Definition configured_retries (uploader : SQSBatchUploader) : Z :=
  match Retries uploader with
  | Some r => r
  | None => 3
  end.

(** A failed attempt to send the pending set of [uploader]. *)
Definition failed_send_of (uploader : SQSBatchUploader) (e : event) : Prop :=
  exists out err,
    e = EvSendMessageBatch (QueueURL uploader) (messageList uploader) out (Some err).

(** An attempt, failed or not, to send the pending set of [uploader]. *)
Definition send_of (uploader : SQSBatchUploader) (e : event) : Prop :=
  exists out err,
    e = EvSendMessageBatch (QueueURL uploader) (messageList uploader) out err.

Definition is_successful_add (r : call * option error) : bool :=
  match r with
  | (CallAddToBatch _ _, None) => true
  | _ => false
  end.

Definition successful_adds (rs : list (call * option error)) : Z :=
  llen (filter (fun r => is_successful_add r = true) rs).

Definition is_successful_send (e : event) : bool :=
  match e with
  | EvSendMessageBatch _ _ _ None => true
  | _ => false
  end.

Definition successful_sends (tr : list event) : Z :=
  llen (filter (fun e => is_successful_send e = true) tr).

Definition is_batch_send (e : event) : bool :=
  match e with
  | EvSendMessageBatch _ _ _ _ => true
  | _ => false
  end.

(** The bodies handed to [AddToBatch], in order. *)
Fixpoint add_bodies (tr : list event) : list string :=
  match tr with
  | [] => []
  | EvAddToBatch _ body :: tr' => body :: add_bodies tr'
  | _ :: tr' => add_bodies tr'
  end.

Definition body_bytes (entries : list Entry) : Z :=
  foldr (fun e acc => len (MessageBody e) + acc) 0 entries.

Definition within_limits (entries : list Entry) : Prop :=
  body_bytes entries <= _messageSizeLimit
  /\ llen entries <= _maxMessagesPerBatch.

(** Every batch sent in [evs] respects both limits of the backend. *)
Definition sends_within_limits (evs : list event) : Prop :=
  Forall (fun e => match e with
                   | EvSendMessageBatch _ entries _ _ => within_limits entries
                   | _ => True
                   end) evs.

(** The invariant of the pending set. *)
Definition pending_ok (uploader : SQSBatchUploader) : Prop :=
  totalBytes uploader = body_bytes (messageList uploader)
  /\ within_limits (messageList uploader).

(** An uploader that never sends (no attempt is allowed), or whose pending
    set is as it should be. *)
Definition sends_ok (uploader : SQSBatchUploader) : Prop :=
  configured_retries uploader <= 0 \/ pending_ok uploader.

(** The uploader after [AddToBatch] has queued a message over the map [m]. *)
Definition queued (id body : string) (m : gmap string Z)
    (uploader : SQSBatchUploader) : SQSBatchUploader :=
  mkUploader (QueueURL uploader) (Retries uploader)
             (messageList uploader ++ [mkEntry id body id id])
             (Some (<[id := TotalBatches uploader]> m))
             (totalBytes uploader + len body)
             (TotalBatches uploader + 1).

(** ** What a run delivers, and the books of the uploader *)

(** The entries of the batches SQS took without a transport error, in the
    order of the sends. *)
Fixpoint delivered (tr : list event) : list Entry :=
  match tr with
  | [] => []
  | EvSendMessageBatch _ entries _ None :: tr' => entries ++ delivered tr'
  | _ :: tr' => delivered tr'
  end.

(** The entries of the messages [AddToBatch] has queued, in the order of the
    calls. *)
Fixpoint accepted (rs : list (call * option error)) : list Entry :=
  match rs with
  | [] => []
  | (CallAddToBatch id body, None) :: rs' =>
      mkEntry id body id id :: accepted rs'
  | _ :: rs' => accepted rs'
  end.

(** The ids the map of the uploader holds (the nil map holds none) and the
    ids of the pending messages. *)
Definition known_ids (uploader : SQSBatchUploader) : gset string :=
  dom (default ∅ (messageIDToListIndex uploader)).

Definition pending_ids (uploader : SQSBatchUploader) : gset string :=
  list_to_set (Id <$> messageList uploader).

(** The books agree with the pending set: the byte total is the sum of the
    pending payloads and the map holds the pending ids, no more, no less. *)
Definition tracked (uploader : SQSBatchUploader) : Prop :=
  totalBytes uploader = body_bytes (messageList uploader)
  /\ known_ids uploader = pending_ids uploader.

Section Worlds.

Context {W : Type} {C : Collaborators W}.

(** The world after [k] sends of the same batch. *)
Fixpoint after_sends (k : nat) (queueURL : string) (entries : list Entry)
    (w : W) : W :=
  match k with
  | O => w
  | S k' =>
      after_sends k' queueURL entries
                  (snd (SQS_SendMessageBatch queueURL entries w))
  end.

(** A computation that sends no batch: what it adds to the trace holds no
    [SendMessageBatch], and what it returns, if it returns, satisfies
    [post]. *)
Definition sends_no_batch {A} (m : @M W A) (post : A -> Prop) : Prop :=
  forall s : @env W,
    exists evs,
      trace (snd (m s)) = trace s ++ evs
      /\ Forall (fun e => is_batch_send e = false) evs
      /\ match fst (m s) with
         | Returned a => post a
         | _ => True
         end.

(** The function [enqueueS3Paths] hands to [s3IteratorFromLister], on the
    paths collected so far and the uploader; [batchSize] is the batch size
    of the lister. *)
Definition collectS3Path (jobSpec : Job) (batchSize : Z) (s3Obj : s3Object)
    (st : list string * SQSBatchUploader)
  : M (list string * SQSBatchUploader * bool * option error) :=
  let '(s3PathList, uploader) := st in
  let s3Path := S3Path (Bucket s3Obj) (Key s3Obj) in
  let s3PathList := s3PathList ++ [s3Path] in
  if llen s3PathList =? batchSize then
    bind (addS3PathsToQueue uploader s3PathList) (fun r =>
      let '(uploader, err) := r in
      match err with
      | Some e => ret ((s3PathList, uploader), false, Some e)
      | None =>
          bind (logProgress jobSpec uploader) (fun _ =>
            ret (([], uploader), true, None))
      end)
  else ret ((s3PathList, uploader), true, None).

(** [body] is what [json.Marshal] makes of the list of paths. *)
Definition marshals_paths (paths : list string) (body : string) : Prop :=
  json_Marshal_strings paths = inl body.

End Worlds.

(** [doc] is the text of one value, with no white space around it, that is
    not a number: the decoder reads it whole and leaves nothing. *)
Definition whole_document (doc : list ascii) : Prop :=
  json.Decode doc = json.DecValue doc [] /\ json.starts_number doc = false.

(** The stream that holds the documents one after the other, each followed
    by its delimiter (a newline, any run of white space, or nothing). *)
Fixpoint delimited (items : list (list ascii * list ascii)) : list ascii :=
  match items with
  | [] => []
  | (doc, delimiter) :: rest => doc ++ delimiter ++ delimited rest
  end.

(** An error that names an item of a file, as the size check of
    [streamJSONToQueue] wraps its error. *)
Definition item_error (e : error) : bool :=
  match e with
  | Wrapped (MsgItem _) _ => true
  | _ => false
  end.

(** The paths of the objects of a listing, in its order. *)
Definition s3Paths (objects : list s3Object) : list string :=
  map (fun o => S3Path (Bucket o) (Key o)) objects.

(** An uploader as the orchestrators build it and as it stays while no
    message has been queued: nothing pending, the nil map, a counter of
    zero. *)
Definition idle (uploader : SQSBatchUploader) : Prop :=
  messageList uploader = []
  /\ messageIDToListIndex uploader = None
  /\ TotalBatches uploader = 0.

(** A submission that holds nothing to enqueue: an empty item list (with a
    batch size that can divide), a listing of paths without objects, a
    listing of files without objects (with a batch size that is not
    negative, for the buffer of documents to be made), or no source at
    all. *)
Definition nothing_to_enqueue (submission : JobSubmission) : Prop :=
  match SubmittedItemList submission with
  | Some itemList => Items itemList = [] /\ ItemListBatchSize itemList <> 0
  | None =>
      match SubmittedFilePathLister submission with
      | Some lister =>
          listed (PathLister lister) = [] /\ listing_err (PathLister lister) = None
      | None =>
          match SubmittedDelimitedFiles submission with
          | Some files =>
              0 <= FileBatchSize files
              /\ listed (FileLister files) = []
              /\ listing_err (FileLister files) = None
          | None => True
          end
      end
  end.

(** ** The JSON encoder ([encoding/json] of the Go library)

    [json.Marshal] is called on a slice of raw messages ([enqueueItems],
    [addJSONObjectsToQueue]) and on a slice of strings
    ([addS3PathsToQueue]). The encoder of a slice writes its elements between
    brackets, separated by commas. A raw message is copied through [compact]
    of [indent.go], which runs the scanner over it: white space outside
    strings is dropped, the bytes [<], [>], [&] and the runes U+2028 and
    U+2029 are written as escapes, and a message that is not one JSON value
    fails the whole call. A string is written by [encodeState.string] of
    [encode.go]. Both are transcribed here from the library of Go 1.15, with
    the text of the errors.

    A slice is a list here, so that a nil slice (written [null]) and a nil
    raw message (written [null] too) have no counterpart: the program hands
    over slices it has appended to, made with [make], or cut from a list
    that is not empty, of messages a decoder has read. *)

Module encode.

Import json.

Definition text (s : string) : list ascii := String.list_ascii_of_string s.

Definition hex : list ascii := text "0123456789abcdef".

Definition hex_digit (n : N) : ascii := nth (N.to_nat n) hex "0"%char.

(** [hex[c>>4]] and [hex[c&0xF]] *)
Definition hex_hi (c : ascii) : ascii := hex_digit (N.shiftr (code c) 4).
Definition hex_lo (c : ascii) : ascii := hex_digit (N.land (code c) 15).

Definition hex2 (c : ascii) : string :=
  String (hex_hi c) (String (hex_lo c) EmptyString).

(** [quoteChar] of [scanner.go]: the byte between single quotes, written as
    [strconv.Quote] writes the rune of that number. *)
Definition quoteChar (c : ascii) : string :=
  let r := code c in
  let between_quotes (s : string) := String.append "'" (String.append s "'") in
  if isByte c "'" then "'\''"
  else if isByte c quote then between_quotes (String quote EmptyString)
  else if isByte c backslash then between_quotes "\\"
  else if ((32 <=? r) && (r <=? 126))%N then between_quotes (String c EmptyString)
  else if ((161 <=? r) && negb (r =? 173))%N then
    (* a printable rune above the ASCII range, in UTF-8 *)
    between_quotes (String (ascii_of_N (192 + N.shiftr r 6))
                      (String (ascii_of_N (128 + N.land r 63)) EmptyString))
  else if (r =? 7)%N then between_quotes "\a"
  else if (r =? 8)%N then between_quotes "\b"
  else if (r =? 12)%N then between_quotes "\f"
  else if (r =? 10)%N then between_quotes "\n"
  else if (r =? 13)%N then between_quotes "\r"
  else if (r =? 9)%N then between_quotes "\t"
  else if (r =? 11)%N then between_quotes "\v"
  else if (r <? 32)%N then between_quotes (String.append "\x" (hex2 c))
  else between_quotes (String.append "\u00" (hex2 c)).

(** [SyntaxError.Error]: the scanner sets no error but by [s.error]. *)
Definition Error (e : error) : string :=
  match e with
  | SyntaxError c context =>
      String.append "invalid character "
        (String.append (quoteChar c) (String.append " " context))
  | _ => EmptyString
  end.

(** [scanner.eof]: the end of the input, or the text of the error the
    scanner holds or then sets. *)
Inductive eof_result : Type :=
| EofEnd
| EofError (message : string).

Definition eof (s : scanner) : eof_result :=
  match err s with
  | Some e => EofError (Error e)
  | None =>
      if endTop s then EofEnd
      else
        let s' := fst (scan_step s " ") in
        if endTop s' then EofEnd
        else
          match err s' with
          | Some e => EofError (Error e)
          | None => EofError "unexpected end of JSON input"
          end
  end.

(** [v >= scanSkipSpace] *)
Definition skipped (v : scan_code) : bool :=
  match v with
  | scanSkipSpace | scanEnd | scanError => true
  | _ => false
  end.

Definition html (c : ascii) : bool :=
  isByte c "<" || isByte c ">" || isByte c "&".

(** [src[lo:hi]] *)
Definition between (src : list ascii) (lo hi : nat) : list ascii :=
  take (hi - lo)%nat (drop lo src).

(** [if start < i { dst.Write(src[start:i]) }] *)
Definition flush (src dst : list ascii) (start i : nat) : list ascii :=
  if (start <? i)%nat then dst ++ between src start i else dst.

(** [c == 0xE2 && i+2 < len(src) && src[i+1] == 0x80 && src[i+2]&^1 == 0xA8],
    with [todo] the bytes [src[i:]]. *)
Definition separator (todo : list ascii) : bool :=
  match todo with
  | c :: c1 :: c2 :: _ =>
      isByte c "226" && isByte c1 "128" && (N.land (code c2) 254 =? 168)%N
  | _ => false
  end.

(** The loop of [compact] at index [i], with [todo] the bytes [src[i:]]; it
    ends with the input, or on the first byte the scanner refuses. *)
Fixpoint compact_loop (escape : bool) (src todo : list ascii) (i start : nat)
    (scan : scanner) (dst : list ascii) : scanner * nat * list ascii :=
  match todo with
  | [] => (scan, start, dst)
  | c :: rest =>
      let '(start1, dst1) :=
        if escape && html c
        then (S i, flush src dst start i ++ text "\u00" ++ [hex_hi c; hex_lo c])
        else (start, dst) in
      let '(start2, dst2) :=
        if escape && separator todo
        then ((i + 3)%nat,
              flush src dst1 start1 i ++ text "\u202"
                ++ [hex_lo (nth 2 todo "000"%char)])
        else (start1, dst1) in
      let '(scan', v) := scan_step scan c in
      if skipped v then
        match v with
        | scanError => (scan', start2, dst2)
        | _ =>
            compact_loop escape src rest (S i) (S i) scan'
                         (flush src dst2 start2 i)
        end
      else compact_loop escape src rest (S i) start2 scan' dst2
  end.

(** [compact(dst, src, escape)]: the buffer afterwards, and the error. *)
Definition compact (dst src : list ascii) (escape : bool)
  : list ascii * option string :=
  let '(scan, start, out) := compact_loop escape src src 0 0 reset dst in
  match eof scan with
  | EofError message => (dst, Some message)
  | EofEnd =>
      (if (start <? length src)%nat then out ++ drop start src else out, None)
  end.

(** [htmlSafeSet] and [safeSet] of [tables.go], on a byte below [0x80]. *)
Definition safeSet (b : ascii) : bool :=
  (32 <=? code b)%N && negb (isByte b quote) && negb (isByte b backslash).

Definition htmlSafeSet (b : ascii) : bool :=
  safeSet b && negb (html b).

(** [utf8.DecodeRuneInString]: the rune and its width in bytes; a byte that
    begins no rune is [RuneError] of width one. *)
Definition RuneError : N := 65533.

Definition within (lo hi : N) (b : ascii) : bool :=
  ((lo <=? code b) && (code b <=? hi))%N.

(** The width of the rune a byte at or above [0x80] begins, and the range
    its second byte must lie in. *)
Definition first (p0 : ascii) : option (nat * (N * N)) :=
  if within 194 223 p0 then Some (2%nat, (128, 191)%N)
  else if within 224 224 p0 then Some (3%nat, (160, 191)%N)
  else if within 225 236 p0 then Some (3%nat, (128, 191)%N)
  else if within 237 237 p0 then Some (3%nat, (128, 159)%N)
  else if within 238 239 p0 then Some (3%nat, (128, 191)%N)
  else if within 240 240 p0 then Some (4%nat, (144, 191)%N)
  else if within 241 243 p0 then Some (4%nat, (128, 191)%N)
  else if within 244 244 p0 then Some (4%nat, (128, 143)%N)
  else None.

Definition low_bits (mask : N) (b : ascii) : N := N.land (code b) mask.

Definition DecodeRuneInString (p : list ascii) : N * nat :=
  match p with
  | [] => (RuneError, 0%nat)
  | p0 :: _ =>
      match first p0 with
      | None => (if (code p0 <? 128)%N then code p0 else RuneError, 1%nat)
      | Some (sz, (lo, hi)) =>
          let b1 := nth 1 p "000"%char in
          let b2 := nth 2 p "000"%char in
          let b3 := nth 3 p "000"%char in
          if (length (take sz p) <? sz)%nat then (RuneError, 1%nat)
          else if negb (within lo hi b1) then (RuneError, 1%nat)
          else if (sz <=? 2)%nat then
            (N.lor (N.shiftl (low_bits 31 p0) 6) (low_bits 63 b1), 2%nat)
          else if negb (within 128 191 b2) then (RuneError, 1%nat)
          else if (sz <=? 3)%nat then
            (N.lor (N.shiftl (low_bits 15 p0) 12)
               (N.lor (N.shiftl (low_bits 63 b1) 6) (low_bits 63 b2)), 3%nat)
          else if negb (within 128 191 b3) then (RuneError, 1%nat)
          else
            (N.lor (N.shiftl (low_bits 7 p0) 18)
               (N.lor (N.shiftl (low_bits 63 b1) 12)
                  (N.lor (N.shiftl (low_bits 63 b2) 6) (low_bits 63 b3))), 4%nat)
      end
  end.

(** What follows the backslash for a byte below [0x80] that is not written
    as it is. *)
Definition escaped (b : ascii) : list ascii :=
  if isByte b backslash || isByte b quote then [b]
  else if isByte b "010" then ["n"%char]
  else if isByte b "013" then ["r"%char]
  else if isByte b "009" then ["t"%char]
  else text "u00" ++ [hex_hi b; hex_lo b].

(** The loop of [encodeState.string] at index [i], with [todo] the bytes
    [s[i:]]; [skip] counts the bytes of the rune just decoded that the index
    has yet to pass. *)
Fixpoint string_loop (escapeHTML : bool) (s todo : list ascii)
    (i start skip : nat) (e : list ascii) : nat * list ascii :=
  match todo with
  | [] => (start, e)
  | b :: rest =>
      match skip with
      | S skip' => string_loop escapeHTML s rest (S i) start skip' e
      | O =>
          if (code b <? 128)%N then
            if htmlSafeSet b || (negb escapeHTML && safeSet b)
            then string_loop escapeHTML s rest (S i) start 0 e
            else
              string_loop escapeHTML s rest (S i) (S i) 0
                (flush s e start i ++ [backslash] ++ escaped b)
          else
            let '(c, size) := DecodeRuneInString todo in
            if (c =? RuneError)%N && (size =? 1)%nat then
              string_loop escapeHTML s rest (S i) (i + size)%nat (size - 1)%nat
                (flush s e start i ++ text "\ufffd")
            else if (c =? 8232)%N || (c =? 8233)%N then
              string_loop escapeHTML s rest (S i) (i + size)%nat (size - 1)%nat
                (flush s e start i ++ text "\u202"
                   ++ [hex_digit (N.land c 15)])
            else string_loop escapeHTML s rest (S i) start (size - 1)%nat e
      end
  end.

(** [e.string(s, escapeHTML)] *)
Definition encode_string (e s : list ascii) (escapeHTML : bool) : list ascii :=
  let '(start, e') := string_loop escapeHTML s s 0 0 0 (e ++ [quote]) in
  (if (start <? length s)%nat then e' ++ drop start s else e') ++ [quote].

(** [marshalerEncoder] on a [json.RawMessage], whose [MarshalJSON] returns
    the message itself. *)
Definition marshalerEncoder (e m : list ascii) : list ascii + string :=
  match compact e m true with
  | (e', None) => inl e'
  | (_, Some message) =>
      inr (String.append
             "json: error calling MarshalJSON for type json.RawMessage: "
             message)
  end.

(** [stringEncoder] *)
Definition stringEncoder (e : list ascii) (s : string) : list ascii + string :=
  inl (encode_string e (text s) true).

(** [arrayEncoder.encode]: the elements from index [i] on; the first error
    ends the call. *)
Fixpoint elements {A : Type} (elemEnc : list ascii -> A -> list ascii + string)
    (e : list ascii) (i : nat) (v : list A) : list ascii + string :=
  match v with
  | [] => inl e
  | x :: rest =>
      match elemEnc (if (0 <? i)%nat then e ++ [","%char] else e) x with
      | inl e' => elements elemEnc e' (S i) rest
      | inr message => inr message
      end
  end.

Definition arrayEncoder {A : Type}
    (elemEnc : list ascii -> A -> list ascii + string) (v : list A)
  : string + string :=
  match elements elemEnc ["["%char] 0 v with
  | inl e => inl (String.string_of_list_ascii (e ++ ["]"%char]))
  | inr message => inr message
  end.

(** [json.Marshal] on a [[]json.RawMessage] and on a [[]string]. *)
Definition Marshal_raw (v : list (list ascii)) : string + string :=
  arrayEncoder marshalerEncoder v.

Definition Marshal_strings (v : list string) : string + string :=
  arrayEncoder stringEncoder v.

End encode.

(** ** A scripted world

    A world for running the code on given inputs: the answers of SQS are read
    from a script (an empty script answers with success), the random sources
    count, and [json.Marshal] is the encoder above. *)

Module Scripted.

Record script : Type := mkWorld {
  batch_replies : list (SendMessageBatchOutput * option error);
  message_replies : list (option error);
  liveness_replies : list (option error);
  next_id : nat
}.

Definition fresh_id (prefix : string) (n : nat) : string :=
  String.append prefix (String (ascii_of_nat (97 + n)) EmptyString).

(** The string [s] between double quotes: a JSON string when [s] holds
    nothing to escape. *)
Definition quoted (s : string) : string :=
  String json.quote (String.append s (String json.quote EmptyString)).

#[export] Instance collaborators : Collaborators script := {|
  SQS_SendMessageBatch := fun _ _ w =>
    match batch_replies w with
    | r :: rest =>
        (r, mkWorld rest (message_replies w) (liveness_replies w) (next_id w))
    | [] => ((mkOutput [] [], None), w)
    end;
  SQS_SendMessage := fun _ w =>
    match message_replies w with
    | r :: rest =>
        (r, mkWorld (batch_replies w) rest (liveness_replies w) (next_id w))
    | [] => (None, w)
    end;
  S3_UploadLiveness := fun _ w =>
    match liveness_replies w with
    | r :: rest =>
        (r, mkWorld (batch_replies w) (message_replies w) rest (next_id w))
    | [] => (None, w)
    end;
  CloudWatch_write := fun _ _ w => w;
  random_String := fun _ w =>
    (fresh_id "id-" (next_id w),
     mkWorld (batch_replies w) (message_replies w) (liveness_replies w)
             (S (next_id w)));
  k8s_RandomName := fun w =>
    (fresh_id "name-" (next_id w),
     mkWorld (batch_replies w) (message_replies w) (liveness_replies w)
             (S (next_id w)));
  json_Marshal_raw := encode.Marshal_raw;
  json_Marshal_strings := encode.Marshal_strings
|}.

Definition quiet : script := mkWorld [] [] [] 0.

Definition start (w : script) : env := mkEnv w [].

Definition bytes (s : string) : list ascii := String.list_ascii_of_string s.

(** An uploader whose map has been made, as [Flush] leaves it. *)
Definition ready : SQSBatchUploader := mkUploader "queue" (Some 3) [] (Some ∅) 0 0.

Definition entry (id body : string) : Entry := mkEntry id body id id.

Definition rejected : SendMessageBatchOutput :=
  mkOutput [mkFailed "a" "message rejected"] [].

Definition job : Job := mkJob "job" "queue".

Fixpoint filler (n : nat) : string :=
  match n with
  | O => EmptyString
  | S n' => String "x" (filler n')
  end.

(** A payload one byte above the ceiling. *)
Definition oversized : string := filler (Z.to_nat 262145).

(** A pending set one byte short of the ceiling. *)
Definition nearly_full : SQSBatchUploader :=
  mkUploader "queue" (Some 3) [entry "a" (filler (Z.to_nat 262143))]
             (Some {["a" := 0]}) 262143 1.

(** The parts of a file, read without error. *)
Definition parts (cs : list string) : list chunk :=
  map (fun c => mkChunk (bytes c) None) cs.

Definition file_of (cs : list string) : DelimitedFiles :=
  mkDelimitedFiles (mkLister [mkObject "bucket" "key" (parts cs)] None) 5.

(** The documents waiting in the buffer after the parts [cs] of a file have
    gone through the splitter, none yet handed over (the batch size is 5),
    or the way the iteration over the parts failed. *)
Definition buffered_after (cs : list string)
  : list string + outcome (option error) :=
  match S3FileIterator (parts cs) (readChunk job)
          (mkSplitter ready [] (mkJSONBuffer 5 []) 0) (start quiet) with
  | (Returned (sp, None), _) =>
      inl (map String.string_of_list_ascii (bufferedMessages (jsonMessageList sp)))
  | (Returned (_, Some e), _) => inr (Returned (Some e))
  | (Panicked r, _) => inr (Panicked r)
  | (OutOfFuel, _) => inr OutOfFuel
  end.

(** The bytes [l] cut in parts of [n] bytes. *)
Fixpoint split_every (fuel n : nat) (l : list ascii) : list (list ascii) :=
  match fuel with
  | O => []
  | S fuel' =>
      match l with
      | [] => []
      | _ :: _ => take n l :: split_every fuel' n (drop n l)
      end
  end.

Definition parts_of (n : nat) (l : list ascii) : list chunk :=
  map (fun b => mkChunk b None) (split_every (length l) n l).

(** Three objects in a row, each with one key: a, b and c. *)
Definition object (key value : string) : string :=
  String.append "{"
    (String.append (quoted key) (String.append ":" (String.append value "}"))).

Definition three_objects : list ascii :=
  bytes (String.append (object "a" "1")
           (String.append (object "b" "2") (object "c" "3"))).

(** Twenty-five items. *)
Definition items25 : ItemList :=
  mkItemList (replicate 25 (bytes "1")) 10.

End Scripted.

(** ** More inputs *)

Module Cases.

Import Scripted.

(** A send SQS does not answer. *)
Definition timeout : SendMessageBatchOutput * option error :=
  (mkOutput [] [], Some (ExternalError "timeout")).

(** One message pending, the second of the run; no retry count configured. *)
Definition one_pending : SQSBatchUploader :=
  mkUploader "queue" None [entry "a" "x"] (Some {["a" := 0]}) 1 1.

(** The same with a retry count of zero. *)
Definition no_retries : SQSBatchUploader :=
  mkUploader "queue" (Some 0) [entry "a" "x"] (Some {["a" := 0]}) 1 1.

(** Files to read by documents, none listed: in batches of five, and with
    a batch size below zero. *)
Definition no_files : DelimitedFiles := mkDelimitedFiles (mkLister [] None) 5.

Definition negative_files : DelimitedFiles :=
  mkDelimitedFiles (mkLister [] None) (-1).

(** One item and a batch size below zero. *)
Definition negative_size : ItemList := mkItemList [bytes "1"] (-2).

(** A world in which the liveness file cannot be written. *)
Definition no_liveness : script :=
  mkWorld [] [] [Some (ExternalError "access denied")] 0.

(** Five objects of a bucket. *)
Definition five_objects : list s3Object :=
  map (fun key => mkObject "bucket" key []) ["a"; "b"; "c"; "d"; "e"].

(** Three objects, each on a line of its own. *)
Definition newline : list ascii := [ascii_of_nat 10].

Definition three_lines : list (list ascii * list ascii) :=
  [(bytes (object "a" "1"), newline);
   (bytes (object "b" "2"), newline);
   (bytes (object "c" "3"), newline)].

(** A string longer than the ceiling, as a document, and a buffer that
    holds it after a small object. *)
Definition oversized_document : list ascii :=
  bytes (quoted (filler (Z.to_nat 262143))).

(** One item, a string which alone is longer than the ceiling, in batches
    of one. *)
Definition oversized_item : ItemList := mkItemList [oversized_document] 1.

Definition oversized_second : splitter :=
  mkSplitter ready (bytes (object "a" "1") ++ oversized_document)
             (mkJSONBuffer 5 []) 0.

End Cases.

(** ** The log group of a job ([logging.go])

    The calls to CloudWatch Logs are the operations of the class
    [CloudWatchLogs] over an abstract world; every call is recorded, with
    its input, in the list of requests. The clock is read through
    [libtime.ToMillis(time.Now())], and a log line is wrapped by
    [json.Marshal(fluentdLog{Log: line})], the error of which the code
    drops. *)

Module logging.

(** [spec.JobKey], the fields the package reads. *)
Record JobKey : Type := mkJobKey {
  APIName : string;
  ID : string
}.

(** What the package reads of its configuration: [config.Cluster.LogGroup],
    [config.Cluster.Tags] and [_operatorService], a constant of the package
    that is declared outside the sources at hand. *)
Record Config : Type := mkConfig {
  LogGroup : string;
  Tags : gmap string string;
  _operatorService : string
}.

Record CreateLogGroupInput : Type := mkCreateLogGroupInput {
  group_LogGroupName : string;
  group_Tags : gmap string string
}.

Record CreateLogStreamInput : Type := mkCreateLogStreamInput {
  stream_LogGroupName : string;
  stream_LogStreamName : string
}.

Record DescribeLogStreamsInput : Type := mkDescribeLogStreamsInput {
  describe_LogGroupName : string;
  describe_LogStreamNamePrefix : string
}.

Record LogStream : Type := mkLogStream {
  UploadSequenceToken : option string
}.

Record InputLogEvent : Type := mkInputLogEvent {
  Message : string;
  Timestamp : Z
}.

(** [LogEvents] is a slice of pointers: [None] is a nil pointer. *)
Record PutLogEventsInput : Type := mkPutLogEventsInput {
  put_LogGroupName : string;
  put_LogStreamName : string;
  LogEvents : list (option InputLogEvent);
  SequenceToken : option string
}.

Inductive request : Type :=
| ReqCreateLogGroup (input : CreateLogGroupInput)
| ReqCreateLogStream (input : CreateLogStreamInput)
| ReqDescribeLogStreams (input : DescribeLogStreamsInput)
| ReqPutLogEvents (input : PutLogEventsInput).

(** What the functions return when they fail: the error of a call, which
    [errors.WithStack] decorates, or [errors.ErrorUnexpected] with the
    message that no log stream of the given name was found in the given log
    group. *)
Inductive failure : Type :=
| CallFailed (e : error)
| ErrorUnexpected (stream group : string).

Class CloudWatchLogs (W : Type) : Type := {
  CreateLogGroup : CreateLogGroupInput -> W -> option error * W;
  CreateLogStream : CreateLogStreamInput -> W -> option error * W;
  DescribeLogStreams :
    DescribeLogStreamsInput -> W -> (list LogStream * option error) * W;
  PutLogEvents : PutLogEventsInput -> W -> option error * W;
  now_millis : W -> Z * W;
  marshal_fluentdLog : string -> string
}.

Section Logging.

Context {W : Type} {L : CloudWatchLogs W}.

Record log_env : Type := mkLogEnv {
  lworld : W;
  requests : list request
}.

Definition logGroupNameForJob (cfg : Config) (jobKey : JobKey) : string :=
  String.append (LogGroup cfg)
    (String.append "/"
       (String.append (APIName jobKey) (String.append "." (ID jobKey)))).

(** The map literal of [createLogGroupForJob]. *)
Definition job_tags (jobKey : JobKey) : gmap string string :=
  <["jobID" := ID jobKey]> (<["apiName" := APIName jobKey]> ∅).

(** The loop over [config.Cluster.Tags], which assigns every tag of the
    cluster into the map. *)
Definition merged_tags (cfg : Config) (jobKey : JobKey) : gmap string string :=
  map_fold (fun key value tags => <[key := value]> tags)
           (job_tags jobKey) (Tags cfg).

Definition createLogGroupForJob (cfg : Config) (jobKey : JobKey)
  : log_env -> option failure * log_env :=
  fun s =>
    let tags := merged_tags cfg jobKey in
    let input := mkCreateLogGroupInput (logGroupNameForJob cfg jobKey) tags in
    let '(err, w1) := CreateLogGroup input (lworld s) in
    let s1 := mkLogEnv w1 (requests s ++ [ReqCreateLogGroup input]) in
    match err with
    | Some e => (Some (CallFailed e), s1)
    | None =>
        let input := mkCreateLogStreamInput (logGroupNameForJob cfg jobKey)
                                            (_operatorService cfg) in
        let '(err, w2) := CreateLogStream input w1 in
        let s2 := mkLogEnv w2 (requests s1 ++ [ReqCreateLogStream input]) in
        match err with
        | Some e => (Some (CallFailed e), s2)
        | None => (None, s2)
        end
    end.

(** The loop of [writeToJobLogGroup] over the log lines: the slice is made
    with one nil pointer per line, and the loop assigns the event of line
    [i] at index [i]. *)
Definition fill_events (curTime : Z) (logLines : list string)
  : list (option InputLogEvent) :=
  foldl (fun inputLogEvents '(i, line) =>
           <[i := Some (mkInputLogEvent (marshal_fluentdLog line) curTime)]>
             inputLogEvents)
        (replicate (length logLines) None)
        (imap (fun i line => (i, line)) logLines).

Definition writeToJobLogGroup (cfg : Config) (jobKey : JobKey)
    (logLine : string) (logLines : list string)
  : log_env -> option failure * log_env :=
  fun s =>
    let input := mkDescribeLogStreamsInput (logGroupNameForJob cfg jobKey)
                                           (_operatorService cfg) in
    let '((logStreams, err), w1) := DescribeLogStreams input (lworld s) in
    let s1 := mkLogEnv w1 (requests s ++ [ReqDescribeLogStreams input]) in
    match err with
    | Some e => (Some (CallFailed e), s1)
    | None =>
        match logStreams with
        | [] =>
            (Some (ErrorUnexpected (_operatorService cfg)
                                   (logGroupNameForJob cfg jobKey)), s1)
        | first :: _ =>
            let logLines := logLine :: logLines in
            let '(curTime, w2) := now_millis w1 in
            let inputLogEvents := fill_events curTime logLines in
            let input := mkPutLogEventsInput (logGroupNameForJob cfg jobKey)
                                             (_operatorService cfg)
                                             inputLogEvents
                                             (UploadSequenceToken first) in
            let '(err, w3) := PutLogEvents input w2 in
            let s3 := mkLogEnv w3 (requests s1 ++ [ReqPutLogEvents input]) in
            match err with
            | Some e => (Some (CallFailed e), s3)
            | None => (None, s3)
            end
        end
    end.

End Logging.

(** A CloudWatch that answers from a script: the error of each call, the
    log streams it describes and the time of its clock. *)
Record script : Type := mkScript {
  group_reply : option error;
  stream_reply : option error;
  described : list LogStream * option error;
  put_reply : option error;
  clock : Z
}.

#[export] Instance scripted : CloudWatchLogs script := {|
  CreateLogGroup := fun _ w => (group_reply w, w);
  CreateLogStream := fun _ w => (stream_reply w, w);
  DescribeLogStreams := fun _ w => (described w, w);
  PutLogEvents := fun _ w => (put_reply w, w);
  now_millis := fun w => (clock w, w);
  marshal_fluentdLog := fun line =>
    String.append "{" (String.append line "}")
|}.

Definition cluster : Config :=
  mkConfig "cortex" {["apiName" := "shared"; "team" := "search"]} "operator".

Definition key : JobKey := mkJobKey "classifier" "job-1".

Definition calm : script :=
  mkScript None None ([mkLogStream (Some "token-7")], None) None 1000.

Definition no_stream : script := mkScript None None ([], None) None 1000.

End logging.

(** * Properties *)

Section Properties.

Context {W : Type} {C : Collaborators W}.

Implicit Types (s : @env W) (uploader u : SQSBatchUploader).

(** ** The uploader *)

Lemma enqueueToSQS_unfold uploader s :
  enqueueToSQS uploader s =
  let r := SQS_SendMessageBatch (QueueURL uploader) (messageList uploader) (world s) in
  let s' := mkEnv (snd r)
              (trace s ++ [EvSendMessageBatch (QueueURL uploader)
                             (messageList uploader) (fst (fst r)) (snd (fst r))]) in
  (Returned
     match snd (fst r) with
     | Some e =>
         match Failed (fst (fst r)) with
         | [] => Some (WithStack e)
         | f :: _ =>
             Some (Wrapped (MsgBatch (map_index (messageIDToListIndex uploader)
                                                (FailedId f)))
                           (ErrorFailedToEnqueueMessages (FailedMessage f)))
         end
     | None => None
     end, s').
Proof.
  unfold enqueueToSQS, bind, SendMessageBatch, ret.
  destruct (SQS_SendMessageBatch _ _ _) as [[out err] w']. simpl.
  destruct err as [e|]; [destruct (Failed out)|]; reflexivity.
Qed.

Lemma Flush_pending uploader :
  messageList uploader <> [] ->
  Flush uploader =
  Flush_attempts (Z.to_nat (configured_retries uploader))
                 (configured_retries uploader) uploader None.
Proof.
  intros Hne. unfold Flush, configured_retries.
  destruct (messageList uploader); [congruence | reflexivity].
Qed.

Lemma Flush_empty uploader :
  messageList uploader = [] -> Flush uploader = ret (uploader, None).
Proof. intros Hnil. unfold Flush. rewrite Hnil. reflexivity. Qed.

Lemma Flush_attempts_all_fail k retries uploader e0 s :
  sends_fail k (QueueURL uploader) (messageList uploader) (world s) ->
  exists e' w' evs,
    Flush_attempts k retries uploader e0 s =
      (Returned (uploader, errors_Wrap e' (MsgFailedAfterRetrying retries)),
       mkEnv w' (trace s ++ evs))
    /\ length evs = k
    /\ Forall (failed_send_of uploader) evs
    /\ (k <> O \/ e0 <> None -> e' <> None).
Proof.
  revert e0 s. induction k as [|k IH]; intros e0 s Hfail.
  - exists e0, (world s), []. simpl. unfold ret.
    rewrite app_nil_r. destruct s; simpl.
    repeat split; auto. intros [H|H]; congruence.
  - simpl in Hfail. destruct Hfail as [Herr Hrest].
    cbn [Flush_attempts]. unfold bind. rewrite enqueueToSQS_unfold. cbv zeta.
    destruct (SQS_SendMessageBatch (QueueURL uploader) (messageList uploader)
                (world s)) as [[out err] w1] eqn:Hsend.
    simpl in Herr, Hrest. simpl.
    destruct err as [e|]; [|congruence].
    set (e1 := match Failed out with
               | [] => WithStack e
               | f :: _ => Wrapped (MsgBatch (map_index (messageIDToListIndex uploader)
                                                         (FailedId f)))
                             (ErrorFailedToEnqueueMessages (FailedMessage f))
               end).
    assert (Hcase : match Failed out with
               | [] => Some (WithStack e)
               | f :: _ => Some (Wrapped (MsgBatch (map_index (messageIDToListIndex uploader)
                                                         (FailedId f)))
                             (ErrorFailedToEnqueueMessages (FailedMessage f)))
               end = Some e1) by (unfold e1; destruct (Failed out); reflexivity).
    rewrite Hcase.
    destruct (IH (Some e1)
                (mkEnv w1 (trace s ++ [EvSendMessageBatch (QueueURL uploader)
                                         (messageList uploader) out (Some e)])))
      as (e' & w' & evs & Heq & Hlen & Hall & Hsome); [exact Hrest|].
    exists e', w', (EvSendMessageBatch (QueueURL uploader) (messageList uploader)
                      out (Some e) :: evs).
    rewrite Heq. simpl. rewrite <- app_assoc. simpl.
    split; [reflexivity|]. split; [congruence|]. split.
    + constructor; [exists out, e; reflexivity | exact Hall].
    + intros _. apply Hsome. right. congruence.
Qed.

(** C7. If every attempt to send fails, [Flush] on a pending set that is not
    empty makes exactly as many attempts as the retry count says (3 when none
    is configured), all of them sends of that pending set, returns the last
    error wrapped in a message that names the retry count, and leaves the
    uploader, with its message list, byte total, map and counter, as it was. *)
Theorem Flush_exhausts_retries uploader s :
  messageList uploader <> [] ->
  0 < configured_retries uploader ->
  sends_fail (Z.to_nat (configured_retries uploader))
             (QueueURL uploader) (messageList uploader) (world s) ->
  exists e w' evs,
    Flush uploader s =
      (Returned (uploader,
                 Some (Wrapped (MsgFailedAfterRetrying (configured_retries uploader)) e)),
       mkEnv w' (trace s ++ evs))
    /\ llen evs = configured_retries uploader
    /\ Forall (failed_send_of uploader) evs.
Proof.
  intros Hne Hpos Hfail.
  destruct (Flush_attempts_all_fail _ (configured_retries uploader) uploader None s Hfail)
    as (e' & w' & evs & Heq & Hlen & Hall & Hsome).
  destruct e' as [e|].
  2:{ exfalso. apply Hsome; [|reflexivity]. left. lia. }
  exists e, w', evs. split; [|split; [|exact Hall]].
  - rewrite Flush_pending by assumption. exact Heq.
  - unfold llen. rewrite Hlen. lia.
Qed.

(** C9. A payload longer than the ceiling is refused with the error that
    tells its size and the ceiling: the uploader is returned as it was, no
    collaborator is called (the world is untouched) and the trace gains
    nothing but the record of the call itself. *)
Theorem AddToBatch_rejects_large_payload id body uploader s :
  _messageSizeLimit < len body ->
  AddToBatch id body uploader s =
    (Returned (uploader,
               Some (ErrorMessageExceedsMaxSize (len body) _messageSizeLimit)),
     mkEnv (world s) (trace s ++ [EvAddToBatch id body])).
Proof.
  intros Hbig. unfold AddToBatch, bind, emit, ret.
  destruct (Z.gtb_spec (len body) _messageSizeLimit); [reflexivity|lia].
Qed.

(** C2 (what the code does). On the uploader the orchestrators build, whose
    map is nil, [AddToBatch] with a payload within the ceiling does not
    return: it panics at the assignment into the map, before the byte total
    and the counter are updated and without any send. *)
Theorem AddToBatch_nil_map_panics jobSpec id body s :
  len body <= _messageSizeLimit ->
  AddToBatch id body (newUploader jobSpec) s =
    (Panicked "assignment to entry in nil map",
     mkEnv (world s) (trace s ++ [EvAddToBatch id body])).
Proof.
  intros Hfit. unfold AddToBatch, bind, emit, ret, newUploader. simpl.
  rewrite Z.add_0_r.
  destruct (Z.gtb_spec (len body) _messageSizeLimit); [lia|reflexivity].
Qed.

(** C3 (what the code does). When the call to SQS comes back without a
    transport error, [enqueueToSQS] returns nil whatever the list of failed
    messages, and [Flush] then drops the pending set as if it had been
    delivered. *)
Theorem enqueueToSQS_ignores_rejections uploader s out w' :
  SQS_SendMessageBatch (QueueURL uploader) (messageList uploader) (world s)
    = ((out, None), w') ->
  Failed out <> [] ->
  messageList uploader <> [] ->
  0 < configured_retries uploader ->
  fst (enqueueToSQS uploader s) = Returned None
  /\ fst (Flush uploader s) = Returned (cleared uploader, None).
Proof.
  intros Hsend _ Hne Hpos. split.
  - rewrite enqueueToSQS_unfold, Hsend. reflexivity.
  - rewrite Flush_pending by assumption.
    destruct (Z.to_nat (configured_retries uploader)) eqn:Hk; [lia|].
    cbn [Flush_attempts]. unfold bind.
    rewrite enqueueToSQS_unfold, Hsend. reflexivity.
Qed.

Lemma Flush_attempts_spec k retries uploader e0 s :
  exists u' err w' evs,
    Flush_attempts k retries uploader e0 s =
      (Returned (u', err), mkEnv w' (trace s ++ evs))
    /\ Forall (send_of uploader) evs
    /\ (k = O -> evs = [])
    /\ ((u' = cleared uploader /\ err = None)
        \/ (u' = uploader /\ (err = None -> k = O /\ e0 = None))).
Proof.
  revert e0 s. induction k as [|k IH]; intros e0 s.
  - exists uploader, (errors_Wrap e0 (MsgFailedAfterRetrying retries)), (world s), [].
    simpl. unfold ret. rewrite app_nil_r. destruct s; simpl.
    split; [reflexivity|]. split; [constructor|]. split; [reflexivity|].
    right. split; [reflexivity|]. destruct e0; simpl; [discriminate|auto].
  - cbn [Flush_attempts]. unfold bind. rewrite enqueueToSQS_unfold. cbv zeta.
    destruct (SQS_SendMessageBatch (QueueURL uploader) (messageList uploader)
                (world s)) as [[out err] w1].
    cbn [fst snd].
    assert (Hev : send_of uploader
                    (EvSendMessageBatch (QueueURL uploader) (messageList uploader)
                       out err)) by (exists out, err; reflexivity).
    destruct err as [e|].
    + destruct (Failed out) as [|f fl]; cbn iota;
        match goal with
        | |- context [Flush_attempts k retries uploader (Some ?x) ?st] =>
            destruct (IH (Some x) st)
              as (u' & err' & w' & evs & Heq & Hall & _ & Hres)
        end;
        cbn [trace] in Heq |- *; rewrite Heq;
        (eexists u', err', w', (_ :: evs);
         rewrite <- app_assoc; split; [reflexivity|];
         split; [constructor; [exact Hev | exact Hall]|];
         split; [discriminate|];
         destruct Hres as [[-> ->]|[-> Hnone]];
         [left; split; reflexivity
         |right; split; [reflexivity|];
          intros Hn; destruct (Hnone Hn) as [_ Habs]; discriminate]).
    + exists (cleared uploader), None, w1,
        [EvSendMessageBatch (QueueURL uploader) (messageList uploader) out None].
      unfold ret. split; [reflexivity|]. split; [constructor; [exact Hev|constructor]|].
      split; [discriminate|]. left. split; reflexivity.
Qed.

Lemma Flush_spec uploader s :
  exists u' err w' evs,
    Flush uploader s = (Returned (u', err), mkEnv w' (trace s ++ evs))
    /\ Forall (send_of uploader) evs
    /\ (configured_retries uploader <= 0 -> evs = [])
    /\ ((u' = cleared uploader /\ err = None)
        \/ (u' = uploader
            /\ (err = None ->
                messageList uploader = [] \/ configured_retries uploader <= 0))).
Proof.
  destruct (messageList uploader) as [|m l] eqn:Hl.
  - rewrite Flush_empty by assumption.
    exists uploader, None, (world s), []. unfold ret. rewrite app_nil_r.
    destruct s; simpl. split; [reflexivity|]. split; [constructor|].
    split; [reflexivity|]. right. split; [reflexivity|]. intros _. left. reflexivity.
  - rewrite Flush_pending by congruence.
    destruct (Flush_attempts_spec (Z.to_nat (configured_retries uploader))
                (configured_retries uploader) uploader None s)
      as (u' & err & w' & evs & Heq & Hall & Hzero & Hres).
    exists u', err, w', evs. split; [exact Heq|]. split; [exact Hall|].
    split; [intros Hle; apply Hzero; lia|].
    destruct Hres as [Hc|[-> Hnone]]; [left; exact Hc|].
    right. split; [reflexivity|]. intros Hn. right.
    destruct (Hnone Hn) as [Hk _]. lia.
Qed.

Lemma body_bytes_app l1 l2 :
  body_bytes (l1 ++ l2) = body_bytes l1 + body_bytes l2.
Proof.
  unfold body_bytes. induction l1 as [|e l1 IH]; simpl; [reflexivity|].
  rewrite IH. lia.
Qed.

Lemma llen_app {A} (l1 l2 : list A) : llen (l1 ++ l2) = llen l1 + llen l2.
Proof. unfold llen. rewrite length_app. lia. Qed.

Lemma len_nonneg body : 0 <= len body.
Proof. unfold len. lia. Qed.

Lemma sends_ok_cleared uploader : sends_ok uploader -> sends_ok (cleared uploader).
Proof.
  intros [Hle|_]; [left; exact Hle|]. right.
  unfold pending_ok, within_limits, cleared, llen, _messageSizeLimit,
    _maxMessagesPerBatch. simpl. lia.
Qed.

Lemma sends_of_within_limits uploader evs :
  sends_ok uploader ->
  (configured_retries uploader <= 0 -> evs = []) ->
  Forall (send_of uploader) evs ->
  sends_within_limits evs.
Proof.
  intros [Hle|[_ Hlim]] Hzero Hall.
  - rewrite (Hzero Hle). constructor.
  - unfold sends_within_limits. eapply Forall_impl; [exact Hall|].
    intros e (out & err & ->). exact Hlim.
Qed.

(** What one call of [AddToBatch] does: the trace gains the record of the
    call and the sends of a flush of the pending set; the counter goes up by
    one when the message is queued and stays otherwise. *)
Lemma AddToBatch_spec id body uploader s :
  sends_ok uploader ->
  exists o w' evs,
    AddToBatch id body uploader s =
      (o, mkEnv w' (trace s ++ EvAddToBatch id body :: evs))
    /\ sends_within_limits evs
    /\ match o with
       | Returned (u', None) =>
           sends_ok u' /\ TotalBatches u' = TotalBatches uploader + 1
       | Returned (u', Some _) => u' = uploader
       | Panicked _ => True
       | OutOfFuel => False
       end.
Proof.
  intros Hok. unfold AddToBatch, bind, emit.
  destruct (Z.gtb_spec (len body) _messageSizeLimit) as [Hbig|Hfit].
  { exists (Returned (uploader,
                      Some (ErrorMessageExceedsMaxSize (len body) _messageSizeLimit))),
      (world s), [].
    unfold ret. cbn [world trace]. split; [reflexivity|].
    split; [constructor | reflexivity]. }
  cbn [MessageBody].
  destruct ((len body + totalBytes uploader >? _messageSizeLimit)
            || (Z.of_nat (length (messageList uploader)) =? _maxMessagesPerBatch))
    eqn:Hcond.
  - destruct (Flush_spec uploader
                (mkEnv (world s) (trace s ++ [EvAddToBatch id body])))
      as (u1 & err & w' & evs & Heq & Hall & Hzero & Hres).
    rewrite Heq. cbn [trace]. rewrite <- app_assoc. cbn [app].
    pose proof (sends_of_within_limits _ _ Hok Hzero Hall) as Hlim.
    destruct err as [e|].
    + destruct Hres as [[_ Habs]|[-> _]]; [discriminate|].
      eexists _, w', evs. unfold ret. split; [reflexivity|].
      split; [exact Hlim | reflexivity].
    + destruct (messageIDToListIndex u1) as [m|] eqn:Hmap.
      2:{ eexists _, w', evs. unfold panic. split; [reflexivity|].
          split; [exact Hlim | exact I]. }
      eexists _, w', evs. unfold ret. split; [reflexivity|].
      split; [exact Hlim|]. cbn [TotalBatches].
      split; [|destruct Hres as [[-> _]|[-> _]]; reflexivity].
      destruct Hres as [[-> _]|[-> Hnone]].
      * destruct Hok as [Hle|_]; [left; exact Hle|]. right.
        unfold pending_ok, within_limits, body_bytes, llen. simpl.
        pose proof (len_nonneg body).
        unfold _maxMessagesPerBatch. lia.
      * destruct (Hnone eq_refl) as [Hnil|Hle]; [|left; exact Hle].
        destruct Hok as [Hle|[Hbytes _]]; [left; exact Hle|]. right.
        rewrite Hnil in Hbytes.
        unfold pending_ok, within_limits, llen. cbn [messageList totalBytes].
        rewrite Hnil, Hbytes. unfold body_bytes. simpl.
        pose proof (len_nonneg body).
        unfold _maxMessagesPerBatch. lia.
  - apply orb_false_iff in Hcond. destruct Hcond as [Hsum Hcount].
    unfold ret at 1. cbn [trace world fst snd].
    destruct (messageIDToListIndex uploader) as [m|] eqn:Hmap.
    2:{ eexists _, (world s), []. unfold panic. split; [reflexivity|].
        split; [constructor | exact I]. }
    eexists _, (world s), []. unfold ret. split; [reflexivity|].
    split; [constructor|]. cbn [TotalBatches]. split; [|reflexivity].
    destruct Hok as [Hle|[Hbytes [Hlim Hcnt]]]; [left; exact Hle|]. right.
    destruct (Z.gtb_spec (len body + totalBytes uploader) _messageSizeLimit);
      [discriminate|].
    apply Z.eqb_neq in Hcount.
    unfold pending_ok, within_limits. cbn [messageList totalBytes].
    rewrite body_bytes_app, llen_app. unfold body_bytes at 2 4. unfold llen at 2.
    simpl. unfold llen in *. unfold _maxMessagesPerBatch in *. lia.
Qed.

Lemma run_call_spec c uploader s :
  sends_ok uploader ->
  exists o w' evs,
    run_call c uploader s = (o, mkEnv w' (trace s ++ evs))
    /\ sends_within_limits evs
    /\ match o with
       | Returned (u', err) =>
           sends_ok u'
           /\ TotalBatches u' =
                TotalBatches uploader
                + (if is_successful_add (c, err) then 1 else 0)
       | Panicked _ => True
       | OutOfFuel => False
       end.
Proof.
  intros Hok. destruct c as [id body|]; cbn [run_call].
  - destruct (AddToBatch_spec id body uploader s Hok)
      as (o & w' & evs & Heq & Hlim & Hres).
    exists o, w', (EvAddToBatch id body :: evs).
    split; [exact Heq|]. split; [constructor; [exact I | exact Hlim]|].
    destruct o as [[u' [e|]]| |]; cbn [is_successful_add]; try exact Hres.
    subst u'. split; [exact Hok | lia].
  - destruct (Flush_spec uploader s)
      as (u' & err & w' & evs & Heq & Hall & Hzero & Hres).
    exists (Returned (u', err)), w', evs. split; [exact Heq|].
    split; [exact (sends_of_within_limits _ _ Hok Hzero Hall)|].
    cbn [is_successful_add].
    destruct Hres as [[-> _]|[-> _]]; cbn [cleared TotalBatches];
      (split; [auto using sends_ok_cleared | lia]).
Qed.

Lemma sends_within_limits_app evs1 evs2 :
  sends_within_limits evs1 -> sends_within_limits evs2 ->
  sends_within_limits (evs1 ++ evs2).
Proof. unfold sends_within_limits. intros H1 H2. apply Forall_app. auto. Qed.

Lemma successful_adds_cons r rs :
  successful_adds (r :: rs) =
  (if is_successful_add r then 1 else 0) + successful_adds rs.
Proof.
  unfold successful_adds, llen. rewrite filter_cons.
  destruct (is_successful_add r); simpl; lia.
Qed.

Lemma run_calls_spec cs uploader s :
  sends_ok uploader ->
  exists o w' evs,
    run_calls cs uploader s = (o, mkEnv w' (trace s ++ evs))
    /\ sends_within_limits evs
    /\ match o with
       | Returned (u', rs) =>
           sends_ok u'
           /\ TotalBatches u' = TotalBatches uploader + successful_adds rs
       | Panicked _ => True
       | OutOfFuel => False
       end.
Proof.
  revert uploader s. induction cs as [|c cs IH]; intros uploader s Hok.
  - exists (Returned (uploader, [])), (world s), [].
    cbn [run_calls]. unfold ret. rewrite app_nil_r. destruct s; cbn.
    split; [reflexivity|]. split; [constructor|]. split; [exact Hok|].
    unfold successful_adds, llen. simpl. lia.
  - cbn [run_calls]. unfold bind at 1.
    destruct (run_call_spec c uploader s Hok)
      as (o & w1 & evs1 & Heq & Hlim1 & Hres).
    rewrite Heq.
    destruct o as [[u1 err]| |]; [|eexists _, w1, evs1; auto..].
    destruct Hres as [Hok1 Hcount1]. cbn [fst snd]. unfold bind.
    destruct (IH u1 (mkEnv w1 (trace s ++ evs1)) Hok1)
      as (o2 & w2 & evs2 & Heq2 & Hlim2 & Hres2).
    rewrite Heq2. cbn [trace]. rewrite <- app_assoc.
    destruct o2 as [[u2 rs]| |].
    + eexists _, w2, (evs1 ++ evs2). unfold ret. cbn [fst snd].
      split; [reflexivity|]. split; [auto using sends_within_limits_app|].
      destruct Hres2 as [Hok2 Hcount2]. split; [exact Hok2|].
      rewrite successful_adds_cons. lia.
    + eexists _, w2, (evs1 ++ evs2).
      split; [reflexivity|]. split; [auto using sends_within_limits_app|exact I].
    + destruct Hres2.
Qed.

Lemma Flush_counter uploader s u' err s' :
  Flush uploader s = (Returned (u', err), s') ->
  TotalBatches u' = TotalBatches uploader.
Proof.
  intros Hrun.
  destruct (Flush_spec uploader s) as (u1 & err1 & w' & evs & Heq & _ & _ & Hres).
  rewrite Hrun in Heq. injection Heq as -> _ _.
  destruct Hres as [[-> _]|[-> _]]; reflexivity.
Qed.

Lemma AddToBatch_counter id body uploader s u' err s' :
  AddToBatch id body uploader s = (Returned (u', err), s') ->
  TotalBatches u' =
    TotalBatches uploader + (if err is None then 1 else 0).
Proof.
  unfold AddToBatch, bind, emit. intros Hrun.
  destruct (len body >? _messageSizeLimit).
  { unfold ret in Hrun. injection Hrun as <- <- _. lia. }
  match type of Hrun with
  | context [if ?c then Flush uploader else _] => destruct c
  end.
  - destruct (Flush uploader _) as [[[u1 err1]| |] s1] eqn:HF; try discriminate.
    apply Flush_counter in HF.
    destruct err1 as [e|].
    + unfold ret in Hrun. injection Hrun as <- <- _. lia.
    + destruct (messageIDToListIndex u1); unfold ret, panic in Hrun;
        [|discriminate].
      injection Hrun as <- <- _. cbn [TotalBatches]. lia.
  - unfold ret at 1 in Hrun. cbn [fst snd] in Hrun.
    destruct (messageIDToListIndex uploader); unfold ret, panic in Hrun;
      [|discriminate].
    injection Hrun as <- <- _. reflexivity.
Qed.

Lemma run_calls_counter cs uploader s u' rs s' :
  run_calls cs uploader s = (Returned (u', rs), s') ->
  TotalBatches u' = TotalBatches uploader + successful_adds rs.
Proof.
  revert uploader s u' rs s'.
  induction cs as [|c cs IH]; intros uploader s u' rs s' Hrun.
  - cbn in Hrun. unfold ret in Hrun. injection Hrun as <- <- _.
    unfold successful_adds, llen. simpl. lia.
  - cbn [run_calls] in Hrun. unfold bind at 1 in Hrun.
    destruct (run_call c uploader s) as [[[u1 err]| |] s1] eqn:Hcall;
      try discriminate.
    cbn [fst snd] in Hrun. unfold bind in Hrun.
    destruct (run_calls cs u1 s1) as [[[u2 rs2]| |] s2] eqn:Hrest;
      try discriminate.
    unfold ret in Hrun. cbn [fst snd] in Hrun. injection Hrun as <- <- _.
    apply IH in Hrest. rewrite successful_adds_cons, Hrest.
    destruct c as [id body|]; cbn [run_call] in Hcall.
    + apply AddToBatch_counter in Hcall. rewrite Hcall.
      cbn [is_successful_add]. destruct err; lia.
    + apply Flush_counter in Hcall. rewrite Hcall.
      cbn [is_successful_add]. lia.
Qed.

(** C1, as amended. The counter counts the messages queued, not the sends:
    over any sequence of [AddToBatch] and [Flush] calls that runs to its end,
    on any uploader, [TotalBatches] grows by one for each [AddToBatch] that
    returns nil and by nothing else; [Flush] and the sends it makes leave it
    alone. *)
Theorem TotalBatches_counts_queued_messages cs uploader s u' rs s' :
  run_calls cs uploader s = (Returned (u', rs), s') ->
  TotalBatches u' = TotalBatches uploader + successful_adds rs
  /\ forall u1 err s1,
       Flush u' s' = (Returned (u1, err), s1) ->
       TotalBatches u1 = TotalBatches u'.
Proof.
  intros Hrun. split; [exact (run_calls_counter _ _ _ _ _ _ Hrun)|].
  intros u1 err s1. apply Flush_counter.
Qed.

Lemma Flush_first_send uploader s :
  messageList uploader <> [] ->
  0 < configured_retries uploader ->
  exists o out err w' evs,
    Flush uploader s =
      (o, mkEnv w' (trace s ++ EvSendMessageBatch (QueueURL uploader)
                                 (messageList uploader) out err :: evs)).
Proof.
  intros Hne Hpos. rewrite Flush_pending by assumption.
  destruct (Z.to_nat (configured_retries uploader)) as [|k] eqn:Hk; [lia|].
  cbn [Flush_attempts]. unfold bind. rewrite enqueueToSQS_unfold. cbv zeta.
  destruct (SQS_SendMessageBatch (QueueURL uploader) (messageList uploader)
              (world s)) as [[out err] w1].
  cbn [fst snd].
  destruct err as [e|].
  - destruct (Failed out) as [|f fl]; cbn iota;
      match goal with
      | |- context [Flush_attempts k ?r uploader (Some ?x) ?st] =>
          destruct (Flush_attempts_spec k r uploader (Some x) st)
            as (u1 & err1 & w' & evs & Heq & _)
      end;
      rewrite Heq; cbn [trace]; rewrite <- app_assoc;
      eexists _, out, (Some e), w', evs; reflexivity.
  - eexists _, out, None, w1, []. reflexivity.
Qed.

(** C4. From a pending set that respects the limits, whatever [AddToBatch]
    and [Flush] calls follow, every batch sent holds at most the ceiling in
    payload bytes and at most ten messages. The flush before an add is
    triggered by a total strictly above the ceiling (or by ten pending
    messages) only: when the new total is at most the ceiling and fewer than
    ten messages are pending, [AddToBatch] calls no collaborator and, the map
    being there, queues the message; the pending set, which may then weigh
    exactly the ceiling, is what the next [Flush] sends as one batch. *)
Theorem sends_stay_within_limits cs uploader s :
  pending_ok uploader ->
  (exists evs,
      trace (snd (run_calls cs uploader s)) = trace s ++ evs
      /\ sends_within_limits evs)
  /\ forall id body s1,
       len body + totalBytes uploader <= _messageSizeLimit ->
       llen (messageList uploader) < _maxMessagesPerBatch ->
       snd (AddToBatch id body uploader s1)
         = mkEnv (world s1) (trace s1 ++ [EvAddToBatch id body])
       /\ forall m,
            messageIDToListIndex uploader = Some m ->
            fst (AddToBatch id body uploader s1)
              = Returned (queued id body m uploader, None)
            /\ pending_ok (queued id body m uploader)
            /\ body_bytes (messageList (queued id body m uploader))
                 = len body + totalBytes uploader
            /\ (0 < configured_retries uploader ->
                exists o out err w' evs,
                  Flush (queued id body m uploader) s1 =
                    (o, mkEnv w' (trace s1 ++
                           EvSendMessageBatch (QueueURL uploader)
                             (messageList uploader ++ [mkEntry id body id id])
                             out err
                           :: evs))).
Proof.
  intros Hok. split.
  { destruct (run_calls_spec cs uploader s (or_intror Hok))
      as (o & w' & evs & Heq & Hlim & _).
    exists evs. rewrite Heq. split; [reflexivity | exact Hlim]. }
  intros id body s1 Hsum Hcount.
  pose proof (len_nonneg body) as Hlen.
  assert (Hnn : 0 <= totalBytes uploader).
  { destruct Hok as [Hbytes _]. rewrite Hbytes. clear. unfold body_bytes.
    induction (messageList uploader) as [|e l IH]; simpl; [lia|].
    pose proof (len_nonneg (MessageBody e)). lia. }
  assert (Hrun : AddToBatch id body uploader s1 =
            (match messageIDToListIndex uploader with
             | Some m => Returned (queued id body m uploader, None)
             | None => Panicked "assignment to entry in nil map"
             end,
             mkEnv (world s1) (trace s1 ++ [EvAddToBatch id body]))).
  { unfold AddToBatch, bind, emit, ret, panic. cbn [MessageBody].
    destruct (Z.gtb_spec (len body) _messageSizeLimit); [lia|].
    destruct (Z.gtb_spec (len body + totalBytes uploader) _messageSizeLimit);
      [lia|].
    destruct (Z.eqb_spec (Z.of_nat (length (messageList uploader)))
                _maxMessagesPerBatch) as [Heq|_].
    { unfold llen in Hcount. lia. }
    cbn [orb]. destruct (messageIDToListIndex uploader); reflexivity. }
  split; [rewrite Hrun; reflexivity|].
  intros m Hmap. rewrite Hrun, Hmap. split; [reflexivity|].
  assert (Hq : pending_ok (queued id body m uploader)
               /\ body_bytes (messageList (queued id body m uploader))
                  = len body + totalBytes uploader).
  { destruct Hok as [Hbytes [Hlim Hcnt]].
    unfold pending_ok, within_limits, queued. cbn [messageList totalBytes].
    rewrite body_bytes_app, llen_app.
    unfold body_bytes at 2 4 5. unfold llen at 2. simpl.
    fold (body_bytes (messageList uploader)).
    unfold _maxMessagesPerBatch in *. lia. }
  split; [exact (proj1 Hq)|]. split; [exact (proj2 Hq)|].
  intros Hpos.
  assert (Hne : messageList (queued id body m uploader) <> []).
  { unfold queued. cbn [messageList]. destruct (messageList uploader); discriminate. }
  exact (Flush_first_send (queued id body m uploader) s1 Hne Hpos).
Qed.


(** ** The decoder *)

Lemma scan_value_bounds sc buf data n0 n :
  json.scan_value sc buf data n0 = json.ReadValue n ->
  (n0 <= n <= n0 + length data)%nat.
Proof.
  revert sc n0. induction data as [|c rest IH]; intros sc n0 Hscan.
  - cbn in Hscan. destruct (json.is_scanEnd _); [|destruct (json.nonSpace buf)];
      inversion Hscan; subst; simpl; lia.
  - cbn [json.scan_value] in Hscan.
    destruct (json.scan_step sc c) as [sc' op].
    destruct op;
      try (apply IH in Hscan; simpl; lia);
      try (inversion Hscan; subst; simpl; lia).
    all: destruct (json.do_stateEndValue sc' " ") as [sc'' op'];
      destruct (json.is_scanEnd op');
      [inversion Hscan; subst; simpl; lia | apply IH in Hscan; simpl; lia].
Qed.

Lemma do_stateBeginValue_not_end sc c :
  snd (json.do_stateBeginValue sc c) <> json.scanEnd
  /\ (snd (json.do_stateBeginValue sc c) = json.scanSkipSpace ->
      fst (json.do_stateBeginValue sc c) = sc).
Proof.
  unfold json.do_stateBeginValue, json.pushParseState, json.scan_error.
  repeat match goal with
         | |- context [if ?b then _ else _] => destruct b
         end; cbn; split; congruence.
Qed.

(** A value takes at least one byte. *)
Lemma scan_value_progress sc buf data n0 n :
  json.step sc = json.stateBeginValue ->
  json.scan_value sc buf data n0 = json.ReadValue n ->
  (n0 < n)%nat.
Proof.
  revert n0. induction data as [|c rest IH]; intros n0 Hstep Hscan.
  - cbn in Hscan. unfold json.scan_step in Hscan. rewrite Hstep in Hscan.
    cbn in Hscan. destruct (json.nonSpace buf); discriminate.
  - cbn [json.scan_value] in Hscan. unfold json.scan_step in Hscan.
    rewrite Hstep in Hscan.
    destruct (do_stateBeginValue_not_end sc c) as [Hne Hsame].
    destruct (json.do_stateBeginValue sc c) as [sc' op]. cbn in Hne, Hsame.
    destruct op; try congruence;
      try (apply scan_value_bounds in Hscan; lia).
    all: destruct (json.do_stateEndValue sc' " ") as [sc'' op'];
      destruct (json.is_scanEnd op');
      [inversion Hscan; subst; lia | apply scan_value_bounds in Hscan; lia].
Qed.

Lemma scan_value_run sc buf data n :
  json.scan_value sc buf data n =
  match json.scan_run sc data n with
  | json.RunDone m => json.ReadValue m
  | json.RunError e => json.ReadError e
  | json.RunMore sc' =>
      if json.is_scanEnd (snd (json.scan_step sc' " "))
      then json.ReadValue (n + length data)
      else if json.nonSpace buf then json.ReadUnexpectedEOF else json.ReadEOF
  end.
Proof.
  revert sc n. induction data as [|c rest IH]; intros sc n.
  - cbn. rewrite Nat.add_0_r. reflexivity.
  - cbn [json.scan_value json.scan_run length].
    replace (n + S (length rest))%nat with (S n + length rest)%nat by lia.
    destruct (json.scan_step sc c) as [sc' op].
    destruct op; try apply IH; try reflexivity.
    all: destruct (json.do_stateEndValue sc' " ") as [sc'' op'];
      destruct (json.is_scanEnd op'); [reflexivity | apply IH].
Qed.

Lemma scan_run_app sc p q n :
  json.scan_run sc (p ++ q) n =
  match json.scan_run sc p n with
  | json.RunMore sc' => json.scan_run sc' q (n + length p)
  | r => r
  end.
Proof.
  revert sc n. induction p as [|c rest IH]; intros sc n.
  - cbn. rewrite Nat.add_0_r. reflexivity.
  - cbn [app json.scan_run length].
    replace (n + S (length rest))%nat with (S n + length rest)%nat by lia.
    destruct (json.scan_step sc c) as [sc' op].
    destruct op; try apply IH; try reflexivity.
    all: destruct (json.do_stateEndValue sc' " ") as [sc'' op'];
      destruct (json.is_scanEnd op'); [reflexivity | apply IH].
Qed.

Lemma scan_run_done sc data n m :
  json.scan_run sc data n = json.RunDone m -> (n <= m <= n + length data)%nat.
Proof.
  intros Hrun. apply (scan_value_bounds sc [] data n m).
  rewrite scan_value_run, Hrun. reflexivity.
Qed.

Ltac unfold_scanner H :=
  unfold json.scan_step in H;
  unfold json.do_stateBeginValueOrEmpty, json.do_stateBeginStringOrEmpty,
    json.do_stateBeginString, json.do_stateBeginValue, json.do_stateInString,
    json.do_stateInStringEsc, json.do_hex, json.do_stateNeg, json.do_state1,
    json.do_state0, json.do_stateDot, json.do_stateDot0, json.do_stateE,
    json.do_stateESign, json.do_stateE0, json.do_letter, json.do_stateEndValue,
    json.do_stateEndTop, json.pushParseState, json.popParseState,
    json.scan_error, json.set_step, json.replace_top in H;
  cbn [json.step json.parseState json.err json.endTop fst snd tail] in H;
  repeat match type of H with
         | context [if ?b then _ else _] =>
             match type of b with bool => destruct b end
         end.

Lemma settled_step sc c :
  json.settled sc = true -> snd (json.scan_step sc c) = json.scanEnd.
Proof.
  destruct sc as [st ps e t]. unfold json.settled. cbn [json.step json.parseState].
  intros Hs. destruct ps; [|discriminate]. destruct st; try discriminate.
  unfold json.scan_step, json.do_stateEndValue, json.do_stateEndTop. cbn.
  destruct (json.isSpace c); reflexivity.
Qed.

Lemma not_in_number_eof sc :
  json.not_in_number sc = true ->
  json.is_scanEnd (snd (json.scan_step sc " ")) = true ->
  json.settled sc = true.
Proof.
  destruct sc as [st ps e t]. unfold json.not_in_number, json.settled.
  cbn [json.step json.parseState].
  destruct ps as [|p ps]; destruct st; cbn; try discriminate; try reflexivity;
    destruct p; cbn; discriminate.
Qed.

Lemma not_in_number_step sc c sc1 op :
  json.not_in_number sc = true ->
  json.scan_step sc c = (sc1, op) ->
  match op with
  | json.scanEnd | json.scanError => True
  | json.scanEndObject | json.scanEndArray =>
      json.is_scanEnd (snd (json.do_stateEndValue sc1 " ")) = true
      \/ json.not_in_number (fst (json.do_stateEndValue sc1 " ")) = true
  | _ => json.not_in_number sc1 = true
  end.
Proof.
  destruct sc as [st ps e t]. unfold json.not_in_number at 1.
  cbn [json.step json.parseState].
  destruct ps as [|p0 [|p1 ps]]; destruct st; cbn [json.string_or_literal];
    try discriminate; intros _ Hstep; try destruct p0;
    unfold_scanner Hstep; injection Hstep as <- <-; cbn; auto.
Qed.

Lemma scan_run_not_in_number sc data n sc' :
  json.not_in_number sc = true ->
  json.scan_run sc data n = json.RunMore sc' ->
  json.not_in_number sc' = true.
Proof.
  revert sc n. induction data as [|c rest IH]; intros sc n Hnn Hrun.
  - cbn in Hrun. injection Hrun as <-. exact Hnn.
  - cbn [json.scan_run] in Hrun.
    destruct (json.scan_step sc c) as [sc1 op] eqn:Hsc.
    pose proof (not_in_number_step sc c sc1 op Hnn Hsc) as Hstep.
    destruct op; try discriminate; try (eapply IH; eassumption).
    all: destruct (json.do_stateEndValue sc1 " ") as [sc2 op2];
      cbn [fst snd] in Hstep;
      destruct (json.is_scanEnd op2); [discriminate|];
      destruct Hstep as [Habs|Hnn2]; [discriminate|];
      eapply IH; eassumption.
Qed.

Lemma space_skipped sc c :
  json.step sc = json.stateBeginValue ->
  json.isSpace c = true ->
  json.scan_step sc c = (sc, json.scanSkipSpace).
Proof.
  intros Hst Hsp. unfold json.scan_step. rewrite Hst.
  unfold json.do_stateBeginValue. rewrite Hsp. reflexivity.
Qed.

Lemma number_start_digit19 c :
  json.isDigit19 c = true -> json.number_start c = true.
Proof.
  unfold json.isDigit19, json.number_start, json.isDigit.
  rewrite !andb_true_iff, !N.leb_le. intros [H1 H2].
  apply orb_true_iff. left. apply andb_true_iff.
  rewrite !N.leb_le. cbn in *. lia.
Qed.

(** The first byte of a value that is not a number takes the scanner out of
    reach of the number states. *)
Lemma first_byte sc c :
  json.step sc = json.stateBeginValue ->
  json.parseState sc = [] ->
  json.isSpace c = false ->
  json.number_start c = false ->
  match snd (json.scan_step sc c) with
  | json.scanEnd | json.scanEndObject | json.scanEndArray => False
  | json.scanError => True
  | _ => json.not_in_number (fst (json.scan_step sc c)) = true
  end.
Proof.
  destruct sc as [st ps e t]. cbn [json.step json.parseState].
  intros -> -> Hsp Hnum.
  unfold json.scan_step. cbn [json.step]. unfold json.do_stateBeginValue.
  rewrite Hsp.
  assert (Hminus : json.isByte c "-" = false).
  { unfold json.number_start in Hnum. apply orb_false_iff in Hnum. tauto. }
  assert (Hzero : json.isByte c "0" = false).
  { destruct (json.isByte c "0") eqn:H0; [|reflexivity].
    apply Ascii.eqb_eq in H0. subst c. discriminate. }
  assert (H19 : json.isDigit19 c = false).
  { destruct (json.isDigit19 c) eqn:H1; [|reflexivity].
    apply number_start_digit19 in H1. congruence. }
  rewrite Hminus, Hzero, H19.
  unfold json.pushParseState, json.scan_error, json.set_step.
  cbn [json.step json.parseState json.err json.endTop].
  repeat match goal with
         | |- context [if ?b then _ else _] => destruct b
         end; cbn; auto.
Qed.

Lemma nonSpace_cons c rest :
  json.nonSpace (c :: rest) = negb (json.isSpace c) || json.nonSpace rest.
Proof. reflexivity. Qed.

Lemma scan_run_begin sc data n sc' :
  json.step sc = json.stateBeginValue ->
  json.parseState sc = [] ->
  json.scan_run sc data n = json.RunMore sc' ->
  json.starts_number data = false ->
  json.nonSpace data = true ->
  json.not_in_number sc' = true.
Proof.
  intros Hst Hps. revert n. induction data as [|c rest IH]; intros n Hrun Hnum Hns;
    [discriminate|].
  cbn [json.scan_run] in Hrun.
  destruct (json.isSpace c) eqn:Hsp.
  - rewrite (space_skipped sc c Hst Hsp) in Hrun.
    apply (IH (S n) Hrun).
    + unfold json.starts_number in *. cbn [json.skipSpace] in Hnum.
      rewrite Hsp in Hnum. exact Hnum.
    + rewrite nonSpace_cons, Hsp in Hns. exact Hns.
  - assert (Hc : json.number_start c = false).
    { unfold json.starts_number in Hnum. cbn [json.skipSpace] in Hnum.
      rewrite Hsp in Hnum. exact Hnum. }
    pose proof (first_byte sc c Hst Hps Hsp Hc) as Hfirst.
    destruct (json.scan_step sc c) as [sc1 op]. cbn [fst snd] in Hfirst.
    destruct op; try contradiction; try discriminate;
      eapply scan_run_not_in_number; eassumption.
Qed.

Lemma scan_run_spaces sc ws n :
  json.step sc = json.stateBeginValue ->
  json.nonSpace ws = false ->
  json.scan_run sc ws n = json.RunMore sc.
Proof.
  intros Hst. revert n. induction ws as [|c rest IH]; intros n Hws;
    [reflexivity|].
  rewrite nonSpace_cons in Hws. apply orb_false_iff in Hws.
  destruct Hws as [Hc Hrest]. apply negb_false_iff in Hc.
  cbn [json.scan_run]. rewrite (space_skipped sc c Hst Hc). apply IH, Hrest.
Qed.

(** [Decode] consumes a prefix of its input that is not empty. *)
Lemma Decode_value data doc rest :
  json.Decode data = json.DecValue doc rest ->
  (length rest < length data)%nat /\ exists consumed, data = consumed ++ rest.
Proof.
  unfold json.Decode, json.readValue. intros Hdec.
  destruct (json.scan_value json.reset data data 0) as [n| | |] eqn:Hscan;
    try discriminate.
  injection Hdec as <- <-.
  pose proof (scan_value_bounds _ _ _ _ _ Hscan) as Hb.
  pose proof (scan_value_progress json.reset _ _ _ _ eq_refl Hscan) as Hp.
  split.
  - rewrite length_drop. lia.
  - exists (take n data). symmetry. apply take_drop.
Qed.

(** *** Decoding a buffer and decoding more of the same stream *)

Lemma scan_run_shift sc data n k :
  json.scan_run sc data (n + k) =
  match json.scan_run sc data n with
  | json.RunDone m => json.RunDone (m + k)
  | r => r
  end.
Proof.
  revert sc n. induction data as [|c rest IH]; intros sc n; [reflexivity|].
  cbn [json.scan_run]. destruct (json.scan_step sc c) as [sc1 op].
  destruct op; try apply (IH _ (S n)); try reflexivity.
  all: destruct (json.do_stateEndValue sc1 " ") as [sc2 op2];
    destruct (json.is_scanEnd op2); [reflexivity | apply (IH _ (S n))].
Qed.

Lemma nonSpace_app p q :
  json.nonSpace (p ++ q) = json.nonSpace p || json.nonSpace q.
Proof. unfold json.nonSpace. apply existsb_app. Qed.

Lemma skipSpace_spaces ws q :
  json.nonSpace ws = false -> json.skipSpace (ws ++ q) = json.skipSpace q.
Proof.
  induction ws as [|c ws IH]; intros Hws; [reflexivity|].
  rewrite nonSpace_cons in Hws. apply orb_false_iff in Hws.
  destruct Hws as [Hc Hrest]. apply negb_false_iff in Hc.
  cbn [app json.skipSpace]. rewrite Hc. apply IH, Hrest.
Qed.

Lemma starts_number_app p q :
  json.nonSpace p = true ->
  json.starts_number (p ++ q) = json.starts_number p.
Proof.
  unfold json.starts_number. induction p as [|c p IH]; intros Hp; [discriminate|].
  cbn [app json.skipSpace]. destruct (json.isSpace c) eqn:Hc; [|reflexivity].
  apply IH. rewrite nonSpace_cons, Hc in Hp. exact Hp.
Qed.

(** The state a run out of bytes leaves the scanner in, when the value it
    was reading is not a number and the end of the input completes it: the
    value was read to its last byte, and any byte that follows ends it. *)
Lemma complete_at_end p sc' :
  json.scan_run json.reset p 0 = json.RunMore sc' ->
  json.is_scanEnd (snd (json.scan_step sc' " ")) = true ->
  json.starts_number p = false ->
  json.settled sc' = true.
Proof.
  intros Hrun Hend Hnum.
  destruct (json.nonSpace p) eqn:Hns.
  - apply not_in_number_eof; [|exact Hend].
    exact (scan_run_begin json.reset p 0 sc' eq_refl eq_refl Hrun Hnum Hns).
  - rewrite (scan_run_spaces json.reset p 0 eq_refl Hns) in Hrun.
    injection Hrun as <-. discriminate.
Qed.

Lemma scan_run_settled sc q n :
  json.settled sc = true -> q <> [] -> json.scan_run sc q n = json.RunDone n.
Proof.
  intros Hs Hq. destruct q as [|c q]; [congruence|].
  cbn [json.scan_run]. pose proof (settled_step sc c Hs) as Hc.
  destruct (json.scan_step sc c) as [sc1 op]. cbn in Hc. rewrite Hc. reflexivity.
Qed.

(** A value that is not a number, once decoded from a buffer, is decoded the
    same from the buffer with more bytes after it. *)
Lemma Decode_extend p q doc rest :
  json.Decode p = json.DecValue doc rest ->
  json.starts_number p = false ->
  json.Decode (p ++ q) = json.DecValue doc (rest ++ q).
Proof.
  unfold json.Decode, json.readValue. rewrite !scan_value_run, scan_run_app.
  intros Hdec Hnum.
  destruct (json.scan_run json.reset p 0) as [m|e|sc'] eqn:Hrun.
  - injection Hdec as <- <-. apply scan_run_done in Hrun.
    rewrite take_app_le, drop_app_le by lia. reflexivity.
  - discriminate.
  - destruct (json.is_scanEnd (snd (json.scan_step sc' " "))) eqn:Hend.
    2:{ destruct (json.nonSpace p); discriminate. }
    injection Hdec as <- <-.
    pose proof (complete_at_end p sc' Hrun Hend Hnum) as Hs.
    cbn [Nat.add]. rewrite take_ge, drop_ge by lia.
    destruct q as [|c q].
    + rewrite app_nil_r. cbn [json.scan_run]. rewrite Hend.
      cbn [Nat.add]. rewrite take_ge, drop_ge by lia. reflexivity.
    + rewrite (scan_run_settled sc' (c :: q) (length p) Hs) by discriminate.
      rewrite take_app_length, drop_app_length. reflexivity.
Qed.

(** A value that is not a number and that the end of the buffer cuts is
    reported as incomplete. *)
Lemma Decode_cut p q doc rest :
  json.Decode (p ++ q) = json.DecValue doc rest ->
  (length rest < length q)%nat ->
  json.starts_number p = false ->
  json.nonSpace p = true ->
  json.Decode p = json.DecUnexpectedEOF.
Proof.
  unfold json.Decode, json.readValue. rewrite !scan_value_run, scan_run_app.
  intros Hdec Hlen Hnum Hns.
  destruct (json.scan_run json.reset p 0) as [m|e|sc'] eqn:Hrun.
  - injection Hdec as _ <-. apply scan_run_done in Hrun.
    rewrite length_drop, length_app in Hlen. lia.
  - discriminate.
  - cbn [Nat.add] in *. rewrite Hns.
    destruct (json.is_scanEnd (snd (json.scan_step sc' " "))) eqn:Hend;
      [|reflexivity].
    exfalso.
    pose proof (complete_at_end p sc' Hrun Hend Hnum) as Hs.
    destruct q as [|c q]; [simpl in Hlen; lia|].
    rewrite (scan_run_settled sc' (c :: q) (length p) Hs) in Hdec by discriminate.
    injection Hdec as _ <-. rewrite drop_app_length in Hlen. lia.
Qed.

Lemma Decode_error_extend p q e :
  json.Decode p = json.DecError e -> json.Decode (p ++ q) = json.DecError e.
Proof.
  unfold json.Decode, json.readValue. rewrite !scan_value_run, scan_run_app.
  intros Hdec.
  destruct (json.scan_run json.reset p 0) as [m|e'|sc'] eqn:Hrun.
  - discriminate.
  - exact Hdec.
  - destruct (json.is_scanEnd _); [|destruct (json.nonSpace p)]; discriminate.
Qed.

Lemma Decode_EOF p : json.Decode p = json.DecEOF -> json.nonSpace p = false.
Proof.
  unfold json.Decode, json.readValue. rewrite scan_value_run.
  destruct (json.scan_run json.reset p 0); try discriminate.
  destruct (json.is_scanEnd _); [discriminate|].
  destruct (json.nonSpace p); [discriminate | reflexivity].
Qed.

(** White space before a buffer changes nothing to what is decoded. *)
Lemma Decode_spaces ws q :
  json.nonSpace ws = false ->
  json.Decode (ws ++ q) = json.Decode q.
Proof.
  intros Hws. unfold json.Decode, json.readValue.
  rewrite !scan_value_run, scan_run_app.
  rewrite (scan_run_spaces json.reset ws 0 eq_refl Hws).
  rewrite (scan_run_shift json.reset q 0 (length ws)).
  rewrite nonSpace_app, Hws. cbn [orb Nat.add].
  destruct (json.scan_run json.reset q 0) as [m|e|sc'] eqn:Hrun.
  - apply scan_run_done in Hrun.
    replace (m + length ws)%nat with (length ws + m)%nat by lia.
    rewrite take_app_add, drop_app_add, skipSpace_spaces by exact Hws.
    reflexivity.
  - reflexivity.
  - destruct (json.is_scanEnd _); [|destruct (json.nonSpace q); reflexivity].
    rewrite !take_ge, !drop_ge by lia.
    rewrite skipSpace_spaces by exact Hws. reflexivity.
Qed.

(** *** The documents of a buffer and of a longer one *)

Lemma split_documents_fuel fuel1 fuel2 data :
  (length data < fuel1)%nat -> (length data < fuel2)%nat ->
  json.split_documents fuel1 data = json.split_documents fuel2 data.
Proof.
  revert fuel2 data. induction fuel1 as [|fuel1 IH]; intros fuel2 data H1 H2;
    [lia|].
  destruct fuel2 as [|fuel2]; [lia|]. cbn [json.split_documents].
  destruct (json.Decode data) as [doc rest| | |e] eqn:Hdec; try reflexivity.
  destruct (Decode_value _ _ _ Hdec) as [Hlen _].
  rewrite (IH fuel2 rest) by lia. reflexivity.
Qed.

Lemma documents_unfold data :
  json.documents data =
  match json.Decode data with
  | json.DecValue doc rest =>
      (doc :: fst (json.documents rest), snd (json.documents rest))
  | json.DecEOF => ([], json.EndClean)
  | json.DecUnexpectedEOF => ([], json.EndIncomplete data)
  | json.DecError e => ([], json.EndError e)
  end.
Proof.
  unfold json.documents at 1. cbn [json.split_documents].
  destruct (json.Decode data) as [doc rest| | |e] eqn:Hdec; try reflexivity.
  destruct (Decode_value _ _ _ Hdec) as [Hlen _].
  unfold json.documents.
  rewrite (split_documents_fuel (length data) (S (length rest)) rest) by lia.
  destruct (json.split_documents _ rest). reflexivity.
Qed.

Lemma number_free_fuel fuel1 fuel2 data :
  (length data < fuel1)%nat -> (length data < fuel2)%nat ->
  json.number_free fuel1 data = json.number_free fuel2 data.
Proof.
  revert fuel2 data. induction fuel1 as [|fuel1 IH]; intros fuel2 data H1 H2;
    [lia|].
  destruct fuel2 as [|fuel2]; [lia|]. cbn [json.number_free].
  destruct (json.Decode data) as [doc rest| | |e] eqn:Hdec; try reflexivity.
  destruct (Decode_value _ _ _ Hdec) as [Hlen _].
  rewrite (IH fuel2 rest) by lia. reflexivity.
Qed.

Lemma no_top_level_number_unfold data :
  json.no_top_level_number data <->
  json.starts_number data = false
  /\ match json.Decode data with
     | json.DecValue _ rest => json.no_top_level_number rest
     | _ => True
     end.
Proof.
  unfold json.no_top_level_number at 1. cbn [json.number_free].
  rewrite andb_true_iff, negb_true_iff.
  destruct (json.Decode data) as [doc rest| | |e] eqn:Hdec; try tauto.
  destruct (Decode_value _ _ _ Hdec) as [Hlen _].
  unfold json.no_top_level_number.
  rewrite (number_free_fuel (length data) (S (length rest)) rest) by lia.
  tauto.
Qed.

Lemma Decode_value_nonSpace data doc rest :
  json.Decode data = json.DecValue doc rest -> json.nonSpace data = true.
Proof.
  intros Hdec. destruct (json.nonSpace data) eqn:Hns; [reflexivity|].
  pose proof (Decode_spaces data [] Hns) as Hsp. rewrite app_nil_r in Hsp.
  rewrite Hsp in Hdec. discriminate.
Qed.

(** The documents of a buffer [p] within a stream [p ++ r] that decodes to
    its end and holds no number at the top level: they are the first
    documents of the stream, and the rest of the stream is decoded from what
    the loop leaves of [p] (nothing, or an incomplete document), followed by
    [r]. An incomplete document is only left when [r] has more bytes. *)
Lemma documents_of_prefix fuel p r docs :
  (length p < fuel)%nat ->
  json.documents (p ++ r) = (docs, json.EndClean) ->
  json.no_top_level_number (p ++ r) ->
  match json.documents p with
  | (docs1, json.EndClean) =>
      exists docs2,
        docs = docs1 ++ docs2
        /\ json.documents r = (docs2, json.EndClean)
        /\ json.no_top_level_number r
  | (docs1, json.EndIncomplete t) =>
      exists docs2,
        docs = docs1 ++ docs2
        /\ json.documents (t ++ r) = (docs2, json.EndClean)
        /\ json.no_top_level_number (t ++ r)
        /\ r <> []
  | (_, json.EndError _) => False
  end.
Proof.
  revert p docs. induction fuel as [|fuel IH]; intros p docs Hfuel Hdocs Hfree;
    [lia|].
  rewrite (documents_unfold p).
  apply no_top_level_number_unfold in Hfree. destruct Hfree as [Hstart Hfree].
  rewrite documents_unfold in Hdocs.
  destruct (json.Decode p) as [doc rest| | |e] eqn:Hdec.
  - pose proof (Decode_value_nonSpace _ _ _ Hdec) as Hns.
    rewrite (starts_number_app p r Hns) in Hstart.
    pose proof (Decode_extend p r doc rest Hdec Hstart) as Hext.
    rewrite Hext in Hdocs, Hfree.
    destruct (Decode_value _ _ _ Hdec) as [Hlen _].
    destruct (json.documents (rest ++ r)) as [docs' e'] eqn:Hrest.
    cbn [fst snd] in Hdocs. injection Hdocs as <- ->.
    specialize (IH rest docs' ltac:(lia) Hrest Hfree).
    destruct (json.documents rest) as [docs1 [|t|e1]]; cbn [fst snd].
    + destruct IH as (docs2 & -> & H2 & H3). exists docs2. auto.
    + destruct IH as (docs2 & -> & H2 & H3 & H4). exists docs2. auto.
    + exact IH.
  - pose proof (Decode_EOF p Hdec) as Hns.
    rewrite (Decode_spaces p r Hns) in Hdocs, Hfree.
    exists docs. split; [reflexivity|]. split.
    + rewrite documents_unfold.
      destruct (json.Decode r); try discriminate; exact Hdocs.
    + apply no_top_level_number_unfold. split; [|exact Hfree].
      unfold json.starts_number in *. rewrite skipSpace_spaces in Hstart by exact Hns.
      exact Hstart.
  - exists docs. split; [reflexivity|]. split; [|split].
    + rewrite documents_unfold. exact Hdocs.
    + apply no_top_level_number_unfold. auto.
    + intros ->. rewrite app_nil_r in Hdocs. rewrite Hdec in Hdocs. discriminate.
  - rewrite (Decode_error_extend p r e Hdec) in Hdocs. discriminate.
Qed.

(** ** Orderly computations *)

Local Abbreviation ord m := (@orderly W _ m) (only parsing).

Lemma orderly_ret {A} (a : A) : ord (ret a).
Proof.
  intros s. split; [discriminate|]. exists []. rewrite app_nil_r.
  split; [reflexivity | constructor].
Qed.

Lemma orderly_panic {A} r : ord (@panic W A r).
Proof.
  intros s. split; [discriminate|]. exists []. rewrite app_nil_r.
  split; [reflexivity | constructor].
Qed.

Lemma orderly_bind {A B} (m : M A) (k : A -> M B) :
  orderly m -> (forall a, ord (k a)) -> ord (bind m k).
Proof.
  intros Hm Hk s. unfold bind.
  destruct (Hm s) as (Hfuel & evs & Htr & Hall).
  destruct (m s) as [[a| |] s1]; cbn [fst snd] in *.
  - destruct (Hk a s1) as (Hfuel2 & evs2 & Htr2 & Hall2).
    split; [exact Hfuel2|]. exists (evs ++ evs2).
    rewrite Htr2, Htr, app_assoc. split; [reflexivity|].
    apply Forall_app. auto.
  - split; [discriminate|]. exists evs. auto.
  - congruence.
Qed.

Lemma orderly_event {A} (f : @env W -> A * W) (ev : A -> list event) :
  (forall s, Forall (fun e => is_sentinel_send e = false) (ev (fst (f s)))) ->
  ord (fun s => (Returned (fst (f s)),
                     mkEnv (snd (f s)) (trace s ++ ev (fst (f s))))).
Proof.
  intros Hev s. split; [discriminate|]. exists (ev (fst (f s))).
  split; [reflexivity | apply Hev].
Qed.

Lemma orderly_emit e : is_sentinel_send e = false -> ord (emit e).
Proof.
  intros He s. split; [discriminate|]. exists [e].
  split; [reflexivity | constructor; [exact He | constructor]].
Qed.

Lemma orderly_SendMessageBatch url entries :
  ord (SendMessageBatch url entries).
Proof.
  intros s. unfold SendMessageBatch.
  destruct (SQS_SendMessageBatch url entries (world s)) as [[out err] w'].
  split; [discriminate|]. eexists [_].
  split; [reflexivity | constructor; [reflexivity | constructor]].
Qed.

Lemma orderly_randomString n : ord (randomString n).
Proof.
  intros s. unfold randomString. destruct (random_String n (world s)).
  split; [discriminate|]. exists []. rewrite app_nil_r.
  split; [reflexivity | constructor].
Qed.

Lemma orderly_writeToJobLogGroup k l : ord (writeToJobLogGroup k l).
Proof.
  intros s. split; [discriminate|]. eexists [_].
  split; [reflexivity | constructor; [reflexivity | constructor]].
Qed.

Create HintDb orderly.
Hint Resolve orderly_ret orderly_panic orderly_SendMessageBatch
  orderly_randomString orderly_writeToJobLogGroup : orderly.

Ltac orderly_step :=
  match goal with
  | |- orderly (bind _ _) => apply orderly_bind; [|intros ?]
  | |- orderly (match ?x with _ => _ end) => destruct x
  | |- orderly _ => solve [auto with orderly]
  end.

Ltac orderly_tac := repeat orderly_step.

Lemma orderly_enqueueToSQS uploader : ord (enqueueToSQS uploader).
Proof. unfold enqueueToSQS. orderly_tac. Qed.

Hint Resolve orderly_enqueueToSQS : orderly.

Lemma orderly_Flush_attempts k retries uploader e0 :
  ord (Flush_attempts k retries uploader e0).
Proof.
  revert e0. induction k as [|k IH]; intros e0; cbn [Flush_attempts];
    orderly_tac.
Qed.

Hint Resolve orderly_Flush_attempts : orderly.

Lemma orderly_Flush uploader : ord (Flush uploader).
Proof. unfold Flush. orderly_tac. Qed.

Hint Resolve orderly_Flush : orderly.

Lemma orderly_AddToBatch id body uploader : ord (AddToBatch id body uploader).
Proof.
  unfold AddToBatch. apply orderly_bind; [apply orderly_emit; reflexivity|].
  intros _. orderly_tac.
Qed.

Hint Resolve orderly_AddToBatch : orderly.

Lemma orderly_logProgress jobSpec uploader : ord (logProgress jobSpec uploader).
Proof. unfold logProgress. orderly_tac. Qed.

Hint Resolve orderly_logProgress : orderly.

Lemma orderly_enqueueItems_loop k i jobSpec itemList uploader :
  ord (enqueueItems_loop k i jobSpec itemList uploader).
Proof.
  revert i uploader. induction k as [|k IH]; intros i uploader;
    cbn [enqueueItems_loop]; unfold randomID; orderly_tac.
Qed.

Hint Resolve orderly_enqueueItems_loop : orderly.

Lemma orderly_enqueueItems jobSpec itemList :
  ord (enqueueItems jobSpec itemList).
Proof. unfold enqueueItems. orderly_tac. Qed.

Lemma orderly_s3IteratorFromLister {S} objects listing
    (fn : s3Object -> S -> M (S * bool * option error)) st :
  (forall o st', ord (fn o st')) ->
  ord (s3IteratorFromLister objects listing fn st).
Proof.
  intros Hfn. revert st. induction objects as [|o rest IH]; intros st;
    cbn [s3IteratorFromLister]; [orderly_tac|].
  apply orderly_bind; [apply Hfn|]. intros [[st' continue] err]. orderly_tac.
Qed.

Lemma orderly_S3FileIterator {S} chunks
    (fn : chunk -> bool -> S -> M (S * bool * option error)) st :
  (forall c b st', ord (fn c b st')) ->
  ord (S3FileIterator chunks fn st).
Proof.
  intros Hfn. revert st. induction chunks as [|c rest IH]; intros st;
    cbn [S3FileIterator]; [orderly_tac|].
  apply orderly_bind; [apply Hfn|]. intros [[st' continue] err]. orderly_tac.
Qed.

Lemma orderly_addS3PathsToQueue uploader s3PathList :
  ord (addS3PathsToQueue uploader s3PathList).
Proof. unfold addS3PathsToQueue, randomID. orderly_tac. Qed.

Hint Resolve orderly_addS3PathsToQueue : orderly.

Lemma orderly_enqueueS3Paths jobSpec lister :
  ord (enqueueS3Paths jobSpec lister).
Proof.
  unfold enqueueS3Paths.
  apply orderly_bind.
  - apply orderly_s3IteratorFromLister. intros o [s3PathList uploader].
    orderly_tac.
  - intros [[s3PathList uploader] err]. orderly_tac.
Qed.

Lemma orderly_addJSONObjectsToQueue uploader jsonMessageList :
  ord (addJSONObjectsToQueue uploader jsonMessageList).
Proof. unfold addJSONObjectsToQueue, randomID. orderly_tac. Qed.

Hint Resolve orderly_addJSONObjectsToQueue : orderly.

(** The loop of [streamJSONToQueue] ends within its bound. *)
Lemma orderly_streamJSON_loop fuel jobSpec dec uploader jsonMessageList itemIndex :
  (length dec < fuel)%nat ->
  ord (streamJSON_loop fuel jobSpec dec uploader jsonMessageList itemIndex).
Proof.
  revert dec uploader jsonMessageList itemIndex.
  induction fuel as [|fuel IH]; intros dec uploader jsonMessageList itemIndex Hfuel;
    [lia|].
  cbn [streamJSON_loop].
  destruct (json.Decode dec) as [doc rest| | |e] eqn:Hdec; [|orderly_tac..].
  destruct (Decode_value _ _ _ Hdec) as [Hlen _].
  assert (Hrest : (length rest < fuel)%nat) by lia.
  destruct (llen doc >? _messageSizeLimit); [orderly_tac|].
  destruct (_ =? _); [|apply IH; exact Hrest].
  apply orderly_bind; [auto with orderly|]. intros [u' err].
  destruct err; [orderly_tac|].
  apply orderly_bind; [auto with orderly|]. intros _. apply IH. exact Hrest.
Qed.

Lemma orderly_streamJSONToQueue jobSpec sp : ord (streamJSONToQueue jobSpec sp).
Proof. unfold streamJSONToQueue. apply orderly_streamJSON_loop. lia. Qed.

Hint Resolve orderly_streamJSONToQueue : orderly.

Lemma orderly_readChunk jobSpec c isLastChunk sp :
  ord (readChunk jobSpec c isLastChunk sp).
Proof. unfold readChunk. orderly_tac. Qed.

Lemma orderly_readFile jobSpec s3Obj sp : ord (readFile jobSpec s3Obj sp).
Proof.
  unfold readFile. apply orderly_bind; [auto with orderly|]. intros _.
  apply orderly_bind.
  - apply orderly_S3FileIterator. intros. apply orderly_readChunk.
  - intros [sp' err]. orderly_tac.
Qed.

Lemma orderly_enqueueS3FileContents jobSpec files :
  ord (enqueueS3FileContents jobSpec files).
Proof.
  unfold enqueueS3FileContents.
  apply orderly_bind; [unfold newJSONBuffer; orderly_tac|]. intros jml.
  apply orderly_bind.
  - apply orderly_s3IteratorFromLister. intros. apply orderly_readFile.
  - intros [sp err]. orderly_tac.
Qed.

Lemma orderly_orchestrate jobSpec submission :
  ord (orchestrate jobSpec submission).
Proof.
  unfold orchestrate.
  destruct (SubmittedItemList submission); [apply orderly_enqueueItems|].
  destruct (SubmittedFilePathLister submission); [apply orderly_enqueueS3Paths|].
  destruct (SubmittedDelimitedFiles submission);
    [apply orderly_enqueueS3FileContents | apply orderly_ret].
Qed.

(** ** The item-list orchestrator *)

Lemma batchCount_spec itemList :
  0 < ItemListBatchSize itemList ->
  batchCount itemList
    = (llen (Items itemList) + ItemListBatchSize itemList - 1)
        / ItemListBatchSize itemList
  /\ 0 <= batchCount itemList
  /\ llen (Items itemList) <= batchCount itemList * ItemListBatchSize itemList
  /\ forall j, 0 <= j < batchCount itemList ->
               j * ItemListBatchSize itemList < llen (Items itemList).
Proof.
  intros Hpos. unfold batchCount.
  set (B := ItemListBatchSize itemList) in *.
  set (N := llen (Items itemList)).
  assert (HN : 0 <= N) by (unfold N, llen; lia).
  rewrite Z.quot_div_nonneg, Z.rem_mod_nonneg by lia.
  pose proof (Z.div_mod N B ltac:(lia)) as Hdm.
  pose proof (Z.mod_pos_bound N B Hpos) as Hmod.
  assert (Hq : 0 <= N / B) by (apply Z.div_pos; lia).
  destruct (Z.eqb_spec (N mod B) 0) as [Hz|Hnz].
  - assert (Hc : (N + B - 1) / B = N / B).
    { symmetry. apply (Z.div_unique _ _ _ (B - 1)); lia. }
    rewrite Hc. repeat split; try lia. intros j Hj. nia.
  - assert (Hc : (N + B - 1) / B = N / B + 1).
    { symmetry. apply (Z.div_unique _ _ _ (N mod B - 1)); lia. }
    rewrite Hc. repeat split; try lia. intros j Hj. nia.
Qed.

Lemma item_slice_take itemList i :
  0 < ItemListBatchSize itemList ->
  0 <= i ->
  i * ItemListBatchSize itemList < llen (Items itemList) ->
  item_slice itemList i =
    Some (take (Z.to_nat (ItemListBatchSize itemList))
               (drop (Z.to_nat i * Z.to_nat (ItemListBatchSize itemList))
                     (Items itemList))).
Proof.
  intros Hpos Hi Hlt. unfold item_slice, slice_bounds, slice.
  set (B := ItemListBatchSize itemList) in *.
  set (l := Items itemList) in *.
  assert (Hdrop : Z.to_nat (i * B) = (Z.to_nat i * Z.to_nat B)%nat)
    by (apply Z2Nat.inj_mul; lia).
  destruct (Z.gtb_spec ((i + 1) * B) (llen l)) as [Hover|Hin].
  - replace ((0 <=? i * B) && (i * B <=? llen l) && (llen l <=? llen l))
      with true by (symmetry; rewrite !andb_true_iff, !Z.leb_le; lia).
    rewrite Hdrop. f_equal.
    rewrite !take_ge; [reflexivity | |];
      rewrite length_drop; unfold llen in *; nia.
  - replace ((0 <=? i * B) && (i * B <=? (i + 1) * B) && ((i + 1) * B <=? llen l))
      with true by (symmetry; rewrite !andb_true_iff, !Z.leb_le; lia).
    rewrite Hdrop. do 3 f_equal. lia.
Qed.

Lemma slices_from_lookup itemList i k j :
  (j < k)%nat ->
  slices_from itemList i k !! j
    = Some (default [] (item_slice itemList (i + Z.of_nat j))).
Proof.
  revert i j. induction k as [|k IH]; intros i j Hj; [lia|].
  destruct j as [|j]; cbn [slices_from].
  - simpl. rewrite Z.add_0_r. reflexivity.
  - simpl lookup. rewrite IH by lia. do 3 f_equal. lia.
Qed.

Lemma slices_from_length itemList i k : length (slices_from itemList i k) = k.
Proof. revert i. induction k as [|k IH]; intros i; simpl; [|rewrite IH]; reflexivity. Qed.

Lemma slices_from_concat itemList (i k : nat) :
  0 < ItemListBatchSize itemList ->
  Z.of_nat (i + k) <= batchCount itemList ->
  concat (slices_from itemList (Z.of_nat i) k)
    = take (k * Z.to_nat (ItemListBatchSize itemList))
           (drop (i * Z.to_nat (ItemListBatchSize itemList)) (Items itemList)).
Proof.
  intros Hpos. revert i. induction k as [|k IH]; intros i Hle; [reflexivity|].
  destruct (batchCount_spec itemList Hpos) as (_ & _ & _ & Hlt).
  cbn [slices_from concat].
  rewrite item_slice_take by (try apply Hlt; lia).
  replace (Z.of_nat i + 1) with (Z.of_nat (S i)) by lia.
  rewrite IH by lia. cbn [default from_option id]. rewrite Nat2Z.id.
  replace (S i * Z.to_nat (ItemListBatchSize itemList))%nat
    with (i * Z.to_nat (ItemListBatchSize itemList)
          + Z.to_nat (ItemListBatchSize itemList))%nat by lia.
  rewrite <- drop_drop, take_take_drop. f_equal; lia.
Qed.

Lemma add_bodies_app tr1 tr2 :
  add_bodies (tr1 ++ tr2) = add_bodies tr1 ++ add_bodies tr2.
Proof.
  induction tr1 as [|e tr1 IH]; [reflexivity|].
  destruct e; simpl; rewrite IH; reflexivity.
Qed.

Lemma add_bodies_sends uploader evs :
  Forall (send_of uploader) evs -> add_bodies evs = [].
Proof.
  induction 1 as [|e evs (out & err & ->) _ IH]; [reflexivity | exact IH].
Qed.

(** One call of [AddToBatch] on any uploader leaves one record of a call in
    the trace, followed by sends only, and ends within the bound. *)
Lemma AddToBatch_trace id body uploader s :
  exists o w' evs,
    AddToBatch id body uploader s =
      (o, mkEnv w' (trace s ++ EvAddToBatch id body :: evs))
    /\ Forall (send_of uploader) evs
    /\ o <> OutOfFuel.
Proof.
  unfold AddToBatch, bind, emit.
  destruct (len body >? _messageSizeLimit).
  { eexists _, (world s), []. unfold ret. cbn [world trace].
    split; [reflexivity|]. split; [constructor | discriminate]. }
  match goal with |- context [if ?c then Flush uploader else _] => destruct c end.
  - destruct (Flush_spec uploader
                (mkEnv (world s) (trace s ++ [EvAddToBatch id body])))
      as (u1 & err & w' & evs & Heq & Hall & _).
    rewrite Heq. cbn [trace]. rewrite <- app_assoc. cbn [app].
    destruct err as [e|]; [|destruct (messageIDToListIndex u1)];
      (eexists _, w', evs; split; [reflexivity|]; split;
       [exact Hall | discriminate]).
  - unfold ret at 1. cbn [trace world].
    destruct (messageIDToListIndex uploader);
      (eexists _, (world s), []; split; [reflexivity|]; split;
       [constructor | discriminate]).
Qed.

Lemma logProgress_unfold jobSpec uploader s :
  exists w' evs,
    logProgress jobSpec uploader s = (Returned tt, mkEnv w' (trace s ++ evs))
    /\ Forall (fun e => exists k l, e = EvLog k l) evs.
Proof.
  unfold logProgress. destruct (Z.rem (TotalBatches uploader) 10 =? 0).
  - eexists _, [_]. unfold writeToJobLogGroup. split; [reflexivity|].
    constructor; [eauto | constructor].
  - exists (world s), []. unfold ret. rewrite app_nil_r. destruct s.
    split; [reflexivity | constructor].
Qed.

Lemma add_bodies_logs evs :
  Forall (fun e => exists k l, e = EvLog k l) evs -> add_bodies evs = [].
Proof.
  induction 1 as [|e evs (k & l & ->) _ IH]; [reflexivity | exact IH].
Qed.

Lemma enqueueItems_loop_adds k i jobSpec itemList uploader s o s' :
  enqueueItems_loop k i jobSpec itemList uploader s = (o, s') ->
  exists n bodies,
    add_bodies (trace s') = add_bodies (trace s) ++ bodies
    /\ (n <= k)%nat
    /\ Forall2 marshals (take n (slices_from itemList i k)) bodies
    /\ ((exists u', o = Returned (u', None)) -> n = k)
    /\ o <> OutOfFuel.
Proof.
  revert i uploader s o s'. induction k as [|k IH]; intros i uploader s o s' Hrun.
  - cbn in Hrun. unfold ret in Hrun. injection Hrun as <- <-.
    exists O, []. rewrite app_nil_r.
    repeat split; [lia | constructor | discriminate].
  - cbn [enqueueItems_loop] in Hrun. cbn [slices_from].
    unfold item_slice.
    destruct (slice_bounds itemList i) as [min max].
    destruct (slice (Items itemList) min max) as [items|].
    2:{ unfold panic in Hrun. injection Hrun as <- <-.
        exists O, []. rewrite app_nil_r.
        repeat split; [lia | constructor | | discriminate].
        intros [u' Hu]; discriminate. }
    cbn [default from_option id].
    destruct (json_Marshal_raw items) as [jsonBytes|e] eqn:Hm.
    2:{ unfold ret in Hrun. injection Hrun as <- <-.
        exists O, []. rewrite app_nil_r.
        repeat split; [lia | constructor | | discriminate].
        intros [u' Hu]; discriminate. }
    unfold bind at 1 in Hrun. unfold randomID, randomString in Hrun.
    destruct (random_String 40 (world s)) as [id w1].
    unfold bind at 1 in Hrun.
    destruct (AddToBatch_trace id jsonBytes uploader (mkEnv w1 (trace s)))
      as (o1 & w2 & evs & Heq & Hall & Hfuel).
    rewrite Heq in Hrun. cbn [trace] in Hrun.
    assert (Hadds : add_bodies (trace s ++ EvAddToBatch id jsonBytes :: evs)
                    = add_bodies (trace s) ++ [jsonBytes]).
    { rewrite add_bodies_app. cbn [add_bodies].
      rewrite (add_bodies_sends _ _ Hall). reflexivity. }
    destruct o1 as [[u1 [e|]]| |]; [| |injection Hrun as <- <-|congruence].
    + assert (Hret : exists e', (o, s') =
                (Returned (u1, Some e'),
                 mkEnv w2 (trace s ++ EvAddToBatch id jsonBytes :: evs))).
      { destruct (ItemListBatchSize itemList >? 1); unfold ret in Hrun;
          injection Hrun as <- <-; eauto. }
      destruct Hret as [e' Hret]. injection Hret as -> ->.
      exists 1%nat, [jsonBytes]. cbn [trace take].
      repeat split; [exact Hadds | lia | | | discriminate].
      * rewrite take_0. constructor; [exact Hm | constructor].
      * intros [u' Hu]; discriminate.
    + unfold bind at 1 in Hrun.
      destruct (logProgress_unfold jobSpec u1
                  (mkEnv w2 (trace s ++ EvAddToBatch id jsonBytes :: evs)))
        as (w3 & logs & Hlog & Hlogs).
      rewrite Hlog in Hrun. cbn [trace] in Hrun.
      destruct (IH _ _ _ _ _ Hrun) as (n & bodies & Hb & Hn & Hf & Hdone & Hfuel').
      exists (S n), (jsonBytes :: bodies). cbn [trace] in Hb.
      rewrite Hb, add_bodies_app, (add_bodies_logs _ Hlogs), app_nil_r, Hadds.
      rewrite <- app_assoc. cbn [take].
      repeat split; [lia | constructor; [exact Hm | exact Hf] | | exact Hfuel'].
      intros Hu. rewrite (Hdone Hu). reflexivity.
    + exists 1%nat, [jsonBytes]. cbn [trace take].
      repeat split; [exact Hadds | lia | | | discriminate].
      * rewrite take_0. constructor; [exact Hm | constructor].
      * intros [u' Hu]; discriminate.
Qed.

Lemma enqueueItems_adds jobSpec itemList s :
  0 < ItemListBatchSize itemList ->
  exists n bodies,
    add_bodies (trace (snd (enqueueItems jobSpec itemList s)))
      = add_bodies (trace s) ++ bodies
    /\ (n <= Z.to_nat (batchCount itemList))%nat
    /\ Forall2 marshals
         (take n (slices_from itemList 0 (Z.to_nat (batchCount itemList)))) bodies
    /\ ((exists total, fst (enqueueItems jobSpec itemList s)
                         = Returned (total, None)) ->
        n = Z.to_nat (batchCount itemList)).
Proof.
  intros Hpos. unfold enqueueItems.
  destruct (Z.eqb_spec (ItemListBatchSize itemList) 0) as [Hz|_]; [lia|].
  unfold bind, writeToJobLogGroup.
  match goal with
  | |- context [enqueueItems_loop ?k 0 jobSpec itemList ?u ?st] =>
      destruct (enqueueItems_loop k 0 jobSpec itemList u st) as [o s2] eqn:Hloop
  end.
  destruct (enqueueItems_loop_adds _ _ _ _ _ _ _ _ Hloop)
    as (n & bodies & Hb & Hn & Hf & Hdone & _).
  cbn [trace] in Hb. rewrite add_bodies_app in Hb. cbn [add_bodies] in Hb.
  rewrite app_nil_r in Hb.
  exists n, bodies.
  destruct o as [[u [e|]]|r|]; cbn [fst snd].
  - unfold ret. cbn [fst snd].
    repeat split; [exact Hb | exact Hn | exact Hf |].
    intros [total Habs]. discriminate.
  - destruct (Flush_spec u s2) as (u' & err & w' & evs & Heq & Hall & _).
    rewrite Heq.
    assert (Hb' : add_bodies (trace s2 ++ evs) = add_bodies (trace s) ++ bodies).
    { rewrite add_bodies_app, (add_bodies_sends _ _ Hall), app_nil_r. exact Hb. }
    destruct err; unfold ret; cbn [fst snd trace];
      (repeat split; [exact Hb' | exact Hn | exact Hf |]).
    + intros [total Habs]. discriminate.
    + intros _. apply Hdone. eauto.
  - repeat split; [exact Hb | exact Hn | exact Hf |].
    intros [total Habs]. discriminate.
  - repeat split; [exact Hb | exact Hn | exact Hf |].
    intros [total Habs]. discriminate.
Qed.

(** The partition of [enqueueItems]. For a list of N items and a batch
    size B of at least one, [enqueueItems] works on ceil(N/B) slices; the
    [i]-th is the run of at most B items that starts at item [i*B], it is
    not empty, and the slices put end to end are the item list. The loop
    hands the slices to [AddToBatch] one call per slice, in order, each
    marshalled as a JSON array: the bodies handed over are those of the
    first slices, and of all of them when the loop ends without an error;
    the same holds of [enqueueItems] as a whole. *)
Theorem enqueueItems_partitions_items jobSpec itemList :
  0 < ItemListBatchSize itemList ->
  batchCount itemList
    = (llen (Items itemList) + ItemListBatchSize itemList - 1)
        / ItemListBatchSize itemList
  /\ llen (item_slices itemList) = batchCount itemList
  /\ concat (item_slices itemList) = Items itemList
  /\ (forall (i : nat) (items : list (list ascii)),
        item_slices itemList !! i = Some items ->
        item_slice itemList (Z.of_nat i) = Some items
        /\ items = take (Z.to_nat (ItemListBatchSize itemList))
                        (drop (i * Z.to_nat (ItemListBatchSize itemList))
                              (Items itemList))
        /\ items <> [])
  /\ (forall uploader s o s',
       enqueueItems_loop (Z.to_nat (batchCount itemList)) 0 jobSpec itemList
                         uploader s = (o, s') ->
       exists n bodies,
         add_bodies (trace s') = add_bodies (trace s) ++ bodies
         /\ (n <= length (item_slices itemList))%nat
         /\ Forall2 marshals (take n (item_slices itemList)) bodies
         /\ ((exists u', o = Returned (u', None)) ->
             n = length (item_slices itemList)))
  /\ forall s,
       exists n bodies,
         add_bodies (trace (snd (enqueueItems jobSpec itemList s)))
           = add_bodies (trace s) ++ bodies
         /\ (n <= length (item_slices itemList))%nat
         /\ Forall2 marshals (take n (item_slices itemList)) bodies
         /\ ((exists total, fst (enqueueItems jobSpec itemList s)
                              = Returned (total, None)) ->
             n = length (item_slices itemList)).
Proof.
  intros Hpos.
  destruct (batchCount_spec itemList Hpos) as (Hceil & Hnn & Hcover & Hlt).
  split; [exact Hceil|]. unfold item_slices.
  split; [unfold llen; rewrite slices_from_length; lia|].
  split; [|split; [|split]].
  - rewrite (slices_from_concat itemList 0 _ Hpos) by (simpl; lia).
    rewrite Nat.mul_0_l, drop_0. apply take_ge. unfold llen in Hcover. nia.
  - intros i items Hi.
    assert (Hik : (i < Z.to_nat (batchCount itemList))%nat).
    { apply lookup_lt_Some in Hi. rewrite slices_from_length in Hi. exact Hi. }
    rewrite slices_from_lookup in Hi by exact Hik.
    rewrite Z.add_0_l in Hi.
    assert (Hlti : Z.of_nat i * ItemListBatchSize itemList < llen (Items itemList))
      by (apply Hlt; lia).
    rewrite item_slice_take in Hi |- * by lia.
    rewrite Nat2Z.id in Hi |- *. cbn [default from_option id] in Hi.
    injection Hi as <-.
    split; [reflexivity|]. split; [reflexivity|].
    intros Hnil. apply (f_equal length) in Hnil.
    rewrite length_take, length_drop in Hnil. simpl in Hnil.
    unfold llen in Hlti. nia.
  - intros uploader s o s' Hrun.
    destruct (enqueueItems_loop_adds _ _ _ _ _ _ _ _ Hrun)
      as (n & bodies & Hb & Hn & Hf & Hdone & _).
    exists n, bodies. rewrite slices_from_length. auto.
  - intros s. rewrite slices_from_length.
    destruct (enqueueItems_adds jobSpec itemList s Hpos)
      as (n & bodies & Hb & Hn & Hf & Hdone).
    exists n, bodies. auto.
Qed.

(** C8 (what the code does). For a list of N items, N at least one, and a
    batch size B of at least one, [enqueueItems] counts ceil(N/B) slices,
    more than one when N is above B, but it never gets past the first: it
    does not return a count of batches, and it makes at most one call of
    [AddToBatch], none when [json.Marshal] fails on the first slice and
    otherwise one, with that slice marshalled. When the marshalled slice is
    within the ceiling, that call panics at the assignment into the nil map
    of the uploader [enqueueItems] builds, and [enqueueItems] with it: the
    slices after the first are never handed over. *)
Theorem enqueueItems_stops_at_the_first_slice jobSpec itemList s :
  0 < ItemListBatchSize itemList ->
  Items itemList <> [] ->
  let first := take (Z.to_nat (ItemListBatchSize itemList)) (Items itemList) in
  let run := enqueueItems jobSpec itemList s in
  llen (item_slices itemList)
    = (llen (Items itemList) + ItemListBatchSize itemList - 1)
        / ItemListBatchSize itemList
  /\ (ItemListBatchSize itemList < llen (Items itemList) ->
      1 < llen (item_slices itemList))
  /\ (forall total, fst run <> Returned (total, None))
  /\ match json_Marshal_raw first with
     | inr _ => add_bodies (trace (snd run)) = add_bodies (trace s)
     | inl body =>
         add_bodies (trace (snd run)) = add_bodies (trace s) ++ [body]
         /\ (len body <= _messageSizeLimit ->
             fst run = Panicked "assignment to entry in nil map")
     end.
Proof.
  intros Hpos Hne first run.
  assert (Hlen : 0 < llen (Items itemList)).
  { unfold llen. destruct (Items itemList); [congruence | cbn; lia]. }
  destruct (batchCount_spec itemList Hpos) as (Hceil & Hnn & Hcover & _).
  assert (Hcount : llen (item_slices itemList) = batchCount itemList).
  { unfold llen, item_slices. rewrite slices_from_length. lia. }
  split; [rewrite Hcount; exact Hceil|].
  split; [intros Hmore; rewrite Hcount; nia|].
  assert (Hk : exists k, Z.to_nat (batchCount itemList) = S k).
  { exists (Z.to_nat (batchCount itemList) - 1)%nat. nia. }
  destruct Hk as [k Hk].
  pose proof (item_slice_take itemList 0 Hpos (Z.le_refl 0)) as Hslice.
  rewrite Z.mul_0_l in Hslice. specialize (Hslice Hlen).
  change (drop (Z.to_nat 0 * Z.to_nat (ItemListBatchSize itemList))
               (Items itemList)) with (Items itemList) in Hslice.
  fold first in Hslice. unfold item_slice in Hslice.
  destruct (slice_bounds itemList 0) as [lo hi] eqn:Hb.
  subst run. remember (enqueueItems jobSpec itemList s) as r eqn:Hr.
  unfold enqueueItems in Hr.
  destruct (Z.eqb_spec (ItemListBatchSize itemList) 0) as [|_]; [lia|].
  unfold bind at 1 in Hr. unfold writeToJobLogGroup at 1 in Hr.
  rewrite Hk in Hr. unfold bind at 1 in Hr. cbn [enqueueItems_loop] in Hr.
  rewrite Hb, Hslice in Hr.
  destruct (json_Marshal_raw first) as [body|e].
  - unfold bind, randomID, randomString in Hr. cbn [world trace] in Hr.
    destruct (random_String 40 _) as [id w1]. cbn [fst snd] in Hr.
    unfold AddToBatch, bind, emit, ret, newUploader in Hr.
    cbn [world trace messageList totalBytes MessageBody] in Hr.
    destruct (Z.gtb_spec (len body) _messageSizeLimit) as [Hbig|Hfit].
    + assert (Hout : exists e,
                 r = (Returned (0, Some e),
                      mkEnv w1 ((trace s ++ [EvLog (JobKey jobSpec)
                                   (LogPartitioning (llen (Items itemList))
                                      (batchCount itemList)
                                      (ItemListBatchSize itemList))])
                                ++ [EvAddToBatch id body]))).
      { destruct (ItemListBatchSize itemList >? 1); eexists; exact Hr. }
      destruct Hout as [e ->]. cbn [fst snd trace].
      rewrite !add_bodies_app. cbn [add_bodies]. rewrite app_nil_r.
      split; [intros total; discriminate|].
      split; [reflexivity | intros; lia].
    + rewrite Z.add_0_r in Hr.
      destruct (Z.gtb_spec (len body) _messageSizeLimit); [lia|].
      change (Z.of_nat (length (@nil Entry)) =? _maxMessagesPerBatch)
        with false in Hr.
      cbn in Hr. subst r. cbn [fst snd trace].
      rewrite !add_bodies_app. cbn [add_bodies]. rewrite app_nil_r.
      split; [intros total; discriminate|].
      split; reflexivity.
  - unfold ret in Hr. cbn [errors_Wrap] in Hr. subst r. cbn [fst snd trace].
    rewrite add_bodies_app. cbn [add_bodies]. rewrite app_nil_r.
    split; [intros total; discriminate | reflexivity].
Qed.

Lemma scan_step_err sc c :
  syntax_or_none (json.err sc) ->
  syntax_or_none (json.err (fst (json.scan_step sc c))).
Proof.
  intros Hsc. unfold json.scan_step.
  destruct (json.step sc);
    unfold json.do_stateBeginValueOrEmpty, json.do_stateBeginStringOrEmpty,
      json.do_stateBeginString, json.do_stateBeginValue, json.do_stateInString,
      json.do_stateInStringEsc, json.do_hex, json.do_stateNeg, json.do_state1,
      json.do_state0, json.do_stateDot, json.do_stateDot0, json.do_stateE,
      json.do_stateESign, json.do_stateE0, json.do_letter, json.do_stateEndValue,
      json.do_stateEndTop, json.pushParseState, json.popParseState,
      json.scan_error, json.set_step, json.replace_top;
    repeat match goal with
           | |- context [if ?b then _ else _] => destruct b
           | |- context [match ?x with _ => _ end] => destruct x
           end; cbn; auto.
Qed.

Lemma do_stateEndValue_err sc c :
  syntax_or_none (json.err sc) ->
  syntax_or_none (json.err (fst (json.do_stateEndValue sc c))).
Proof.
  intros Hsc.
  unfold json.do_stateEndValue, json.do_stateEndTop, json.popParseState,
    json.scan_error, json.set_step, json.replace_top.
  repeat match goal with
         | |- context [if ?b then _ else _] => destruct b
         | |- context [match ?x with _ => _ end] => destruct x
         end; cbn; auto.
Qed.

(** The errors of the decoder other than [io.ErrUnexpectedEOF] are syntax
    errors. *)
Lemma scan_value_error sc buf data n e :
  syntax_or_none (json.err sc) ->
  json.scan_value sc buf data n = json.ReadError e ->
  exists c context, e = SyntaxError c context.
Proof.
  revert sc n. induction data as [|c rest IH]; intros sc n Hsc Hscan.
  - cbn in Hscan. destruct (json.is_scanEnd _); [|destruct (json.nonSpace buf)];
      discriminate.
  - cbn [json.scan_value] in Hscan.
    pose proof (scan_step_err sc c Hsc) as Hsc'.
    destruct (json.scan_step sc c) as [sc' op]. cbn [fst] in Hsc'.
    destruct op; try discriminate; try (eapply IH; eassumption).
    + pose proof (do_stateEndValue_err sc' " " Hsc') as Hsc''.
      destruct (json.do_stateEndValue sc' " ") as [sc'' op'].
      destruct (json.is_scanEnd op'); [discriminate | eapply IH; eassumption].
    + pose proof (do_stateEndValue_err sc' " " Hsc') as Hsc''.
      destruct (json.do_stateEndValue sc' " ") as [sc'' op'].
      destruct (json.is_scanEnd op'); [discriminate | eapply IH; eassumption].
    + injection Hscan as <-.
      destruct (json.err sc') as [[]|]; cbn in Hsc' |- *; try contradiction; eauto.
Qed.

Lemma Decode_error data e :
  json.Decode data = json.DecError e -> isErrUnexpectedEOF e = false.
Proof.
  unfold json.Decode, json.readValue. intros Hdec.
  destruct (json.scan_value json.reset data data 0) as [n| | |e'] eqn:Hscan;
    try discriminate.
  injection Hdec as ->.
  destruct (scan_value_error json.reset _ _ _ _ I Hscan) as (c & ctx & ->).
  reflexivity.
Qed.

Lemma Flush_attempts_error k retries uploader e0 s u' e s' :
  Flush_attempts k retries uploader e0 s = (Returned (u', Some e), s') ->
  isErrUnexpectedEOF e = false.
Proof.
  revert e0 s. induction k as [|k IH]; intros e0 s Hrun.
  - cbn in Hrun. unfold ret in Hrun. destruct e0; cbn in Hrun; [|discriminate].
    injection Hrun as _ <- _. reflexivity.
  - cbn [Flush_attempts] in Hrun. unfold bind in Hrun.
    rewrite enqueueToSQS_unfold in Hrun. cbv zeta in Hrun.
    destruct (SQS_SendMessageBatch _ _ _) as [[out err] w1]. cbn [fst snd] in Hrun.
    destruct err as [e1|]; [|unfold ret in Hrun; discriminate].
    destruct (Failed out); eapply IH; exact Hrun.
Qed.

Lemma AddToBatch_error id body uploader s u' e s' :
  AddToBatch id body uploader s = (Returned (u', Some e), s') ->
  isErrUnexpectedEOF e = false.
Proof.
  unfold AddToBatch, bind, emit. intros Hrun.
  destruct (len body >? _messageSizeLimit).
  { unfold ret in Hrun. injection Hrun as _ <- _. reflexivity. }
  match type of Hrun with
  | context [if ?c then Flush uploader else _] => destruct c
  end.
  - destruct (Flush uploader _) as [[[u1 [e1|]]| |] s1] eqn:HF;
      try discriminate.
    + unfold ret in Hrun. injection Hrun as _ <- _.
      unfold Flush in HF. destruct (messageList uploader);
        [unfold ret in HF; discriminate|].
      eapply Flush_attempts_error. exact HF.
    + destruct (messageIDToListIndex u1); unfold ret, panic in Hrun; discriminate.
  - unfold ret at 1 in Hrun. cbn [fst snd] in Hrun.
    destruct (messageIDToListIndex uploader); unfold ret, panic in Hrun;
      discriminate.
Qed.

(** ** The splitter *)

Lemma streamJSON_loop_incomplete fuel jobSpec dec uploader jml idx s sp' s' :
  streamJSON_loop fuel jobSpec dec uploader jml idx s
    = (Returned (sp', Some ErrUnexpectedEOF), s') ->
  (exists consumed, dec = consumed ++ bytesBuffer sp')
  /\ json.Decode (bytesBuffer sp') = json.DecUnexpectedEOF.
Proof.
  revert dec uploader jml idx s.
  induction fuel as [|fuel IH]; intros dec uploader jml idx s Hrun;
    [discriminate|].
  cbn [streamJSON_loop] in Hrun.
  destruct (json.Decode dec) as [doc rest| | |e] eqn:Hdec.
  - destruct (Decode_value _ _ _ Hdec) as [_ [consumed ->]].
    assert (Hnext : forall u j i st,
               streamJSON_loop fuel jobSpec rest u j i st
                 = (Returned (sp', Some ErrUnexpectedEOF), s') ->
               (exists consumed0, consumed ++ rest = consumed0 ++ bytesBuffer sp')
               /\ json.Decode (bytesBuffer sp') = json.DecUnexpectedEOF).
    { intros u j i st Hst. destruct (IH _ _ _ _ _ Hst) as [[c2 ->] Hd].
      split; [exists (consumed ++ c2); apply app_assoc | exact Hd]. }
    destruct (llen doc >? _messageSizeLimit); [discriminate|].
    destruct (_ =? _); [|eapply Hnext; exact Hrun].
    unfold bind at 1 in Hrun.
    destruct (addJSONObjectsToQueue uploader _ s) as [[[u1 [e1|]]| |] s1] eqn:Hadd;
      try discriminate.
    + unfold ret in Hrun. injection Hrun as _ -> _. exfalso.
      unfold addJSONObjectsToQueue in Hadd.
      destruct (json_Marshal_raw _) as [jsonBytes|e2] eqn:Hm.
      * unfold bind, randomID, randomString in Hadd.
        destruct (random_String 40 (world s)) as [id w1].
        apply AddToBatch_error in Hadd. discriminate.
      * unfold ret in Hadd. injection Hadd as _ Habs _. discriminate.
    + unfold bind at 1 in Hrun.
      destruct (logProgress_unfold jobSpec u1 s1) as (w3 & logs & Hlog & _).
      rewrite Hlog in Hrun. eapply Hnext; exact Hrun.
  - discriminate.
  - unfold ret in Hrun. injection Hrun as <- _. cbn [bytesBuffer].
    split; [exists []; reflexivity | exact Hdec].
  - unfold ret in Hrun. injection Hrun as _ -> _.
    apply Decode_error in Hdec. discriminate.
Qed.

(** The loop of [streamJSONToQueue] handles the documents of its buffer in
    order and ends as the decoding of the buffer ends. *)
Lemma streamJSON_loop_feed fuel jobSpec dec uploader jml idx s :
  (length dec < fuel)%nat ->
  exists buf,
    streamJSON_loop fuel jobSpec dec uploader jml idx s =
      (stream_result (snd (json.documents dec)) buf
         (fst (feed jobSpec (fst (json.documents dec)) (uploader, jml, idx) s)),
       snd (feed jobSpec (fst (json.documents dec)) (uploader, jml, idx) s)).
Proof.
  revert dec uploader jml idx s.
  induction fuel as [|fuel IH]; intros dec uploader jml idx s Hfuel; [lia|].
  cbn [streamJSON_loop]. rewrite documents_unfold.
  destruct (json.Decode dec) as [doc rest| | |e] eqn:Hdec; cbn [fst snd feed].
  - destruct (Decode_value _ _ _ Hdec) as [Hlen _].
    unfold handle_document, bind.
    destruct (llen doc >? _messageSizeLimit).
    { exists rest. reflexivity. }
    destruct (jsonBuffer_Length (jsonBuffer_Add jml doc)
              =? BatchSize (jsonBuffer_Add jml doc)).
    + destruct (addJSONObjectsToQueue uploader (jsonBuffer_Add jml doc) s)
        as [[[u1 [e1|]]|x|] s1]; cbn [fst snd].
      * exists rest. reflexivity.
      * destruct (logProgress_unfold jobSpec u1 s1) as (w3 & logs & Hlog & _).
        rewrite Hlog. unfold ret. cbn [fst snd]. apply IH. lia.
      * exists rest. reflexivity.
      * exists rest. reflexivity.
    + unfold ret. cbn [fst snd]. apply IH. lia.
  - exists []. reflexivity.
  - exists []. reflexivity.
  - exists dec. reflexivity.
Qed.

Lemma feed_app jobSpec docs1 docs2 st s :
  feed jobSpec (docs1 ++ docs2) st s =
  match feed jobSpec docs1 st s with
  | (Returned (st1, None), s1) => feed jobSpec docs2 st1 s1
  | r => r
  end.
Proof.
  revert st s. induction docs1 as [|doc docs1 IH]; intros st s; [reflexivity|].
  cbn [app feed]. unfold bind.
  destruct (handle_document jobSpec doc st s) as [[[st1 [e|]]|x|] s1];
    cbn [fst snd]; try reflexivity.
  apply IH.
Qed.

Lemma handle_document_error jobSpec doc st s st1 e s1 :
  handle_document jobSpec doc st s = (Returned (st1, Some e), s1) ->
  isErrUnexpectedEOF e = false.
Proof.
  destruct st as [[uploader jml] idx]. unfold handle_document. intros Hrun.
  destruct (llen doc >? _messageSizeLimit).
  { unfold ret in Hrun. injection Hrun as _ <- _. reflexivity. }
  destruct (_ =? _); [|unfold ret in Hrun; discriminate].
  unfold bind at 1 in Hrun.
  destruct (addJSONObjectsToQueue uploader _ s) as [[[u1 [e1|]]|x|] s0] eqn:Hadd;
    try discriminate.
  - unfold ret in Hrun. injection Hrun as _ <- _.
    unfold addJSONObjectsToQueue in Hadd.
    destruct (json_Marshal_raw _) as [jsonBytes|d].
    + unfold bind, randomID, randomString in Hadd.
      destruct (random_String 40 (world s)) as [id w1].
      apply AddToBatch_error in Hadd. exact Hadd.
    + unfold ret in Hadd. injection Hadd as _ <- _. reflexivity.
  - unfold bind in Hrun.
    destruct (logProgress_unfold jobSpec u1 s0) as (w3 & logs & Hlog & _).
    rewrite Hlog in Hrun. unfold ret in Hrun. discriminate.
Qed.

Lemma feed_error jobSpec docs st s st1 e s1 :
  feed jobSpec docs st s = (Returned (st1, Some e), s1) ->
  isErrUnexpectedEOF e = false.
Proof.
  revert st s. induction docs as [|doc docs IH]; intros st s Hrun.
  - unfold feed, ret in Hrun. discriminate.
  - cbn [feed] in Hrun. unfold bind in Hrun.
    destruct (handle_document jobSpec doc st s) as [[[st2 [e2|]]|x|] s2] eqn:Hh;
      cbn [fst snd] in Hrun; try discriminate.
    + unfold ret in Hrun. injection Hrun as _ <- _.
      eapply handle_document_error. exact Hh.
    + eapply IH. exact Hrun.
Qed.

Lemma documents_error data docs e :
  json.documents data = (docs, json.EndError e) -> isErrUnexpectedEOF e = false.
Proof.
  unfold json.documents. generalize (S (length data)) as fuel.
  intros fuel. revert data docs. induction fuel as [|fuel IH]; intros data docs Hdocs;
    [discriminate|].
  cbn [json.split_documents] in Hdocs.
  destruct (json.Decode data) as [doc rest| | |e'] eqn:Hdec; try discriminate.
  - destruct (json.split_documents fuel rest) as [docs' e''] eqn:Hrest.
    injection Hdocs as _ ->. eapply IH. exact Hrest.
  - injection Hdocs as _ <-. eapply Decode_error. exact Hdec.
Qed.

(** One part of a file through [readChunk], told by the documents of the
    buffer with the part appended. *)
Lemma readChunk_feed jobSpec c isLastChunk sp s :
  chunk_err c = None ->
  match feed jobSpec (fst (json.documents (bytesBuffer sp ++ chunk_bytes c)))
             (splitter_state sp) s with
  | (Returned ((u1, jml1, idx1), None), s1) =>
      match snd (json.documents (bytesBuffer sp ++ chunk_bytes c)) with
      | json.EndClean =>
          readChunk jobSpec c isLastChunk sp s =
            (Returned (mkSplitter u1 [] jml1 idx1, true, None), s1)
      | json.EndIncomplete t =>
          readChunk jobSpec c isLastChunk sp s =
            (Returned (mkSplitter u1 t jml1 idx1, negb isLastChunk,
                       if isLastChunk then Some ErrUnexpectedEOF else None), s1)
      | json.EndError e0 =>
          exists buf,
            readChunk jobSpec c isLastChunk sp s =
              (Returned (mkSplitter u1 buf jml1 idx1, false, Some e0), s1)
      end
  | (Returned ((u1, jml1, idx1), Some e), s1) =>
      exists buf,
        readChunk jobSpec c isLastChunk sp s =
          (Returned (mkSplitter u1 buf jml1 idx1, false, Some e), s1)
  | (Panicked x, s1) => readChunk jobSpec c isLastChunk sp s = (Panicked x, s1)
  | (OutOfFuel, s1) => readChunk jobSpec c isLastChunk sp s = (OutOfFuel, s1)
  end.
Proof.
  intros Hread. unfold readChunk. rewrite Hread. unfold bind, streamJSONToQueue.
  cbn [bytesBuffer sp_uploader jsonMessageList itemIndex].
  destruct (streamJSON_loop_feed
              (S (length (bytesBuffer sp ++ chunk_bytes c))) jobSpec
              (bytesBuffer sp ++ chunk_bytes c) (sp_uploader sp)
              (jsonMessageList sp) (itemIndex sp) s ltac:(lia)) as [buf Hloop].
  rewrite Hloop. unfold splitter_state.
  destruct (json.documents (bytesBuffer sp ++ chunk_bytes c)) as [docs1 e1] eqn:Hdocs.
  cbn [fst snd].
  destruct (feed jobSpec docs1 (sp_uploader sp, jsonMessageList sp, itemIndex sp) s)
    as [[[[[u1 jml1] idx1] [e|]]|x|] s1] eqn:Hfeed; cbn [fst snd stream_result].
  - rewrite (feed_error _ _ _ _ _ _ _ Hfeed). cbn. eauto.
  - destruct e1 as [|t|e0]; cbn.
    + reflexivity.
    + destruct isLastChunk; reflexivity.
    + rewrite (documents_error _ _ _ Hdocs). cbn. eauto.
  - reflexivity.
  - reflexivity.
Qed.

Lemma stream_of_cons c chunks :
  stream_of (c :: chunks) = chunk_bytes c ++ stream_of chunks.
Proof. reflexivity. Qed.

(** The iteration over the parts of a file, for a stream of complete
    documents none of which is a number: it handles the documents of the
    stream in order, whatever the parts. *)
Lemma S3FileIterator_feed jobSpec chunks sp s docs :
  Forall (fun c => chunk_err c = None) chunks ->
  json.documents (bytesBuffer sp ++ stream_of chunks) = (docs, json.EndClean) ->
  json.no_top_level_number (bytesBuffer sp ++ stream_of chunks) ->
  (chunks = [] -> bytesBuffer sp = []) ->
  exists buf,
    S3FileIterator chunks (readChunk jobSpec) sp s =
      (file_result buf (fst (feed jobSpec docs (splitter_state sp) s)),
       snd (feed jobSpec docs (splitter_state sp) s)).
Proof.
  intros Hreads. revert sp s docs.
  induction Hreads as [|c rest Hread Hreads IH]; intros sp s docs Hdocs Hfree Hbuf.
  - rewrite (Hbuf eq_refl) in Hdocs. cbn in Hdocs. injection Hdocs as <-.
    exists []. destruct sp as [u b jml idx]. cbn in Hbuf.
    rewrite (Hbuf eq_refl). reflexivity.
  - rewrite stream_of_cons, app_assoc in Hdocs, Hfree.
    pose proof (documents_of_prefix
                  (S (length (bytesBuffer sp ++ chunk_bytes c)))
                  (bytesBuffer sp ++ chunk_bytes c) (stream_of rest) docs
                  ltac:(lia) Hdocs Hfree) as Hprefix.
    pose proof (readChunk_feed jobSpec c
                  (match rest with [] => true | _ :: _ => false end) sp s Hread)
      as Hchunk.
    cbn [S3FileIterator]. unfold bind at 1.
    destruct (json.documents (bytesBuffer sp ++ chunk_bytes c)) as [docs1 e1].
    cbn [fst snd] in Hchunk.
    assert (Hsplit : exists docs2, docs = docs1 ++ docs2).
    { destruct e1; [destruct Hprefix as (d & -> & _) | destruct Hprefix as (d & -> & _)
                   | contradiction]; eauto. }
    destruct Hsplit as [docs2 ->]. rewrite feed_app.
    destruct (feed jobSpec docs1 (splitter_state sp) s)
      as [[[[[u1 jml1] idx1] [e|]]|x|] s1] eqn:Hfeed.
    + destruct Hchunk as [buf Hchunk]. rewrite Hchunk. exists buf. reflexivity.
    + destruct e1 as [|t|e0].
      * rewrite Hchunk. destruct Hprefix as (d & Heq & Hdocs2 & Hfree2).
        apply app_inv_head in Heq. subst d.
        apply (IH (mkSplitter u1 [] jml1 idx1) s1 docs2); auto.
      * destruct Hprefix as (d & Heq & Hdocs2 & Hfree2 & Hmore).
        apply app_inv_head in Heq. subst d.
        destruct rest as [|c2 rest]; [contradiction Hmore; reflexivity|].
        rewrite Hchunk. cbn [negb].
        apply (IH (mkSplitter u1 t jml1 idx1) s1 docs2); auto. discriminate.
      * contradiction.
    + rewrite Hchunk. exists []. reflexivity.
    + rewrite Hchunk. exists []. reflexivity.
Qed.

(** Chunk boundaries do not matter to a stream of complete documents none of
    which is a number: read as the parts [chunks1] or as the parts [chunks2],
    the documents of the stream are handled the same, in order, with the same
    calls to the uploader and the same state left, up to what an abandoned
    buffer holds after an error. *)
Theorem chunking_is_immaterial_without_numbers
    jobSpec chunks1 chunks2 sp s docs :
  Forall (fun c => chunk_err c = None) chunks1 ->
  Forall (fun c => chunk_err c = None) chunks2 ->
  stream_of chunks1 = stream_of chunks2 ->
  bytesBuffer sp = [] ->
  json.documents (stream_of chunks1) = (docs, json.EndClean) ->
  json.no_top_level_number (stream_of chunks1) ->
  exists buf1 buf2,
    S3FileIterator chunks1 (readChunk jobSpec) sp s =
      (file_result buf1 (fst (feed jobSpec docs (splitter_state sp) s)),
       snd (feed jobSpec docs (splitter_state sp) s))
    /\ S3FileIterator chunks2 (readChunk jobSpec) sp s =
         (file_result buf2 (fst (feed jobSpec docs (splitter_state sp) s)),
          snd (feed jobSpec docs (splitter_state sp) s)).
Proof.
  intros Hreads1 Hreads2 Hsame Hbuf Hdocs Hfree.
  destruct (S3FileIterator_feed jobSpec chunks1 sp s docs Hreads1) as [buf1 H1];
    [rewrite Hbuf; exact Hdocs | rewrite Hbuf; exact Hfree | auto |].
  destruct (S3FileIterator_feed jobSpec chunks2 sp s docs Hreads2) as [buf2 H2];
    [rewrite Hbuf, <- Hsame; exact Hdocs | rewrite Hbuf, <- Hsame; exact Hfree
    | auto |].
  exists buf1, buf2. auto.
Qed.

(** C6. When [streamJSONToQueue], run on the buffer with a chunk appended,
    finds the input cut in the middle of a document (it returns
    [io.ErrUnexpectedEOF]), the buffer it leaves is the end of the bytes it
    was given, from the first byte not decoded on, and that end is by itself
    an incomplete document. If more chunks follow, the chunk is taken without
    an error and the iteration goes on from the next chunk with that buffer;
    if the chunk is the last of the file, the iteration over the file ends
    with [io.ErrUnexpectedEOF]. The bytes kept are not lost to a later pass:
    the splitter run on them alone reports them incomplete again and leaves
    them where they are. *)
Theorem incomplete_document_is_kept_or_reported
    jobSpec c isLastChunk sp s sp' s' :
  chunk_err c = None ->
  streamJSONToQueue jobSpec
    (mkSplitter (sp_uploader sp) (bytesBuffer sp ++ chunk_bytes c)
                (jsonMessageList sp) (itemIndex sp)) s
    = (Returned (sp', Some ErrUnexpectedEOF), s') ->
  (exists consumed, bytesBuffer sp ++ chunk_bytes c = consumed ++ bytesBuffer sp')
  /\ json.Decode (bytesBuffer sp') = json.DecUnexpectedEOF
  /\ readChunk jobSpec c isLastChunk sp s =
       (Returned (sp', negb isLastChunk,
                  if isLastChunk then Some ErrUnexpectedEOF else None), s')
  /\ (forall c2 rest,
        S3FileIterator (c :: c2 :: rest) (readChunk jobSpec) sp s
          = S3FileIterator (c2 :: rest) (readChunk jobSpec) sp' s')
  /\ S3FileIterator [c] (readChunk jobSpec) sp s
       = (Returned (sp', Some ErrUnexpectedEOF), s')
  /\ streamJSONToQueue jobSpec sp' s'
       = (Returned (sp', Some ErrUnexpectedEOF), s').
Proof.
  intros Hread Hrun.
  assert (Hchunk : forall b,
             readChunk jobSpec c b sp s =
               (Returned (sp', negb b, if b then Some ErrUnexpectedEOF else None),
                s')).
  { intros b. unfold readChunk. rewrite Hread. unfold bind. rewrite Hrun.
    destruct b; reflexivity. }
  unfold streamJSONToQueue in Hrun. cbn [bytesBuffer sp_uploader jsonMessageList itemIndex] in Hrun.
  destruct (streamJSON_loop_incomplete _ _ _ _ _ _ _ _ _ Hrun)
    as [Hsuffix Hdec].
  split; [exact Hsuffix|]. split; [exact Hdec|]. split; [apply Hchunk|].
  split; [|split].
  - intros c2 rest. cbn [S3FileIterator]. unfold bind at 1.
    rewrite (Hchunk false). reflexivity.
  - cbn [S3FileIterator]. unfold bind. rewrite (Hchunk true). reflexivity.
  - unfold streamJSONToQueue. cbn [streamJSON_loop]. rewrite Hdec.
    destruct sp'; reflexivity.
Qed.

(** ** The sentinel message *)

Lemma sentinels_app tr1 tr2 : sentinels (tr1 ++ tr2) = sentinels tr1 ++ sentinels tr2.
Proof.
  induction tr1 as [|e tr1 IH]; [reflexivity|].
  destruct e; simpl; rewrite IH; reflexivity.
Qed.

Lemma sentinels_none evs :
  Forall (fun e => is_sentinel_send e = false) evs -> sentinels evs = [].
Proof.
  induction 1 as [|e evs He _ IH]; [reflexivity|].
  destruct e; try discriminate; exact IH.
Qed.

(** C10. Once the first liveness update has passed, [enqueue] runs the
    orchestrator the submission selects, and the orchestrator sends no
    message one by one. If it returns without an error, [enqueue] sends the
    job_complete message, once, straight to SQS with a random name drawn for
    it as both of its identities, after everything the orchestrator did, and
    then cancels the cron. If the orchestrator returns an error (or panics),
    [enqueue] returns that error with a count of zero (or panics), cancels
    the cron, and sends no job_complete message; what the orchestrator had
    sent stays sent. *)
Theorem enqueue_sends_job_complete_once jobSpec submission s s0 o s2 :
  updateLiveness (JobKey jobSpec) s = (Returned None, s0) ->
  orchestrate jobSpec submission
    (mkEnv (world s0) (trace s0 ++ [EvCronRun (JobKey jobSpec)])) = (o, s2) ->
  sentinels (trace s2) = sentinels (trace s)
  /\ (exists evs, trace s2 = trace s ++ evs)
  /\ match o with
     | Returned (n, None) =>
         exists id w3 err w4,
           k8s_RandomName (world s2) = (id, w3)
           /\ SQS_SendMessage (job_complete_message jobSpec id) w3 = (err, w4)
           /\ enqueue jobSpec submission s =
                (Returned
                   match err with
                   | None => (n, None)
                   | Some e =>
                       (0, Some (Wrapped
                                   (MsgText "failed to enqueue job_complete placeholder")
                                   e))
                   end,
                 mkEnv w4 (trace s2 ++
                             [EvSendMessage (job_complete_message jobSpec id) err;
                              EvCronCancel]))
           /\ sentinels (trace (snd (enqueue jobSpec submission s)))
                = sentinels (trace s) ++ [job_complete_message jobSpec id]
     | Returned (n, Some e) =>
         enqueue jobSpec submission s =
           (Returned (0, Some e), mkEnv (world s2) (trace s2 ++ [EvCronCancel]))
         /\ sentinels (trace (snd (enqueue jobSpec submission s)))
              = sentinels (trace s)
     | Panicked r =>
         enqueue jobSpec submission s =
           (Panicked r, mkEnv (world s2) (trace s2 ++ [EvCronCancel]))
         /\ sentinels (trace (snd (enqueue jobSpec submission s)))
              = sentinels (trace s)
     | OutOfFuel => False
     end.
Proof.
  intros Hlive Horch.
  assert (Hs0 : exists err, trace s0 = trace s ++ [EvUpdateLiveness (JobKey jobSpec) err]).
  { unfold updateLiveness in Hlive.
    destruct (S3_UploadLiveness (JobKey jobSpec) (world s)) as [err w'].
    injection Hlive as _ <-. eauto. }
  destruct Hs0 as [lerr Hs0].
  destruct (orderly_orchestrate jobSpec submission
              (mkEnv (world s0) (trace s0 ++ [EvCronRun (JobKey jobSpec)])))
    as (Hfuel & evs & Htr & Hall).
  rewrite Horch in Hfuel, Htr. cbn [fst snd trace] in Hfuel, Htr.
  assert (Hsent : sentinels (trace s2) = sentinels (trace s)).
  { rewrite Htr, Hs0, !sentinels_app, (sentinels_none _ Hall). simpl.
    rewrite !app_nil_r. reflexivity. }
  split; [exact Hsent|]. split.
  { rewrite Htr, Hs0, <- !app_assoc. eauto. }
  assert (Hrun : enqueue jobSpec submission s =
            deferring (emit EvCronCancel)
              (bind (orchestrate jobSpec submission) (fun r =>
                 let '(totalBatches, err) := r in
                 match err with
                 | Some e => ret (0, Some e)
                 | None =>
                     bind RandomName (fun randomID =>
                       bind (SendMessage (job_complete_message jobSpec randomID))
                         (fun err =>
                            match err with
                            | Some e =>
                                ret (0, errors_Wrap (Some e)
                                          (MsgText "failed to enqueue job_complete placeholder"))
                            | None => ret (totalBatches, None)
                            end))
                 end))
              (mkEnv (world s0) (trace s0 ++ [EvCronRun (JobKey jobSpec)]))).
  { unfold enqueue. unfold bind at 1. rewrite Hlive. reflexivity. }
  unfold deferring, bind in Hrun. rewrite Horch in Hrun.
  destruct o as [[n [e|]]|r|]; [| | |congruence].
  - unfold ret, emit in Hrun. cbn in Hrun. rewrite Hrun. cbn [snd trace].
    split; [reflexivity|]. rewrite sentinels_app, Hsent. simpl.
    apply app_nil_r.
  - unfold RandomName, SendMessage in Hrun.
    destruct (k8s_RandomName (world s2)) as [id w3] eqn:Hname.
    cbn [world trace] in Hrun.
    destruct (SQS_SendMessage (job_complete_message jobSpec id) w3)
      as [err w4] eqn:Hsend.
    exists id, w3, err, w4. split; [reflexivity|]. split; [exact Hsend|].
    assert (Hfin : enqueue jobSpec submission s =
              (Returned
                 match err with
                 | None => (n, None)
                 | Some e =>
                     (0, Some (Wrapped
                                 (MsgText "failed to enqueue job_complete placeholder")
                                 e))
                 end,
               mkEnv w4 (trace s2 ++
                           [EvSendMessage (job_complete_message jobSpec id) err;
                            EvCronCancel]))).
    { rewrite Hrun. destruct err; unfold ret, emit; cbn;
        rewrite <- app_assoc; reflexivity. }
    split; [exact Hfin|]. rewrite Hfin. cbn [snd trace].
    rewrite sentinels_app, Hsent. reflexivity.
  - unfold emit in Hrun. cbn in Hrun. rewrite Hrun. cbn [snd trace].
    split; [reflexivity|]. rewrite sentinels_app, Hsent. simpl.
    apply app_nil_r.
Qed.

End Properties.

(** * The code on given inputs *)

Section Examples.

Import Scripted.

(** C1, as stated, fails: two messages queued and flushed in one batch leave
    the counter at 2 after a single successful send. *)
Lemma TotalBatches_is_not_the_number_of_sends :
  exists u' rs s',
    run_calls [CallAddToBatch "a" "x"; CallAddToBatch "b" "y"; CallFlush]
              ready (start quiet) = (Returned (u', rs), s')
    /\ TotalBatches u' = 2
    /\ successful_sends (trace s') = 1
    /\ TotalBatches u' <> successful_sends (trace s').
Proof.
  eexists _, _, _. split; [vm_compute; reflexivity|].
  split; [reflexivity|]. split; [reflexivity|]. discriminate.
Qed.

Lemma TotalBatches_counts_queued_messages_witness :
  exists u' rs s',
    run_calls [CallAddToBatch "a" "x"; CallAddToBatch "b" "y"; CallFlush]
              ready (start quiet) = (Returned (u', rs), s')
    /\ successful_adds rs = 2
    /\ TotalBatches u' = TotalBatches ready + successful_adds rs.
Proof.
  assert (Hrun : exists u' rs s',
             run_calls [CallAddToBatch "a" "x"; CallAddToBatch "b" "y"; CallFlush]
                       ready (start quiet) = (Returned (u', rs), s')
             /\ successful_adds rs = 2).
  { eexists _, _, _. split; [vm_compute; reflexivity | reflexivity]. }
  destruct Hrun as (u' & rs & s' & Hrun & Hadds).
  exists u', rs, s'. split; [exact Hrun|]. split; [exact Hadds|].
  exact (proj1 (TotalBatches_counts_queued_messages _ _ _ _ _ _ Hrun)).
Defined.

(** C2 on a first call of an orchestrator. *)
Lemma AddToBatch_nil_map_panics_witness :
  fst (AddToBatch "id-a" "[1,2]" (newUploader job) (start quiet))
    = Panicked "assignment to entry in nil map".
Proof.
  rewrite (AddToBatch_nil_map_panics job "id-a" "[1,2]" (start quiet)).
  - reflexivity.
  - vm_compute. discriminate.
Defined.

(** C3 on a send that SQS answers with one rejected message. *)
Lemma enqueueToSQS_ignores_rejections_witness :
  fst (Flush (mkUploader "queue" None [entry "a" "x"] (Some {["a" := 0]}) 1 1)
             (start (mkWorld [(rejected, None)] [] [] 0)))
    = Returned (cleared (mkUploader "queue" None [entry "a" "x"]
                                    (Some {["a" := 0]}) 1 1), None).
Proof.
  refine (proj2 (enqueueToSQS_ignores_rejections
                   (mkUploader "queue" None [entry "a" "x"] (Some {["a" := 0]}) 1 1)
                   (start (mkWorld [(rejected, None)] [] [] 0))
                   rejected (mkWorld [] [] [] 0) _ _ _ _)).
  - reflexivity.
  - discriminate.
  - discriminate.
  - reflexivity.
Defined.

(** C4 on a pending set one byte short of the ceiling and a message of one
    byte: the message is queued without a flush, and the pending set, now of
    exactly the ceiling, goes out as one batch of two messages. *)
Lemma sends_stay_within_limits_witness :
  pending_ok nearly_full
  /\ len "y" + totalBytes nearly_full = _messageSizeLimit
  /\ fst (AddToBatch "b" "y" nearly_full (start quiet))
       = Returned (queued "b" "y" {["a" := 0]} nearly_full, None)
  /\ body_bytes (messageList (queued "b" "y" {["a" := 0]} nearly_full))
       = _messageSizeLimit
  /\ exists o out err w' evs,
       Flush (queued "b" "y" {["a" := 0]} nearly_full) (start quiet) =
         (o, mkEnv w' (EvSendMessageBatch "queue"
                         (messageList nearly_full ++ [entry "b" "y"]) out err
                       :: evs)).
Proof.
  assert (Hok : pending_ok nearly_full).
  { unfold pending_ok, within_limits. vm_compute.
    split; [reflexivity | split; discriminate]. }
  assert (Hsum : len "y" + totalBytes nearly_full = _messageSizeLimit)
    by reflexivity.
  assert (Hle : len "y" + totalBytes nearly_full <= _messageSizeLimit)
    by (rewrite Hsum; reflexivity).
  assert (Hcount : llen (messageList nearly_full) < _maxMessagesPerBatch)
    by (vm_compute; reflexivity).
  destruct (sends_stay_within_limits [CallAddToBatch "b" "y"; CallFlush]
              nearly_full (start quiet) Hok) as [_ Hadd].
  destruct (Hadd "b" "y" (start quiet) Hle Hcount) as [_ Hqueued].
  destruct (Hqueued {["a" := 0]} eq_refl) as (Hfst & _ & Hbytes & Hflush).
  split; [exact Hok|]. split; [exact Hsum|]. split; [exact Hfst|].
  split; [rewrite Hbytes; exact Hsum|].
  apply Hflush. reflexivity.
Defined.

(** C5 (what the code does). The stream 123 is one document. Read in one
    part it yields the document 123; read in the parts 12 and 3 it yields the
    documents 12 and 3, because the decoder takes a number that ends with the
    input as complete. The orchestrator accordingly hands a different body to
    [AddToBatch]. In the same way the document 1e5 read in the parts 1 and e5
    yields the document 1 and then a syntax error. *)
Theorem splitter_depends_on_chunking :
  buffered_after ["123"] = inl ["123"]
  /\ buffered_after ["12"; "3"] = inl ["12"; "3"]
  /\ add_bodies (trace (snd (enqueueS3FileContents job (file_of ["123"])
                                                   (start quiet))))
       = ["[123]"]
  /\ add_bodies (trace (snd (enqueueS3FileContents job (file_of ["12"; "3"])
                                                   (start quiet))))
       = ["[12,3]"]
  /\ buffered_after ["1e5"] = inl ["1e5"]
  /\ buffered_after ["1"; "e5"]
       = inr (Returned (Some (SyntaxError "e" "looking for beginning of value"))).
Proof.
  split; [|split; [|split; [|split; [|split]]]]; vm_compute; reflexivity.
Qed.

(** Where the parts are cut between documents, or inside an array, nothing
    depends on the cut. *)
Example splitter_on_arrays :
  buffered_after ["[1,2][3,4]"] = inl ["[1,2]"; "[3,4]"]
  /\ buffered_after ["[1,2]"; "[3,4]"] = inl ["[1,2]"; "[3,4]"]
  /\ buffered_after ["[1"; ",2][3,"; "4]"] = inl ["[1,2]"; "[3,4]"].
Proof. split; [|split]; vm_compute; reflexivity. Qed.

(** Three objects read in parts of five bytes, in batches of two documents,
    on an uploader whose map is there: the same as read in one part, one
    batch of two documents handed to [AddToBatch] and one document left for
    the batch that ends the run. *)
Example three_objects_in_parts_of_five :
  map (fun c => length (chunk_bytes c)) (parts_of 5 three_objects)
    = [5; 5; 5; 5; 1]%nat
  /\ S3FileIterator (parts_of 5 three_objects) (readChunk job)
       (mkSplitter ready [] (mkJSONBuffer 2 []) 0) (start quiet)
     = S3FileIterator [mkChunk three_objects None] (readChunk job)
         (mkSplitter ready [] (mkJSONBuffer 2 []) 0) (start quiet)
  /\ exists sp s',
       S3FileIterator (parts_of 5 three_objects) (readChunk job)
         (mkSplitter ready [] (mkJSONBuffer 2 []) 0) (start quiet)
         = (Returned (sp, None), s')
       /\ length (add_bodies (trace s')) = 1%nat
       /\ TotalBatches (sp_uploader sp) = 1
       /\ bufferedMessages (jsonMessageList sp) = [bytes (object "c" "3")]
       /\ bytesBuffer sp = [].
Proof.
  split; [reflexivity|]. split; [vm_compute; reflexivity|].
  eexists _, _. split; [vm_compute; reflexivity|].
  split; [reflexivity|]. split; [reflexivity|]. split; reflexivity.
Qed.

(** The same by the theorem on streams without numbers: both ways of
    reading the three objects are the handling of the three documents. *)
Example three_objects_by_documents :
  exists docs buf1 buf2,
    json.documents three_objects = (docs, json.EndClean)
    /\ length docs = 3%nat
    /\ S3FileIterator (parts_of 5 three_objects) (readChunk job)
         (mkSplitter ready [] (mkJSONBuffer 2 []) 0) (start quiet)
       = (file_result buf1
            (fst (feed job docs (ready, mkJSONBuffer 2 [], 0) (start quiet))),
          snd (feed job docs (ready, mkJSONBuffer 2 [], 0) (start quiet)))
    /\ S3FileIterator [mkChunk three_objects None] (readChunk job)
         (mkSplitter ready [] (mkJSONBuffer 2 []) 0) (start quiet)
       = (file_result buf2
            (fst (feed job docs (ready, mkJSONBuffer 2 [], 0) (start quiet))),
          snd (feed job docs (ready, mkJSONBuffer 2 [], 0) (start quiet))).
Proof.
  assert (Hdocs : exists docs,
             json.documents three_objects = (docs, json.EndClean)
             /\ length docs = 3%nat).
  { eexists. split; [vm_compute; reflexivity | reflexivity]. }
  destruct Hdocs as (docs & Hdocs & Hlen).
  destruct (chunking_is_immaterial_without_numbers job
              (parts_of 5 three_objects) [mkChunk three_objects None]
              (mkSplitter ready [] (mkJSONBuffer 2 []) 0) (start quiet) docs)
    as (buf1 & buf2 & H1 & H2).
  - repeat constructor.
  - repeat constructor.
  - vm_compute. reflexivity.
  - reflexivity.
  - replace (stream_of (parts_of 5 three_objects)) with three_objects
      by (vm_compute; reflexivity).
    exact Hdocs.
  - replace (stream_of (parts_of 5 three_objects)) with three_objects
      by (vm_compute; reflexivity).
    vm_compute. reflexivity.
  - exists docs, buf1, buf2. auto.
Defined.

(** C6 on the buffer holding one array and the beginning of another. *)
Lemma incomplete_document_is_kept_or_reported_witness :
  exists sp' s',
    bytesBuffer sp' = bytes "[3"
    /\ readChunk job (mkChunk (bytes "[1,2][3") None) false
                 (mkSplitter ready [] (mkJSONBuffer 5 []) 0) (start quiet)
         = (Returned (sp', true, None), s')
    /\ readChunk job (mkChunk (bytes "[1,2][3") None) true
                 (mkSplitter ready [] (mkJSONBuffer 5 []) 0) (start quiet)
         = (Returned (sp', false, Some ErrUnexpectedEOF), s').
Proof.
  eexists _, _.
  split; [|split].
  2: refine (proj1 (proj2 (proj2
       (incomplete_document_is_kept_or_reported job
          (mkChunk (bytes "[1,2][3") None) false
          (mkSplitter ready [] (mkJSONBuffer 5 []) 0) (start quiet) _ _
          eq_refl _)))).
  3: refine (proj1 (proj2 (proj2
       (incomplete_document_is_kept_or_reported job
          (mkChunk (bytes "[1,2][3") None) true
          (mkSplitter ready [] (mkJSONBuffer 5 []) 0) (start quiet) _ _
          eq_refl _)))).
  2, 3: vm_compute; reflexivity.
  reflexivity.
Defined.

(** C7 on three sends that fail. *)
Lemma Flush_exhausts_retries_witness :
  exists e,
    fst (Flush (mkUploader "queue" None [entry "a" "x"] (Some {["a" := 0]}) 1 1)
               (start (mkWorld [(mkOutput [] [], Some (ExternalError "timeout"));
                                (mkOutput [] [], Some (ExternalError "timeout"));
                                (mkOutput [] [], Some (ExternalError "timeout"))]
                               [] [] 0)))
      = Returned (mkUploader "queue" None [entry "a" "x"] (Some {["a" := 0]}) 1 1,
                  Some (Wrapped (MsgFailedAfterRetrying 3) e)).
Proof.
  destruct (Flush_exhausts_retries
              (mkUploader "queue" None [entry "a" "x"] (Some {["a" := 0]}) 1 1)
              (start (mkWorld [(mkOutput [] [], Some (ExternalError "timeout"));
                               (mkOutput [] [], Some (ExternalError "timeout"));
                               (mkOutput [] [], Some (ExternalError "timeout"))]
                              [] [] 0)))
    as (e & w' & evs & Heq & _).
  - discriminate.
  - reflexivity.
  - cbn. repeat split; discriminate.
  - exists e. rewrite Heq. reflexivity.
Defined.

(** The partition of twenty-five items in batches of ten: three slices, of
    ten, ten and five items. *)
Lemma enqueueItems_partitions_items_witness :
  batchCount items25 = 3
  /\ map length (item_slices items25) = [10; 10; 5]%nat
  /\ concat (item_slices items25) = Items items25.
Proof.
  destruct (enqueueItems_partitions_items job items25 (W := script))
    as (Hceil & _ & Hconcat & _).
  - reflexivity.
  - split; [rewrite Hceil; reflexivity|].
    split; [reflexivity | exact Hconcat].
Defined.

(** C8 on twenty-five items in batches of ten: three slices are counted,
    one call of [AddToBatch] is made, with the first ten items, and
    [enqueueItems] panics. *)
Lemma enqueueItems_stops_at_the_first_slice_witness :
  llen (item_slices items25) = 3
  /\ fst (enqueueItems job items25 (start quiet))
     = Panicked "assignment to entry in nil map"
  /\ add_bodies (trace (snd (enqueueItems job items25 (start quiet))))
     = ["[1,1,1,1,1,1,1,1,1,1]"].
Proof.
  destruct (enqueueItems_stops_at_the_first_slice job items25 (start quiet))
    as (Hcount & _ & _ & Hfirst).
  - reflexivity.
  - discriminate.
  - assert (Hm : json_Marshal_raw (W := script)
                   (take (Z.to_nat (ItemListBatchSize items25)) (Items items25))
                 = inl "[1,1,1,1,1,1,1,1,1,1]") by (vm_compute; reflexivity).
    rewrite Hm in Hfirst. destruct Hfirst as [Hbodies Hpanic].
    split; [rewrite Hcount; reflexivity|].
    split; [apply Hpanic; vm_compute; discriminate | exact Hbodies].
Defined.

(** The same items through the loop on an uploader whose map is there, and
    then [Flush]: three calls of [AddToBatch], a counter of 3, one batch of
    three messages sent. *)
Example enqueueItems_loop_25_items :
  exists uploader s',
    enqueueItems_loop 3 0 job items25 ready (start quiet)
      = (Returned (uploader, None), s')
    /\ map String.length (add_bodies (trace s')) = [21; 21; 11]%nat
    /\ TotalBatches uploader = 3
    /\ map (fun e => match e with
                     | EvSendMessageBatch _ entries _ _ => length entries
                     | _ => O
                     end)
           (filter (fun e => is_batch_send e = true)
                   (trace (snd (Flush uploader s')))) = [3%nat].
Proof.
  eexists _, _. split; [vm_compute; reflexivity|].
  split; [|split]; vm_compute; reflexivity.
Qed.

(** C9 on a payload one byte above the ceiling. *)
Lemma AddToBatch_rejects_large_payload_witness :
  _messageSizeLimit < len oversized
  /\ AddToBatch "a" oversized ready (start quiet) =
       (Returned (ready,
                  Some (ErrorMessageExceedsMaxSize (len oversized) _messageSizeLimit)),
        mkEnv quiet [EvAddToBatch "a" oversized]).
Proof.
  assert (Hbig : _messageSizeLimit < len oversized)
    by (vm_compute; reflexivity).
  split; [exact Hbig|].
  exact (AddToBatch_rejects_large_payload "a" oversized ready (start quiet) Hbig).
Defined.

(** C10 on a submission with an empty item list: no batch, one job_complete
    message. *)
Lemma enqueue_sends_job_complete_once_witness :
  sentinels
    (trace (snd (enqueue job (mkSubmission (Some (mkItemList [] 10)) None None)
                         (start quiet))))
    = [job_complete_message job "name-a"].
Proof.
  assert (Hlive : exists s0,
             updateLiveness (JobKey job) (start quiet) = (Returned None, s0))
    by (eexists; reflexivity).
  destruct Hlive as [s0 Hlive].
  assert (Horch : exists n s2,
             orchestrate job (mkSubmission (Some (mkItemList [] 10)) None None)
               (mkEnv (world s0) (trace s0 ++ [EvCronRun (JobKey job)]))
             = (Returned (n, None), s2)).
  { injection Hlive as <-. eexists _, _. reflexivity. }
  destruct Horch as (n & s2 & Horch).
  destruct (enqueue_sends_job_complete_once job
              (mkSubmission (Some (mkItemList [] 10)) None None)
              (start quiet) s0 _ s2 Hlive Horch)
    as (_ & _ & (id & w3 & err & w4 & Hname & _ & _ & Hsent)).
  rewrite Hsent. injection Hlive as <-. injection Horch as _ <-.
  injection Hname as <- _. reflexivity.
Defined.

(** C10 on a listing that fails: the error comes back and no job_complete
    message is sent. *)
Example enqueue_listing_error :
  let r := enqueue job
             (mkSubmission None
                (Some (mkFilePathLister
                         (mkLister [] (Some (ExternalError "access denied"))) 2))
                None)
             (start quiet) in
  fst r = Returned (0, Some (ExternalError "access denied"))
  /\ sentinels (trace (snd r)) = [].
Proof. split; reflexivity. Qed.

End Examples.

(** * Further properties of the uploader *)

Section Uploader.

Context {W : Type} {C : Collaborators W}.

Implicit Types (s : @env W) (uploader u : SQSBatchUploader).

Lemma delivered_app tr1 tr2 :
  delivered (tr1 ++ tr2) = delivered tr1 ++ delivered tr2.
Proof.
  induction tr1 as [|e tr1 IH]; [reflexivity|].
  destruct e as [url entries out [err|]| | | | | |]; cbn [app delivered]; auto.
  rewrite IH, app_assoc. reflexivity.
Qed.

(** How the loop of [Flush] ends: on an accepted send, with the pending set
    delivered and the books cleared, or with nothing delivered and the
    uploader as it was. *)
Lemma Flush_attempts_delivered k retries uploader e0 s u' err s' :
  Flush_attempts k retries uploader e0 s = (Returned (u', err), s') ->
  exists evs,
    trace s' = trace s ++ evs
    /\ ((u' = cleared uploader /\ err = None
         /\ delivered evs = messageList uploader
         /\ successful_sends evs = 1)
        \/ (u' = uploader /\ delivered evs = [] /\ successful_sends evs = 0
            /\ (err = None -> k = O /\ e0 = None))).
Proof.
  revert e0 s. induction k as [|k IH]; intros e0 s Hrun.
  - cbn in Hrun. unfold ret in Hrun. injection Hrun as <- <- <-.
    exists []. rewrite app_nil_r. split; [reflexivity|]. right.
    split; [reflexivity|]. split; [reflexivity|]. split; [reflexivity|].
    destruct e0; [discriminate | auto].
  - cbn [Flush_attempts] in Hrun. unfold bind in Hrun.
    rewrite enqueueToSQS_unfold in Hrun. cbv zeta in Hrun.
    destruct (SQS_SendMessageBatch (QueueURL uploader) (messageList uploader)
                (world s)) as [[out e] w1].
    cbn [fst snd] in Hrun. destruct e as [e|].
    + assert (Hgo : exists e1,
                 Flush_attempts k retries uploader (Some e1)
                   (mkEnv w1 (trace s ++ [EvSendMessageBatch (QueueURL uploader)
                                            (messageList uploader) out (Some e)]))
                 = (Returned (u', err), s')).
      { destruct (Failed out); eexists; exact Hrun. }
      destruct Hgo as [e1 Hgo]. apply IH in Hgo.
      destruct Hgo as (evs & Htr & Hres). cbn [trace] in Htr.
      exists (EvSendMessageBatch (QueueURL uploader) (messageList uploader)
                out (Some e) :: evs).
      rewrite Htr, <- app_assoc. split; [reflexivity|].
      unfold successful_sends in *. rewrite filter_cons. cbn [delivered].
      destruct (decide (is_successful_send _ = true)) as [Habs|_];
        [discriminate Habs|].
      destruct Hres as [(-> & -> & Hd & Hn)|(-> & Hd & Hn & Hk)]; [left|right].
      * auto.
      * split; [reflexivity|]. split; [exact Hd|]. split; [exact Hn|].
        intros Herr. destruct (Hk Herr) as [_ Habs]. discriminate.
    + unfold ret in Hrun. injection Hrun as <- <- <-.
      exists [EvSendMessageBatch (QueueURL uploader) (messageList uploader)
                out None].
      split; [reflexivity|]. left. cbn [delivered]. rewrite app_nil_r.
      auto.
Qed.

Lemma Flush_delivered uploader s u' err s' :
  Flush uploader s = (Returned (u', err), s') ->
  exists evs,
    trace s' = trace s ++ evs
    /\ ((u' = cleared uploader /\ err = None
         /\ delivered evs = messageList uploader
         /\ successful_sends evs = 1
         /\ messageList uploader <> [])
        \/ (u' = uploader /\ delivered evs = [] /\ successful_sends evs = 0
            /\ (err = None ->
                messageList uploader = [] \/ configured_retries uploader <= 0))).
Proof.
  intros Hrun. destruct (messageList uploader) as [|m l] eqn:Hl.
  - rewrite Flush_empty in Hrun by assumption. unfold ret in Hrun.
    injection Hrun as <- <- <-. exists []. rewrite app_nil_r.
    split; [reflexivity|]. right. auto.
  - rewrite Flush_pending in Hrun by congruence.
    apply Flush_attempts_delivered in Hrun.
    destruct Hrun as (evs & Htr & Hres). exists evs. split; [exact Htr|].
    rewrite Hl in Hres.
    destruct Hres as [(Hu & He & Hd & Hn)|(-> & Hd & Hn & Hk)]; [left|right].
    { repeat (split; [assumption|]). discriminate. }
    split; [reflexivity|]. split; [exact Hd|]. split; [exact Hn|].
    intros Herr. right. destruct (Hk Herr) as [Hz _]. lia.
Qed.

Lemma Flush_attempts_first_success j k retries uploader e0 s out w' :
  (j < k)%nat ->
  sends_fail j (QueueURL uploader) (messageList uploader) (world s) ->
  SQS_SendMessageBatch (QueueURL uploader) (messageList uploader)
    (after_sends j (QueueURL uploader) (messageList uploader) (world s))
    = ((out, None), w') ->
  exists evs,
    Flush_attempts k retries uploader e0 s =
      (Returned (cleared uploader, None),
       mkEnv w' (trace s ++ evs ++
                   [EvSendMessageBatch (QueueURL uploader) (messageList uploader)
                                       out None]))
    /\ length evs = j
    /\ Forall (failed_send_of uploader) evs.
Proof.
  revert k s e0.
  induction j as [|j IH]; intros k s e0 Hlt Hfail Hsend.
  - destruct k as [|k]; [lia|]. cbn [after_sends] in Hsend.
    cbn [Flush_attempts]. unfold bind. rewrite enqueueToSQS_unfold, Hsend.
    exists []. split; [reflexivity|]. split; [reflexivity | constructor].
  - destruct k as [|k]; [lia|]. cbn [after_sends] in Hsend.
    cbn [sends_fail] in Hfail. destruct Hfail as [Herr Hfail].
    cbn [Flush_attempts]. unfold bind. rewrite enqueueToSQS_unfold. cbv zeta.
    destruct (SQS_SendMessageBatch (QueueURL uploader) (messageList uploader)
                (world s)) as [[out1 err1] w1].
    cbn [fst snd] in *. destruct err1 as [e1|]; [|congruence].
    assert (Hcase : exists e2,
               match Failed out1 with
               | [] => Some (WithStack e1)
               | f :: _ =>
                   Some (Wrapped (MsgBatch (map_index (messageIDToListIndex uploader)
                                                      (FailedId f)))
                                 (ErrorFailedToEnqueueMessages (FailedMessage f)))
               end = Some e2) by (destruct (Failed out1); eexists; reflexivity).
    destruct Hcase as [e2 Hcase]. rewrite Hcase.
    destruct (IH k (mkEnv w1 (trace s ++ [EvSendMessageBatch (QueueURL uploader)
                                            (messageList uploader) out1 (Some e1)]))
                 (Some e2)) as (evs & Heq & Hlen & Hall);
      [lia | exact Hfail | exact Hsend |].
    exists (EvSendMessageBatch (QueueURL uploader) (messageList uploader)
              out1 (Some e1) :: evs).
    cbn [trace] in Heq. rewrite Heq, <- app_assoc. split; [reflexivity|].
    split; [cbn; congruence|].
    constructor; [exists out1, e1; reflexivity | exact Hall].
Qed.

(** [Flush] tries again after a failed send and stops at the first send SQS
    takes: when the first [j] sends of the pending set fail and the next one
    is accepted, with [j] below the retry count, [Flush] has made exactly
    these [j + 1] sends, returns nil and leaves the uploader with an empty
    pending set, a fresh empty map, a byte total of zero and its counter
    untouched. *)
Theorem Flush_stops_at_first_accepted_send uploader s j out w' :
  messageList uploader <> [] ->
  (j < Z.to_nat (configured_retries uploader))%nat ->
  sends_fail j (QueueURL uploader) (messageList uploader) (world s) ->
  SQS_SendMessageBatch (QueueURL uploader) (messageList uploader)
    (after_sends j (QueueURL uploader) (messageList uploader) (world s))
    = ((out, None), w') ->
  exists evs,
    Flush uploader s =
      (Returned (mkUploader (QueueURL uploader) (Retries uploader) [] (Some ∅) 0
                            (TotalBatches uploader), None),
       mkEnv w' (trace s ++ evs ++
                   [EvSendMessageBatch (QueueURL uploader) (messageList uploader)
                                       out None]))
    /\ length evs = j
    /\ Forall (failed_send_of uploader) evs.
Proof.
  intros Hne Hlt Hfail Hsend. rewrite Flush_pending by assumption.
  exact (Flush_attempts_first_success j _ _ uploader None s out w'
           Hlt Hfail Hsend).
Qed.

(** With a retry count of zero or less [Flush] makes no attempt: nothing is
    sent, the pending set stays as it is, and what comes back is
    [errors.Wrap] of the nil error the loop never replaced. *)
Theorem Flush_without_retries_sends_nothing uploader s :
  configured_retries uploader <= 0 ->
  Flush uploader s =
    (Returned (uploader,
               match messageList uploader with
               | [] => None
               | _ :: _ =>
                   errors_Wrap None
                     (MsgFailedAfterRetrying (configured_retries uploader))
               end), s).
Proof.
  intros Hle. destruct (messageList uploader) as [|m l] eqn:Hl.
  - rewrite Flush_empty by assumption. reflexivity.
  - rewrite Flush_pending by congruence.
    replace (Z.to_nat (configured_retries uploader)) with O by lia.
    reflexivity.
Qed.

(** When [Flush], with a positive retry count, returns nil, the whole
    pending set has been delivered, in its order, by one accepted send (none
    when nothing was pending); nothing is pending afterwards, and a second
    [Flush] does nothing at all. *)
Theorem Flush_returning_nil_has_delivered uploader s u' s' :
  0 < configured_retries uploader ->
  Flush uploader s = (Returned (u', None), s') ->
  (exists evs,
      trace s' = trace s ++ evs
      /\ delivered evs = messageList uploader
      /\ successful_sends evs = (if messageList uploader is [] then 0 else 1))
  /\ messageList u' = []
  /\ TotalBatches u' = TotalBatches uploader
  /\ Flush u' s' = (Returned (u', None), s').
Proof.
  intros Hpos Hrun.
  destruct (Flush_delivered _ _ _ _ _ Hrun) as (evs & Htr & Hres).
  destruct Hres as [(-> & _ & Hd & Hn & Hne)|(-> & Hd & Hn & Hk)].
  - split; [|split; [reflexivity|split; reflexivity]].
    exists evs. split; [exact Htr|]. split; [exact Hd|].
    destruct (messageList uploader) as [|m l] eqn:Hl; [congruence|exact Hn].
  - destruct (Hk eq_refl) as [Hnil|Hle]; [|lia].
    split; [|split; [exact Hnil|split; [reflexivity|]]].
    + exists evs. rewrite Hnil. auto.
    + rewrite Flush_empty in Hrun |- * by assumption.
      unfold ret in Hrun |- *. injection Hrun as <-. reflexivity.
Qed.

(** The flush before an add. When the pending set cannot take the new
    message (the new byte total would pass the ceiling, or ten messages are
    pending) and SQS takes the pending set at the first send, [AddToBatch]
    has sent the pending set as one batch and starts the next one with the
    new message alone: the byte total is the size of its payload, the map
    holds its id only, with the counter's old value, and the counter is one
    up. *)
Theorem AddToBatch_sends_the_pending_batch_first id body uploader s out w' :
  len body <= _messageSizeLimit ->
  _messageSizeLimit < len body + totalBytes uploader
    \/ llen (messageList uploader) = _maxMessagesPerBatch ->
  messageList uploader <> [] ->
  0 < configured_retries uploader ->
  SQS_SendMessageBatch (QueueURL uploader) (messageList uploader) (world s)
    = ((out, None), w') ->
  AddToBatch id body uploader s =
    (Returned (mkUploader (QueueURL uploader) (Retries uploader)
                          [mkEntry id body id id]
                          (Some (<[id := TotalBatches uploader]> ∅))
                          (len body) (TotalBatches uploader + 1), None),
     mkEnv w' (trace s ++
                 [EvAddToBatch id body;
                  EvSendMessageBatch (QueueURL uploader) (messageList uploader)
                                     out None])).
Proof.
  intros Hfit Hfull Hne Hpos Hsend. unfold AddToBatch, bind, emit.
  destruct (Z.gtb_spec (len body) _messageSizeLimit); [lia|].
  cbn [MessageBody].
  assert (Hcond : (len body + totalBytes uploader >? _messageSizeLimit)
                  || (Z.of_nat (length (messageList uploader))
                      =? _maxMessagesPerBatch) = true).
  { apply orb_true_iff. destruct Hfull as [Hbytes|Hcount].
    - left. apply Z.gtb_lt. lia.
    - right. apply Z.eqb_eq. exact Hcount. }
  rewrite Hcond, Flush_pending by assumption.
  destruct (Z.to_nat (configured_retries uploader)) as [|k] eqn:Hk; [lia|].
  cbn [Flush_attempts]. unfold bind. rewrite enqueueToSQS_unfold.
  cbn [world trace]. rewrite Hsend. cbn. unfold ret.
  rewrite <- app_assoc. reflexivity.
Qed.

(** When that flush fails, every send of the pending set being refused,
    [AddToBatch] gives up: it returns the error of [Flush], which names the
    retry count, after as many sends as the retry count says, and the
    uploader is as before the call, the new message not queued and the
    counter not moved. *)
Theorem AddToBatch_gives_up_when_flush_fails id body uploader s :
  len body <= _messageSizeLimit ->
  _messageSizeLimit < len body + totalBytes uploader
    \/ llen (messageList uploader) = _maxMessagesPerBatch ->
  messageList uploader <> [] ->
  0 < configured_retries uploader ->
  sends_fail (Z.to_nat (configured_retries uploader))
             (QueueURL uploader) (messageList uploader) (world s) ->
  exists e w' evs,
    AddToBatch id body uploader s =
      (Returned (uploader,
                 Some (Wrapped (MsgFailedAfterRetrying (configured_retries uploader))
                               e)),
       mkEnv w' (trace s ++ EvAddToBatch id body :: evs))
    /\ llen evs = configured_retries uploader
    /\ Forall (failed_send_of uploader) evs.
Proof.
  intros Hfit Hfull Hne Hpos Hfail. unfold AddToBatch, bind, emit.
  destruct (Z.gtb_spec (len body) _messageSizeLimit); [lia|].
  cbn [MessageBody].
  assert (Hcond : (len body + totalBytes uploader >? _messageSizeLimit)
                  || (Z.of_nat (length (messageList uploader))
                      =? _maxMessagesPerBatch) = true).
  { apply orb_true_iff. destruct Hfull as [Hbytes|Hcount].
    - left. apply Z.gtb_lt. lia.
    - right. apply Z.eqb_eq. exact Hcount. }
  rewrite Hcond, Flush_pending by assumption.
  destruct (Flush_attempts_all_fail _ (configured_retries uploader) uploader None
              (mkEnv (world s) (trace s ++ [EvAddToBatch id body])) Hfail)
    as (e' & w' & evs & Heq & Hlen & Hall & Hsome).
  rewrite Heq. destruct e' as [e|].
  2:{ exfalso. apply Hsome; [|reflexivity]. left. lia. }
  exists e, w', evs. cbn [trace errors_Wrap]. unfold ret.
  rewrite <- app_assoc. split; [reflexivity|].
  split; [unfold llen; lia | exact Hall].
Qed.

Lemma AddToBatch_delivered id body uploader s u' err s' :
  AddToBatch id body uploader s = (Returned (u', err), s') ->
  exists evs,
    trace s' = trace s ++ evs
    /\ delivered evs ++ messageList u'
       = messageList uploader
         ++ (if err is None then [mkEntry id body id id] else []).
Proof.
  unfold AddToBatch, bind, emit. intros Hrun.
  destruct (len body >? _messageSizeLimit).
  { unfold ret in Hrun. injection Hrun as <- <- <-.
    exists [EvAddToBatch id body]. cbn. rewrite app_nil_r. auto. }
  match type of Hrun with
  | context [if ?c then Flush uploader else _] => destruct c
  end.
  - destruct (Flush uploader _) as [[[u1 err1]| |] s1] eqn:HF; try discriminate.
    destruct (Flush_delivered _ _ _ _ _ HF) as (evs & Htr & Hres).
    assert (Hd : delivered evs ++ messageList u1 = messageList uploader).
    { destruct Hres as [(-> & _ & Hd & _)|(-> & Hd & _)]; rewrite Hd;
        [apply app_nil_r | reflexivity]. }
    clear Hres.
    cbn [trace] in Htr.
    destruct err1 as [e|].
    + unfold ret in Hrun. injection Hrun as <- <- <-.
      exists (EvAddToBatch id body :: evs). rewrite Htr, <- app_assoc.
      split; [reflexivity|]. cbn [delivered]. rewrite app_nil_r. exact Hd.
    + destruct (messageIDToListIndex u1); unfold ret, panic in Hrun;
        [|discriminate].
      injection Hrun as <- <- <-.
      exists (EvAddToBatch id body :: evs). rewrite Htr, <- app_assoc.
      split; [reflexivity|]. cbn [delivered messageList MessageBody].
      rewrite app_assoc, Hd. reflexivity.
  - unfold ret at 1 in Hrun. cbn [fst snd] in Hrun.
    destruct (messageIDToListIndex uploader); unfold ret, panic in Hrun;
      [|discriminate].
    injection Hrun as <- <- <-. exists [EvAddToBatch id body].
    split; reflexivity.
Qed.

(** No message is lost, repeated or moved out of its place. After any
    sequence of [AddToBatch] and [Flush] calls, on any uploader and whatever
    SQS answers, the batches SQS took followed by the messages still pending
    are the messages pending at the start followed by the messages
    [AddToBatch] has queued, each once and in the order of the calls. *)
Theorem no_message_is_lost_or_repeated cs uploader s u' rs s' :
  run_calls cs uploader s = (Returned (u', rs), s') ->
  exists evs,
    trace s' = trace s ++ evs
    /\ delivered evs ++ messageList u' = messageList uploader ++ accepted rs.
Proof.
  revert uploader s u' rs s'.
  induction cs as [|c cs IH]; intros uploader s u' rs s' Hrun.
  - cbn in Hrun. unfold ret in Hrun. injection Hrun as <- <- <-.
    exists []. rewrite !app_nil_r. auto.
  - cbn [run_calls] in Hrun. unfold bind at 1 in Hrun.
    destruct (run_call c uploader s) as [[[u1 err]| |] s1] eqn:Hcall;
      try discriminate.
    cbn [fst snd] in Hrun. unfold bind in Hrun.
    destruct (run_calls cs u1 s1) as [[[u2 rs2]| |] s2] eqn:Hrest;
      try discriminate.
    unfold ret in Hrun. cbn [fst snd] in Hrun. injection Hrun as <- <- <-.
    destruct (IH _ _ _ _ _ Hrest) as (evs2 & Htr2 & Hd2).
    assert (H1 : exists evs1,
               trace s1 = trace s ++ evs1
               /\ delivered evs1 ++ messageList u1
                  = messageList uploader ++ accepted [(c, err)]).
    { destruct c as [id body|]; cbn [run_call] in Hcall.
      - destruct (AddToBatch_delivered _ _ _ _ _ _ _ Hcall) as (evs1 & Htr1 & Hd1).
        exists evs1. split; [exact Htr1|]. rewrite Hd1.
        destruct err; reflexivity.
      - destruct (Flush_delivered _ _ _ _ _ Hcall) as (evs1 & Htr1 & Hres).
        exists evs1. split; [exact Htr1|]. cbn [accepted]. rewrite app_nil_r.
        destruct Hres as [(-> & _ & Hd & _)|(-> & Hd & _)]; rewrite Hd.
        + apply app_nil_r.
        + reflexivity. }
    destruct H1 as (evs1 & Htr1 & Hd1).
    exists (evs1 ++ evs2). rewrite Htr2, Htr1, app_assoc.
    split; [reflexivity|].
    rewrite delivered_app, <- app_assoc, Hd2, app_assoc, Hd1, <- app_assoc.
    f_equal. destruct c as [id body|]; [destruct err|]; reflexivity.
Qed.

Lemma tracked_cleared uploader : tracked (cleared uploader).
Proof.
  split; [reflexivity|].
  unfold known_ids, pending_ids, cleared. cbn. apply dom_empty_L.
Qed.

Lemma Flush_tracked uploader s u' err s' :
  tracked uploader ->
  Flush uploader s = (Returned (u', err), s') ->
  tracked u'.
Proof.
  intros Hbooks Hrun.
  destruct (Flush_delivered _ _ _ _ _ Hrun) as (evs & _ & Hres).
  destruct Hres as [(-> & _)|(-> & _)]; [apply tracked_cleared | exact Hbooks].
Qed.

Lemma tracked_queued id body m u1 :
  tracked u1 ->
  messageIDToListIndex u1 = Some m ->
  tracked (mkUploader (QueueURL u1) (Retries u1)
                      (messageList u1 ++ [mkEntry id body id id])
                      (Some (<[id := TotalBatches u1]> m))
                      (totalBytes u1 + len body) (TotalBatches u1 + 1)).
Proof.
  intros [Hbytes Hids] Hmap. split; cbn [totalBytes messageList].
  - rewrite body_bytes_app, Hbytes.
    change (body_bytes [mkEntry id body id id]) with (len body + 0). lia.
  - unfold known_ids, pending_ids in *. rewrite Hmap in Hids.
    cbn [messageIDToListIndex messageList default from_option Datatypes.id] in *.
    rewrite dom_insert_L, fmap_app, list_to_set_app_L, Hids.
    cbn [fmap list_fmap list_to_set Id foldr].
    rewrite (right_id_L ∅ (∪)). apply (comm_L (∪)).
Qed.

Lemma AddToBatch_tracked id body uploader s u' err s' :
  tracked uploader ->
  AddToBatch id body uploader s = (Returned (u', err), s') ->
  tracked u'.
Proof.
  unfold AddToBatch, bind, emit. intros Hbooks Hrun.
  destruct (len body >? _messageSizeLimit).
  { unfold ret in Hrun. injection Hrun as <- <- <-. exact Hbooks. }
  match type of Hrun with
  | context [if ?c then Flush uploader else _] => destruct c
  end.
  - destruct (Flush uploader _) as [[[u1 err1]| |] s1] eqn:HF; try discriminate.
    apply (Flush_tracked _ _ _ _ _ Hbooks) in HF.
    destruct err1 as [e|].
    + unfold ret in Hrun. injection Hrun as <- <- <-. exact HF.
    + destruct (messageIDToListIndex u1) as [m|] eqn:Hmap;
        unfold ret, panic in Hrun; [|discriminate].
      injection Hrun as <- <- <-. cbn [MessageBody].
      apply tracked_queued; assumption.
  - unfold ret at 1 in Hrun. cbn [fst snd] in Hrun.
    destruct (messageIDToListIndex uploader) as [m|] eqn:Hmap;
      unfold ret, panic in Hrun; [|discriminate].
    injection Hrun as <- <- <-. cbn [MessageBody].
    apply tracked_queued; assumption.
Qed.

(** The books stay in step with the pending set. If the byte total is the
    sum of the pending payloads and the map holds exactly the ids of the
    pending messages (as on a fresh uploader, where all of them are empty),
    this is so again after any sequence of [AddToBatch] and [Flush] calls,
    whatever SQS answers. *)
Theorem books_stay_in_step cs uploader s u' rs s' :
  tracked uploader ->
  run_calls cs uploader s = (Returned (u', rs), s') ->
  totalBytes u' = body_bytes (messageList u')
  /\ known_ids u' = pending_ids u'.
Proof.
  revert uploader s u' rs s'.
  induction cs as [|c cs IH]; intros uploader s u' rs s' Hbooks Hrun.
  - cbn in Hrun. unfold ret in Hrun. injection Hrun as <- <- <-. exact Hbooks.
  - cbn [run_calls] in Hrun. unfold bind at 1 in Hrun.
    destruct (run_call c uploader s) as [[[u1 err]| |] s1] eqn:Hcall;
      try discriminate.
    cbn [fst snd] in Hrun. unfold bind in Hrun.
    destruct (run_calls cs u1 s1) as [[[u2 rs2]| |] s2] eqn:Hrest;
      try discriminate.
    unfold ret in Hrun. cbn [fst snd] in Hrun. injection Hrun as <- <- <-.
    apply (IH _ _ _ _ _) with (2 := Hrest).
    destruct c as [id body|]; cbn [run_call] in Hcall.
    + exact (AddToBatch_tracked _ _ _ _ _ _ _ Hbooks Hcall).
    + exact (Flush_tracked _ _ _ _ _ Hbooks Hcall).
Qed.

Lemma AddToBatch_index id body uploader s u' s' :
  AddToBatch id body uploader s = (Returned (u', None), s') ->
  map_index (messageIDToListIndex u') id = TotalBatches uploader
  /\ TotalBatches u' = TotalBatches uploader + 1.
Proof.
  unfold AddToBatch, bind, emit. intros Hrun.
  destruct (len body >? _messageSizeLimit).
  { unfold ret in Hrun. discriminate. }
  match type of Hrun with
  | context [if ?c then Flush uploader else _] => destruct c
  end.
  - destruct (Flush uploader _) as [[[u1 err1]| |] s1] eqn:HF; try discriminate.
    apply Flush_counter in HF.
    destruct err1 as [e|]; [unfold ret in Hrun; discriminate|].
    destruct (messageIDToListIndex u1) as [m|];
      unfold ret, panic in Hrun; [|discriminate].
    injection Hrun as <- <-. cbn. rewrite lookup_insert_eq, HF. auto.
  - unfold ret at 1 in Hrun. cbn [fst snd] in Hrun.
    destruct (messageIDToListIndex uploader) as [m|];
      unfold ret, panic in Hrun; [|discriminate].
    injection Hrun as <- <-. cbn. rewrite lookup_insert_eq. auto.
Qed.

(** A refused message is reported by its number. [AddToBatch] records under
    the id of the message the value of the counter before the call, which is
    the number of the messages queued before it. When a later send of the
    pending set fails with a transport error and the first failed entry SQS
    lists carries that id, [enqueueToSQS] reports the reason SQS gave,
    wrapped with that number; with no failed entry listed, it reports the
    transport error itself. *)
Theorem refused_message_is_reported_by_its_number
    id body uploader s u' s' out e w' :
  AddToBatch id body uploader s = (Returned (u', None), s') ->
  SQS_SendMessageBatch (QueueURL u') (messageList u') (world s')
    = ((out, Some e), w') ->
  TotalBatches u' = TotalBatches uploader + 1
  /\ (Failed out = [] ->
      fst (enqueueToSQS u' s') = Returned (Some (WithStack e)))
  /\ forall f fl,
       Failed out = f :: fl ->
       FailedId f = id ->
       fst (enqueueToSQS u' s')
         = Returned (Some (Wrapped (MsgBatch (TotalBatches uploader))
                             (ErrorFailedToEnqueueMessages (FailedMessage f)))).
Proof.
  intros Hadd Hsend. destruct (AddToBatch_index _ _ _ _ _ _ Hadd) as [Hidx Hcnt].
  split; [exact Hcnt|]. rewrite enqueueToSQS_unfold, Hsend. cbn.
  split.
  - intros ->. reflexivity.
  - intros f fl -> <-. rewrite Hidx. reflexivity.
Qed.

End Uploader.

Section Uploader_examples.

Import Scripted Cases.

(** One send that fails, then one that SQS takes. *)
Lemma Flush_stops_at_first_accepted_send_witness :
  fst (Flush one_pending (start (mkWorld [timeout] [] [] 0)))
    = Returned (mkUploader "queue" None [] (Some ∅) 0 1, None)
  /\ length (trace (snd (Flush one_pending (start (mkWorld [timeout] [] [] 0)))))
     = 2%nat.
Proof.
  destruct (Flush_stops_at_first_accepted_send one_pending
              (start (mkWorld [timeout] [] [] 0)) 1 (mkOutput [] []) quiet)
    as (evs & Heq & Hlen & _).
  - discriminate.
  - cbn. lia.
  - cbn. split; [discriminate | exact I].
  - reflexivity.
  - rewrite Heq. split; [reflexivity|].
    cbn [snd trace start app]. rewrite length_app, Hlen. reflexivity.
Defined.

(** A retry count of zero: the message stays pending and nothing is sent. *)
Lemma Flush_without_retries_sends_nothing_witness :
  Flush no_retries (start quiet) = (Returned (no_retries, None), start quiet).
Proof.
  rewrite (Flush_without_retries_sends_nothing no_retries (start quiet));
    [reflexivity|].
  cbn. lia.
Defined.

(** One pending message, taken at the first send. *)
Lemma Flush_returning_nil_has_delivered_witness :
  exists u' s',
    Flush one_pending (start quiet) = (Returned (u', None), s')
    /\ delivered (trace s') = [entry "a" "x"]
    /\ messageList u' = [].
Proof.
  assert (Hrun : exists u' s',
             Flush one_pending (start quiet) = (Returned (u', None), s'))
    by (eexists _, _; vm_compute; reflexivity).
  destruct Hrun as (u' & s' & Hrun).
  destruct (Flush_returning_nil_has_delivered one_pending (start quiet) u' s')
    as ((evs & Htr & Hd & _) & Hnil & _).
  - reflexivity.
  - exact Hrun.
  - exists u', s'. split; [exact Hrun|]. split; [|exact Hnil].
    rewrite Htr. exact Hd.
Defined.

(** A pending set one byte short of the ceiling and a payload of two bytes:
    the pending set is sent and the new message starts the next batch. *)
Lemma AddToBatch_sends_the_pending_batch_first_witness :
  fst (AddToBatch "b" "xy" nearly_full (start quiet))
    = Returned (mkUploader "queue" (Some 3) [entry "b" "xy"]
                           (Some (<["b" := 1]> ∅)) 2 2, None).
Proof.
  rewrite (AddToBatch_sends_the_pending_batch_first "b" "xy" nearly_full
             (start quiet) (mkOutput [] []) quiet).
  - reflexivity.
  - vm_compute. discriminate.
  - left. vm_compute. reflexivity.
  - discriminate.
  - reflexivity.
  - reflexivity.
Defined.

(** The same call when SQS answers none of the three sends. *)
Lemma AddToBatch_gives_up_when_flush_fails_witness :
  exists e,
    fst (AddToBatch "b" "xy" nearly_full
           (start (mkWorld [timeout; timeout; timeout] [] [] 0)))
      = Returned (nearly_full, Some (Wrapped (MsgFailedAfterRetrying 3) e)).
Proof.
  destruct (AddToBatch_gives_up_when_flush_fails "b" "xy" nearly_full
              (start (mkWorld [timeout; timeout; timeout] [] [] 0)))
    as (e & w' & evs & Heq & _).
  - vm_compute. discriminate.
  - left. vm_compute. reflexivity.
  - discriminate.
  - reflexivity.
  - cbn. repeat split; discriminate.
  - exists e. rewrite Heq. reflexivity.
Defined.

(** Two messages queued and flushed: both delivered, in the order of the
    calls, and nothing pending. *)
Lemma no_message_is_lost_or_repeated_witness :
  exists u' rs s',
    run_calls [CallAddToBatch "a" "x"; CallAddToBatch "b" "y"; CallFlush]
              ready (start quiet) = (Returned (u', rs), s')
    /\ delivered (trace s') ++ messageList u' = [entry "a" "x"; entry "b" "y"].
Proof.
  assert (Hrun : exists u' rs s',
             run_calls [CallAddToBatch "a" "x"; CallAddToBatch "b" "y"; CallFlush]
                       ready (start quiet) = (Returned (u', rs), s')
             /\ accepted rs = [entry "a" "x"; entry "b" "y"]).
  { eexists _, _, _. split; vm_compute; reflexivity. }
  destruct Hrun as (u' & rs & s' & Hrun & Hacc).
  destruct (no_message_is_lost_or_repeated _ _ _ _ _ _ Hrun)
    as (evs & Htr & Hd).
  exists u', rs, s'. split; [exact Hrun|].
  rewrite Htr. cbn [start trace app]. rewrite Hd, Hacc. reflexivity.
Defined.

(** The same run keeps the books of the uploader in step. *)
Lemma books_stay_in_step_witness :
  exists u' rs s',
    run_calls [CallAddToBatch "a" "x"; CallAddToBatch "b" "y"; CallFlush]
              ready (start quiet) = (Returned (u', rs), s')
    /\ totalBytes u' = body_bytes (messageList u')
    /\ known_ids u' = pending_ids u'.
Proof.
  assert (Hrun : exists u' rs s',
             run_calls [CallAddToBatch "a" "x"; CallAddToBatch "b" "y"; CallFlush]
                       ready (start quiet) = (Returned (u', rs), s')).
  { eexists _, _, _. vm_compute. reflexivity. }
  destruct Hrun as (u' & rs & s' & Hrun).
  exists u', rs, s'. split; [exact Hrun|].
  apply (books_stay_in_step
           [CallAddToBatch "a" "x"; CallAddToBatch "b" "y"; CallFlush]
           ready (start quiet) u' rs s'); [|exact Hrun].
  split; [reflexivity|].
  unfold known_ids, pending_ids, ready. cbn. apply dom_empty_L.
Defined.

(** A message queued as the first of a run and refused by SQS: the report
    names batch 0. *)
Lemma refused_message_is_reported_by_its_number_witness :
  fst (enqueueToSQS
         (mkUploader "queue" (Some 3) [entry "a" "x"] (Some (<["a" := 0]> ∅)) 1 1)
         (mkEnv (mkWorld [(rejected, Some (ExternalError "refused"))] [] [] 0)
                [EvAddToBatch "a" "x"]))
    = Returned (Some (Wrapped (MsgBatch 0)
                        (ErrorFailedToEnqueueMessages "message rejected"))).
Proof.
  destruct (refused_message_is_reported_by_its_number "a" "x" ready
              (start (mkWorld [(rejected, Some (ExternalError "refused"))] [] [] 0))
              (mkUploader "queue" (Some 3) [entry "a" "x"]
                          (Some (<["a" := 0]> ∅)) 1 1)
              (mkEnv (mkWorld [(rejected, Some (ExternalError "refused"))] [] [] 0)
                     [EvAddToBatch "a" "x"])
              rejected (ExternalError "refused") quiet)
    as (_ & _ & Hreport).
  - reflexivity.
  - reflexivity.
  - exact (Hreport (mkFailed "a" "message rejected") [] eq_refl eq_refl).
Defined.

End Uploader_examples.

(** * Further properties of the orchestrators *)

Section Orchestrators.

Context {W : Type} {C : Collaborators W}.

Implicit Types (s : @env W) (uploader u : SQSBatchUploader).

Local Abbreviation snb m post := (@sends_no_batch W _ m post) (only parsing).

Lemma snb_ret {A} (a : A) (post : A -> Prop) : post a -> snb (ret a) post.
Proof.
  intros Hp s. exists []. rewrite app_nil_r. cbn. auto.
Qed.

Lemma snb_panic {A} r (post : A -> Prop) : snb (panic r) post.
Proof.
  intros s. exists []. rewrite app_nil_r. cbn. auto.
Qed.

Lemma snb_bind {A B} (m : M A) (k : A -> M B) (P : A -> Prop) (Q : B -> Prop) :
  sends_no_batch m P -> (forall a, P a -> snb (k a) Q) -> snb (bind m k) Q.
Proof.
  intros Hm Hk s. unfold bind.
  destruct (Hm s) as (evs & Htr & Hall & Hp).
  destruct (m s) as [[a| |] s1]; cbn [fst snd] in *.
  - destruct (Hk a Hp s1) as (evs2 & Htr2 & Hall2 & Hq).
    exists (evs ++ evs2). rewrite Htr2, Htr, app_assoc.
    split; [reflexivity|]. split; [apply Forall_app; auto | exact Hq].
  - exists evs. auto.
  - exists evs. auto.
Qed.

Lemma snb_weaken {A} (m : M A) (P Q : A -> Prop) :
  sends_no_batch m P -> (forall a, P a -> Q a) -> snb m Q.
Proof.
  intros Hm HPQ s. destruct (Hm s) as (evs & Htr & Hall & Hp).
  exists evs. split; [exact Htr|]. split; [exact Hall|].
  destruct (fst (m s)); auto.
Qed.

Lemma snb_randomString n : snb (randomString n) (fun _ => True).
Proof.
  intros s. unfold randomString. destruct (random_String n (world s)).
  exists []. rewrite app_nil_r. cbn. auto.
Qed.

Lemma snb_RandomName : snb RandomName (fun _ => True).
Proof.
  intros s. unfold RandomName. destruct (k8s_RandomName (world s)).
  exists []. rewrite app_nil_r. cbn. auto.
Qed.

Lemma snb_writeToJobLogGroup k l : snb (writeToJobLogGroup k l) (fun _ => True).
Proof.
  intros s. eexists [_]. split; [reflexivity|].
  split; [constructor; [reflexivity | constructor] | exact I].
Qed.

Lemma snb_logProgress jobSpec uploader :
  snb (logProgress jobSpec uploader) (fun _ => True).
Proof.
  unfold logProgress. destruct (_ =? 0);
    [apply snb_writeToJobLogGroup | apply snb_ret; exact I].
Qed.

Lemma snb_emit e : is_batch_send e = false -> snb (emit e) (fun _ => True).
Proof.
  intros He s. exists [e]. split; [reflexivity|].
  split; [constructor; [exact He | constructor] | exact I].
Qed.

Lemma snb_SendMessage input : snb (SendMessage input) (fun _ => True).
Proof.
  intros s. unfold SendMessage. destruct (SQS_SendMessage input (world s)).
  eexists [_]. split; [reflexivity|].
  split; [constructor; [reflexivity | constructor] | exact I].
Qed.

Lemma snb_updateLiveness k : snb (updateLiveness k) (fun _ => True).
Proof.
  intros s. unfold updateLiveness. destruct (S3_UploadLiveness k (world s)).
  eexists [_]. split; [reflexivity|].
  split; [constructor; [reflexivity | constructor] | exact I].
Qed.

Lemma snb_Flush uploader :
  idle uploader -> snb (Flush uploader) (fun r => r = (uploader, None)).
Proof.
  intros (Hl & _). rewrite Flush_empty by assumption. apply snb_ret. reflexivity.
Qed.

(** On an idle uploader [AddToBatch] queues nothing: it refuses the payload
    or panics. *)
Lemma snb_AddToBatch id body uploader :
  idle uploader ->
  snb (AddToBatch id body uploader) (fun r => fst r = uploader /\ snd r <> None).
Proof.
  intros (Hl & Hm & Hc) s. unfold AddToBatch, bind, emit.
  exists [EvAddToBatch id body].
  destruct (len body >? _messageSizeLimit).
  { cbn. split; [reflexivity|].
    split; [constructor; [reflexivity | constructor]|].
    split; [reflexivity | discriminate]. }
  rewrite (Flush_empty uploader Hl).
  match goal with
  | |- context [if ?c then _ else _] => destruct c
  end; unfold ret; cbn [fst snd]; rewrite Hm; unfold panic; cbn;
    (split; [reflexivity|]; split; [constructor; [reflexivity | constructor]|];
     exact I).
Qed.

Lemma snb_enqueueItems_loop k i jobSpec itemList uploader :
  idle uploader ->
  snb (enqueueItems_loop k i jobSpec itemList uploader) (fun r => idle (fst r)).
Proof.
  intros Hidle. revert i. induction k as [|k IH]; intros i;
    cbn [enqueueItems_loop]; [apply snb_ret; exact Hidle|].
  destruct (slice_bounds itemList i) as [lo hi].
  destruct (slice (Items itemList) lo hi) as [items|]; [|apply snb_panic].
  destruct (json_Marshal_raw items) as [jsonBytes|e];
    [|apply snb_ret; exact Hidle].
  eapply snb_bind; [apply snb_randomString|]. intros id _.
  eapply snb_bind; [apply snb_AddToBatch; exact Hidle|].
  intros [u' err] [Hu Herr]. cbn [fst snd] in Hu, Herr. subst u'.
  destruct err as [e|]; [|congruence].
  destruct (_ >? 1); apply snb_ret; exact Hidle.
Qed.

Lemma idle_newUploader jobSpec : idle (newUploader jobSpec).
Proof. repeat split. Qed.

Lemma snb_finish uploader err :
  idle uploader ->
  snb (match err with
       | Some e => ret (0, Some e)
       | None =>
           bind (Flush uploader) (fun r =>
             let '(uploader, err) := r in
             match err with
             | Some e => ret (0, Some e)
             | None => ret (TotalBatches uploader, None)
             end)
       end) (fun r : Z * option error => fst r = 0).
Proof.
  intros Hidle. destruct err as [e|]; [apply snb_ret; reflexivity|].
  eapply snb_bind; [apply snb_Flush; exact Hidle|].
  intros [u2 err2] Heq. injection Heq as -> ->.
  apply snb_ret. destruct Hidle as (_ & _ & Hc). exact Hc.
Qed.

Lemma snb_enqueueItems jobSpec itemList :
  snb (enqueueItems jobSpec itemList) (fun r => fst r = 0).
Proof.
  unfold enqueueItems. destruct (_ =? 0); [apply snb_panic|].
  eapply snb_bind; [apply snb_writeToJobLogGroup|]. intros _ _.
  eapply snb_bind;
    [apply snb_enqueueItems_loop; apply idle_newUploader|].
  intros [u err] Hidle. apply snb_finish. exact Hidle.
Qed.

Lemma snb_s3IteratorFromLister {S} (I : S -> Prop) objects listing
    (fn : s3Object -> S -> M (S * bool * option error)) st :
  (forall o st', I st' -> snb (fn o st') (fun r => I (fst (fst r)))) ->
  I st ->
  snb (s3IteratorFromLister objects listing fn st) (fun r => I (fst r)).
Proof.
  intros Hfn. revert st. induction objects as [|o rest IH]; intros st Hst;
    cbn [s3IteratorFromLister]; [apply snb_ret; exact Hst|].
  eapply snb_bind; [apply Hfn; exact Hst|].
  intros [[st' continue] err] Hst'. cbn [fst] in Hst'.
  destruct err; [apply snb_ret; exact Hst'|].
  destruct continue; [apply IH; exact Hst' | apply snb_ret; exact Hst'].
Qed.

Lemma snb_S3FileIterator {S} (I : S -> Prop) chunks
    (fn : chunk -> bool -> S -> M (S * bool * option error)) st :
  (forall c b st', I st' -> snb (fn c b st') (fun r => I (fst (fst r)))) ->
  I st ->
  snb (S3FileIterator chunks fn st) (fun r => I (fst r)).
Proof.
  intros Hfn. revert st. induction chunks as [|c rest IH]; intros st Hst;
    cbn [S3FileIterator]; [apply snb_ret; exact Hst|].
  eapply snb_bind; [apply Hfn; exact Hst|].
  intros [[st' continue] err] Hst'. cbn [fst] in Hst'.
  destruct err; [apply snb_ret; exact Hst'|].
  destruct continue; [apply IH; exact Hst' | apply snb_ret; exact Hst'].
Qed.

Lemma snb_addS3PathsToQueue uploader s3PathList :
  idle uploader ->
  snb (addS3PathsToQueue uploader s3PathList)
      (fun r => fst r = uploader /\ snd r <> None).
Proof.
  intros Hidle. unfold addS3PathsToQueue.
  destruct (json_Marshal_strings s3PathList) as [jsonBytes|e].
  - eapply snb_bind; [apply snb_randomString|]. intros id _.
    apply snb_AddToBatch. exact Hidle.
  - apply snb_ret. split; [reflexivity | discriminate].
Qed.

Lemma snb_enqueueS3Paths jobSpec lister :
  snb (enqueueS3Paths jobSpec lister) (fun r => fst r = 0).
Proof.
  unfold enqueueS3Paths.
  eapply snb_bind.
  - apply (snb_s3IteratorFromLister
             (fun st : list string * SQSBatchUploader => idle (snd st))).
    + intros o [l u] Hidle. cbn [snd] in Hidle.
      destruct (_ =? _); [|apply snb_ret; exact Hidle].
      eapply snb_bind; [apply snb_addS3PathsToQueue; exact Hidle|].
      intros [u' err] [Hu Herr]. cbn [fst snd] in Hu, Herr. subst u'.
      destruct err as [e|]; [|congruence].
      apply snb_ret. exact Hidle.
    + apply idle_newUploader.
  - intros [[l u] err] Hidle. cbn [fst snd] in Hidle.
    destruct err as [e|]; [apply snb_ret; reflexivity|].
    eapply snb_bind.
    + instantiate (1 := fun r => idle (fst r)).
      destruct (0 <? llen l); [|apply snb_ret; exact Hidle].
      eapply snb_weaken; [apply snb_addS3PathsToQueue; exact Hidle|].
      intros [u' err] [Hu _]. cbn [fst] in Hu |- *. subst u'. exact Hidle.
    + intros [u' err] Hidle'. cbn [fst] in Hidle'.
      apply snb_finish. exact Hidle'.
Qed.

Lemma snb_addJSONObjectsToQueue uploader jsonMessageList :
  idle uploader ->
  snb (addJSONObjectsToQueue uploader jsonMessageList)
      (fun r => fst r = uploader /\ snd r <> None).
Proof.
  intros Hidle. unfold addJSONObjectsToQueue.
  destruct (json_Marshal_raw _) as [jsonBytes|e].
  - eapply snb_bind; [apply snb_randomString|]. intros id _.
    apply snb_AddToBatch. exact Hidle.
  - apply snb_ret. split; [reflexivity | discriminate].
Qed.

Lemma snb_streamJSON_loop fuel jobSpec dec uploader jml idx :
  idle uploader ->
  snb (streamJSON_loop fuel jobSpec dec uploader jml idx)
      (fun r => idle (sp_uploader (fst r))).
Proof.
  intros Hidle. revert dec jml idx.
  induction fuel as [|fuel IH]; intros dec jml idx; cbn [streamJSON_loop].
  { intros s. exists []. rewrite app_nil_r. cbn. auto. }
  destruct (json.Decode dec) as [doc rest| | |e];
    try (apply snb_ret; exact Hidle).
  destruct (llen doc >? _messageSizeLimit); [apply snb_ret; exact Hidle|].
  destruct (_ =? _); [|apply IH].
  eapply snb_bind; [apply snb_addJSONObjectsToQueue; exact Hidle|].
  intros [u' err] [Hu Herr]. cbn [fst snd] in Hu, Herr. subst u'.
  destruct err as [e|]; [|congruence].
  apply snb_ret. exact Hidle.
Qed.

Lemma snb_readChunk jobSpec c isLastChunk sp :
  idle (sp_uploader sp) ->
  snb (readChunk jobSpec c isLastChunk sp)
      (fun r => idle (sp_uploader (fst (fst r)))).
Proof.
  intros Hidle. unfold readChunk.
  destruct (chunk_err c); [apply snb_ret; exact Hidle|].
  eapply snb_bind; [apply snb_streamJSON_loop; exact Hidle|].
  intros [sp' err] Hidle'. cbn [fst] in Hidle'.
  destruct err as [e|]; [|apply snb_ret; exact Hidle'].
  destruct (_ || _); apply snb_ret; exact Hidle'.
Qed.

Lemma snb_readFile jobSpec s3Obj sp :
  idle (sp_uploader sp) ->
  snb (readFile jobSpec s3Obj sp) (fun r => idle (sp_uploader (fst (fst r)))).
Proof.
  intros Hidle. unfold readFile.
  eapply snb_bind; [apply snb_writeToJobLogGroup|]. intros _ _.
  eapply snb_bind.
  - apply (snb_S3FileIterator (fun sp0 : splitter => idle (sp_uploader sp0))).
    + intros c b sp0. apply snb_readChunk.
    + exact Hidle.
  - intros [sp' err] Hidle'. cbn [fst] in Hidle'.
    destruct err; apply snb_ret; exact Hidle'.
Qed.

Lemma snb_enqueueS3FileContents jobSpec files :
  snb (enqueueS3FileContents jobSpec files) (fun r => fst r = 0).
Proof.
  unfold enqueueS3FileContents.
  eapply snb_bind with (P := fun _ => True).
  { unfold newJSONBuffer. destruct (_ <? 0); [apply snb_panic|].
    apply snb_ret. exact I. }
  intros jml _.
  eapply snb_bind.
  - apply (snb_s3IteratorFromLister (fun sp0 : splitter => idle (sp_uploader sp0))).
    + intros o sp0. apply snb_readFile.
    + apply idle_newUploader.
  - intros [sp err] Hidle. cbn [fst] in Hidle.
    destruct err as [e|]; [apply snb_ret; reflexivity|].
    eapply snb_bind.
    + instantiate (1 := fun r => idle (fst r)).
      destruct (negb _); [|apply snb_ret; exact Hidle].
      eapply snb_weaken; [apply snb_addJSONObjectsToQueue; exact Hidle|].
      intros [u' err] [Hu _]. cbn [fst] in Hu |- *. subst u'. exact Hidle.
    + intros [u' err] Hidle'. cbn [fst] in Hidle'.
      apply snb_finish. exact Hidle'.
Qed.

Lemma snb_orchestrate jobSpec submission :
  snb (orchestrate jobSpec submission) (fun r => fst r = 0).
Proof.
  unfold orchestrate.
  destruct (SubmittedItemList submission); [apply snb_enqueueItems|].
  destruct (SubmittedFilePathLister submission); [apply snb_enqueueS3Paths|].
  destruct (SubmittedDelimitedFiles submission);
    [apply snb_enqueueS3FileContents | apply snb_ret; reflexivity].
Qed.

Lemma snb_deferring {A} (m : M A) (post : A -> Prop) e :
  is_batch_send e = false ->
  sends_no_batch m post -> snb (deferring (emit e) m) post.
Proof.
  intros He Hm s. unfold deferring, emit.
  destruct (Hm s) as (evs & Htr & Hall & Hp).
  destruct (m s) as [o s1]. cbn [fst snd trace] in *.
  exists (evs ++ [e]). rewrite Htr, app_assoc. split; [reflexivity|].
  split; [|exact Hp].
  apply Forall_app. split; [exact Hall | constructor; [exact He | constructor]].
Qed.

Lemma snb_enqueue jobSpec submission :
  snb (enqueue jobSpec submission) (fun r => fst r = 0).
Proof.
  unfold enqueue.
  eapply snb_bind; [apply snb_updateLiveness|]. intros err _.
  destruct err as [e|]; [apply snb_ret; reflexivity|].
  eapply snb_bind; [apply snb_emit; reflexivity|]. intros _ _.
  apply snb_deferring; [reflexivity|].
  eapply snb_bind; [apply snb_orchestrate|].
  intros [totalBatches err] Hzero. cbn [fst] in Hzero. subst totalBatches.
  destruct err as [e|]; [apply snb_ret; reflexivity|].
  eapply snb_bind; [apply snb_RandomName|]. intros randomID _.
  eapply snb_bind; [apply snb_SendMessage|]. intros err _.
  destruct err; apply snb_ret; reflexivity.
Qed.

(** As the orchestrators build their uploader, with a map that is nil, no
    message can be queued on it: every [AddToBatch] refuses its payload or
    panics. So [enqueue] never sends a batch to SQS, whatever the
    submission and whatever the collaborators answer, and whenever it
    returns, the number of batches it reports is zero. *)
Theorem enqueue_never_sends_a_batch jobSpec submission s :
  (exists evs,
      trace (snd (enqueue jobSpec submission s)) = trace s ++ evs
      /\ Forall (fun e => is_batch_send e = false) evs)
  /\ forall n err,
       fst (enqueue jobSpec submission s) = Returned (n, err) -> n = 0.
Proof.
  destruct (snb_enqueue jobSpec submission s) as (evs & Htr & Hall & Hp).
  split; [exists evs; auto|].
  intros n err Hrun. rewrite Hrun in Hp. exact Hp.
Qed.

(** When the first liveness update fails, [enqueue] stops there: it returns
    zero batches and that error wrapped, the liveness cron is not started,
    no orchestrator runs and nothing is sent to SQS. *)
Theorem enqueue_stops_when_liveness_fails jobSpec submission s e w' :
  S3_UploadLiveness (JobKey jobSpec) (world s) = (Some e, w') ->
  enqueue jobSpec submission s =
    (Returned (0, Some (Wrapped (MsgText "failed to update liveness") e)),
     mkEnv w' (trace s ++ [EvUpdateLiveness (JobKey jobSpec) (Some e)])).
Proof.
  intros Hlive. unfold enqueue, bind, updateLiveness. rewrite Hlive.
  reflexivity.
Qed.

Lemma orchestrate_nothing jobSpec submission s :
  nothing_to_enqueue submission ->
  exists logs w',
    orchestrate jobSpec submission s
      = (Returned (0, None), mkEnv w' (trace s ++ logs))
    /\ Forall (fun e => exists k l, e = EvLog k l) logs.
Proof.
  unfold nothing_to_enqueue, orchestrate. intros Hnothing.
  destruct (SubmittedItemList submission) as [itemList|].
  { destruct Hnothing as [Hnil Hb].
    unfold enqueueItems, batchCount. rewrite Hnil.
    destruct (Z.eqb_spec (ItemListBatchSize itemList) 0) as [|_]; [contradiction|].
    change (llen []) with 0.
    rewrite Z.quot_0_l, Z.rem_0_l by assumption. cbn.
    eexists [_], _. split; [reflexivity|].
    constructor; [eexists _, _; reflexivity | constructor]. }
  destruct (SubmittedFilePathLister submission) as [lister|].
  { destruct Hnothing as [Hnil Herr].
    unfold enqueueS3Paths. rewrite Hnil, Herr. cbn.
    exists [], (world s). rewrite app_nil_r. destruct s. split; [reflexivity|].
    constructor. }
  destruct (SubmittedDelimitedFiles submission) as [files|].
  { destruct Hnothing as (Hsize & Hnil & Herr).
    unfold enqueueS3FileContents, newJSONBuffer. rewrite Hnil, Herr.
    destruct (Z.ltb_spec (FileBatchSize files) 0) as [|_]; [lia|]. cbn.
    exists [], (world s). rewrite app_nil_r. destruct s. split; [reflexivity|].
    constructor. }
  exists [], (world s). rewrite app_nil_r. destruct s. split; [reflexivity|].
  constructor.
Qed.

(** A submission with nothing to enqueue (an empty item list, a listing
    without objects, for files read by documents with a batch size that is
    not negative, or no source) still announces the end of the job: after
    the liveness update [enqueue] starts the cron, makes one call to SQS,
    the job_complete message, cancels the cron and returns zero batches,
    with the error of that call, wrapped, if it failed. *)
Theorem empty_submission_enqueues_the_sentinel_alone jobSpec submission s w0 :
  nothing_to_enqueue submission ->
  S3_UploadLiveness (JobKey jobSpec) (world s) = (None, w0) ->
  exists logs id err w',
    enqueue jobSpec submission s =
      (Returned (0, errors_Wrap err
                      (MsgText "failed to enqueue job_complete placeholder")),
       mkEnv w' (trace s ++
                   EvUpdateLiveness (JobKey jobSpec) None
                   :: EvCronRun (JobKey jobSpec)
                   :: logs ++
                   [EvSendMessage (job_complete_message jobSpec id) err;
                    EvCronCancel]))
    /\ Forall (fun e => exists k l, e = EvLog k l) logs.
Proof.
  intros Hnothing Hlive. unfold enqueue, bind, updateLiveness, deferring, emit.
  rewrite Hlive. cbn [errors_Wrap world trace].
  destruct (orchestrate_nothing jobSpec submission
              (mkEnv w0 ((trace s ++ [EvUpdateLiveness (JobKey jobSpec) None])
                         ++ [EvCronRun (JobKey jobSpec)])) Hnothing)
    as (logs & w1 & Horch & Hlogs).
  rewrite Horch. unfold RandomName, SendMessage. cbn [world trace].
  destruct (k8s_RandomName w1) as [id w2]. cbn [world trace].
  destruct (SQS_SendMessage (job_complete_message jobSpec id) w2) as [err w3].
  exists logs, id, err, w3. split; [|exact Hlogs].
  destruct err as [e|]; unfold ret; cbn [snd errors_Wrap trace];
    rewrite <- !app_assoc; reflexivity.
Qed.

Lemma enqueueItems_loop_refused k i jobSpec itemList uploader s lo hi items body :
  slice_bounds itemList i = (lo, hi) ->
  slice (Items itemList) lo hi = Some items ->
  json_Marshal_raw items = inl body ->
  _messageSizeLimit < len body ->
  enqueueItems_loop (S k) i jobSpec itemList uploader s =
    (Returned (uploader,
               Some (Wrapped (if ItemListBatchSize itemList >? 1
                              then MsgItem i else MsgItemsBetween lo hi)
                             (ErrorMessageExceedsMaxSize (len body)
                                                         _messageSizeLimit))),
     mkEnv (snd (random_String 40 (world s)))
           (trace s ++ [EvAddToBatch (fst (random_String 40 (world s))) body])).
Proof.
  intros Hb Hs Hm Hbig. cbn [enqueueItems_loop]. rewrite Hb, Hs, Hm.
  unfold bind, randomID, randomString.
  destruct (random_String 40 (world s)) as [id w1]. cbn [fst snd].
  unfold AddToBatch, bind, emit, ret. cbn [world trace].
  destruct (Z.gtb_spec (len body) _messageSizeLimit); [|lia].
  destruct (ItemListBatchSize itemList >? 1); reflexivity.
Qed.

(** What [enqueueItems] returns when its first batch cannot go: zero
    batches and an error that names the batch. If [json.Marshal] fails on the
    first slice, this is its error wrapped as batch 0; if the marshalled
    slice is longer than the ceiling, it is the size error, wrapped as item 0
    when the batch size is above one and as the items between 0 and 1 when it
    is one. Only the log line of the partitioning has been written, and
    nothing has been sent. *)
Theorem enqueueItems_names_the_refused_batch jobSpec itemList s :
  0 < ItemListBatchSize itemList ->
  Items itemList <> [] ->
  let first := take (Z.to_nat (ItemListBatchSize itemList)) (Items itemList) in
  let log := LogPartitioning (llen (Items itemList)) (batchCount itemList)
                             (ItemListBatchSize itemList) in
  let s1 := mkEnv (CloudWatch_write (JobKey jobSpec) log (world s))
                  (trace s ++ [EvLog (JobKey jobSpec) log]) in
  match json_Marshal_raw first with
  | inr e =>
      enqueueItems jobSpec itemList s =
        (Returned (0, Some (Wrapped (MsgBatch 0) (MarshalerError e))), s1)
  | inl body =>
      _messageSizeLimit < len body ->
      enqueueItems jobSpec itemList s =
        (Returned (0, Some (Wrapped (if ItemListBatchSize itemList >? 1
                                     then MsgItem 0 else MsgItemsBetween 0 1)
                                    (ErrorMessageExceedsMaxSize (len body)
                                       _messageSizeLimit))),
         mkEnv (snd (random_String 40 (world s1)))
               (trace s1 ++ [EvAddToBatch (fst (random_String 40 (world s1))) body]))
  end.
Proof.
  intros Hpos Hne first log s1.
  assert (Hlen : 0 < llen (Items itemList)).
  { unfold llen. destruct (Items itemList); [congruence | cbn; lia]. }
  destruct (batchCount_spec itemList Hpos) as (_ & Hnn & Hcover & _).
  assert (Hk : exists k, Z.to_nat (batchCount itemList) = S k).
  { exists (Z.to_nat (batchCount itemList) - 1)%nat. nia. }
  destruct Hk as [k Hk].
  pose proof (item_slice_take itemList 0 Hpos (Z.le_refl 0)) as Hslice.
  rewrite Z.mul_0_l in Hslice. specialize (Hslice Hlen).
  change (drop (Z.to_nat 0 * Z.to_nat (ItemListBatchSize itemList))
               (Items itemList)) with (Items itemList) in Hslice.
  fold first in Hslice. unfold item_slice in Hslice.
  destruct (slice_bounds itemList 0) as [lo hi] eqn:Hb.
  unfold enqueueItems.
  destruct (Z.eqb_spec (ItemListBatchSize itemList) 0) as [|_]; [lia|].
  unfold bind at 1. unfold writeToJobLogGroup at 1. fold log. fold s1.
  rewrite Hk. unfold bind at 1.
  destruct (json_Marshal_raw first) as [body|e] eqn:Hm.
  - intros Hbig.
    rewrite (enqueueItems_loop_refused k 0 jobSpec itemList (newUploader jobSpec)
               s1 lo hi first body Hb Hslice Hm Hbig).
    unfold ret. do 3 f_equal.
    destruct (Z.gtb_spec (ItemListBatchSize itemList) 1) as [|Hone];
      [reflexivity|].
    assert (Hsize : ItemListBatchSize itemList = 1) by lia.
    unfold slice_bounds in Hb. rewrite Hsize in Hb.
    change ((0 + 1) * 1) with 1 in Hb. change (0 * 1) with 0 in Hb.
    destruct (Z.gtb_spec 1 (llen (Items itemList))); [lia|].
    injection Hb as <- <-. reflexivity.
  - cbn [enqueueItems_loop]. rewrite Hb, Hslice, Hm. reflexivity.
Qed.

(** A batch size below zero. [enqueueItems] then queues nothing: with no
    items, or with at least as many items as the size of the batch size, the
    count of batches it computes is not positive, and it returns zero
    batches without an error, the items dropped; with fewer items it takes
    the slice from 0 to the batch size and panics on its bounds. *)
Theorem enqueueItems_with_negative_batch_size jobSpec itemList s :
  ItemListBatchSize itemList < 0 ->
  let n := llen (Items itemList) in
  let log := LogPartitioning n (batchCount itemList)
                             (ItemListBatchSize itemList) in
  enqueueItems jobSpec itemList s =
    (if (0 <? n) && (n <? - ItemListBatchSize itemList)
     then Panicked "slice bounds out of range"
     else Returned (0, None),
     mkEnv (CloudWatch_write (JobKey jobSpec) log (world s))
           (trace s ++ [EvLog (JobKey jobSpec) log])).
Proof.
  intros Hneg n log.
  assert (Hn : 0 <= n) by (unfold n, llen; lia).
  unfold enqueueItems.
  destruct (Z.eqb_spec (ItemListBatchSize itemList) 0) as [|_]; [lia|].
  unfold bind at 1. unfold writeToJobLogGroup at 1. fold n. fold log.
  set (b := - ItemListBatchSize itemList).
  assert (Hb : ItemListBatchSize itemList = - b) by (unfold b; lia).
  assert (Hbpos : 0 < b) by (unfold b; lia).
  assert (Hcount : batchCount itemList
                   = if n mod b =? 0 then - (n / b) else - (n / b) + 1).
  { unfold batchCount. fold n. rewrite Hb.
    rewrite Z.quot_opp_r, Z.rem_opp_r by lia.
    rewrite Z.quot_div_nonneg, Z.rem_mod_nonneg by lia. reflexivity. }
  destruct (Z.ltb_spec 0 n) as [Hsome|Hnone];
    [destruct (Z.ltb_spec n b) as [Hfew|Hmany]|]; cbn [andb].
  - (* fewer items than the size: one iteration, which panics *)
    assert (Hone : Z.to_nat (batchCount itemList) = 1%nat).
    { rewrite Hcount, Z.div_small, Z.mod_small by lia.
      destruct (Z.eqb_spec n 0); [lia | reflexivity]. }
    rewrite Hone. unfold bind at 1. cbn [enqueueItems_loop].
    unfold slice_bounds. fold n. rewrite Hb.
    replace ((0 + 1) * - b) with (- b) by lia. rewrite Z.mul_0_l.
    destruct (Z.gtb_spec (- b) n); [lia|].
    unfold slice. destruct (Z.leb_spec 0 (- b)); [lia|]. reflexivity.
  - assert (Hzero : Z.to_nat (batchCount itemList) = O).
    { rewrite Hcount.
      assert (1 <= n / b) by (apply Z.div_le_lower_bound; lia).
      destruct (n mod b =? 0); lia. }
    rewrite Hzero. reflexivity.
  - assert (Hzero : Z.to_nat (batchCount itemList) = O).
    { rewrite Hcount. replace n with 0 by lia. reflexivity. }
    rewrite Hzero. reflexivity.
Qed.

(** ** Batches of paths and of documents *)

Lemma enqueueS3Paths_collects jobSpec lister :
  enqueueS3Paths jobSpec lister =
  bind (s3IteratorFromLister (listed (PathLister lister))
          (listing_err (PathLister lister))
          (collectS3Path jobSpec (PathBatchSize lister))
          ([], newUploader jobSpec))
       (fun r =>
          let '((s3PathList, uploader), err) := r in
          match err with
          | Some e => ret (0, Some e)
          | None =>
              bind (if 0 <? llen s3PathList
                    then addS3PathsToQueue uploader s3PathList
                    else ret (uploader, None))
                   (fun r =>
                      let '(uploader, err) := r in
                      match err with
                      | Some e => ret (0, Some e)
                      | None =>
                          bind (Flush uploader) (fun r =>
                            let '(uploader, err) := r in
                            match err with
                            | Some e => ret (0, Some e)
                            | None => ret (TotalBatches uploader, None)
                            end)
                      end)
          end).
Proof. reflexivity. Qed.

(** One list of paths handed to the uploader: one call of [AddToBatch] with
    the marshalled list, or none when [json.Marshal] fails. *)
Lemma addS3PathsToQueue_adds uploader paths s :
  exists o w' evs,
    addS3PathsToQueue uploader paths s = (o, mkEnv w' (trace s ++ evs))
    /\ o <> OutOfFuel
    /\ match json_Marshal_strings paths with
       | inl body => add_bodies evs = [body]
       | inr _ => add_bodies evs = [] /\ forall u', o <> Returned (u', None)
       end.
Proof.
  unfold addS3PathsToQueue.
  destruct (json_Marshal_strings paths) as [body|e].
  - unfold bind, randomID, randomString.
    destruct (random_String 40 (world s)) as [id w1].
    destruct (AddToBatch_trace id body uploader (mkEnv w1 (trace s)))
      as (o & w2 & evs & Heq & Hall & Hfuel).
    rewrite Heq. cbn [trace]. eexists o, w2, _. split; [reflexivity|].
    split; [exact Hfuel|]. cbn [add_bodies].
    rewrite (add_bodies_sends _ _ Hall). reflexivity.
  - exists (Returned (uploader, errors_Wrap (Some (MarshalerError e))
                                 (MsgBatch (TotalBatches uploader)))),
      (world s), [].
    unfold ret. rewrite app_nil_r. destruct s. split; [reflexivity|].
    split; [discriminate|]. split; [reflexivity|]. intros u'. discriminate.
Qed.

Lemma addJSONObjectsToQueue_adds uploader jml s :
  exists o w' evs,
    addJSONObjectsToQueue uploader jml s = (o, mkEnv w' (trace s ++ evs))
    /\ o <> OutOfFuel
    /\ match json_Marshal_raw (bufferedMessages jml) with
       | inl body => add_bodies evs = [body]
       | inr _ => add_bodies evs = [] /\ forall u', o <> Returned (u', None)
       end.
Proof.
  unfold addJSONObjectsToQueue.
  destruct (json_Marshal_raw (bufferedMessages jml)) as [body|e].
  - unfold bind, randomID, randomString.
    destruct (random_String 40 (world s)) as [id w1].
    destruct (AddToBatch_trace id body uploader (mkEnv w1 (trace s)))
      as (o & w2 & evs & Heq & Hall & Hfuel).
    rewrite Heq. cbn [trace]. eexists o, w2, _. split; [reflexivity|].
    split; [exact Hfuel|]. cbn [add_bodies].
    rewrite (add_bodies_sends _ _ Hall). reflexivity.
  - exists (Returned (uploader, Some (MarshalerError e))), (world s), [].
    unfold ret. rewrite app_nil_r. destruct s. split; [reflexivity|].
    split; [discriminate|]. split; [reflexivity|]. intros u'. discriminate.
Qed.

(** The paths of a listing go to the uploader in batches of the batch size,
    in the order of the listing. Over any listing, from any uploader and any
    paths collected before (fewer than the batch size), the calls of
    [AddToBatch] are made, in order, with the marshalled lists of
    consecutive paths, each list of exactly the batch size; the lists handed
    over are a prefix of the paths, and when the iteration ends without
    error they are followed by the paths still waiting, fewer than the batch
    size, for the last batch. *)
Theorem paths_are_batched_in_listing_order
    jobSpec B objects listing pending uploader s o s' :
  0 < B ->
  llen pending < B ->
  s3IteratorFromLister objects listing (collectS3Path jobSpec B)
                       (pending, uploader) s = (o, s') ->
  exists groups bodies,
    add_bodies (trace s') = add_bodies (trace s) ++ bodies
    /\ Forall2 marshals_paths groups bodies
    /\ Forall (fun g => llen g = B) groups
    /\ (exists rest, concat groups ++ rest = pending ++ s3Paths objects)
    /\ forall pending' u',
         o = Returned ((pending', u'), None) ->
         concat groups ++ pending' = pending ++ s3Paths objects
         /\ llen pending' < B.
Proof.
  intros Hpos. revert pending uploader s.
  induction objects as [|obj rest IH]; intros pending uploader s Hfew Hrun.
  - cbn in Hrun. unfold ret in Hrun. injection Hrun as <- <-.
    exists [], []. rewrite !app_nil_r. cbn.
    split; [reflexivity|]. split; [constructor|]. split; [constructor|].
    split; [exists pending; reflexivity|].
    intros pending' u' Heq. injection Heq as <- _ _. auto.
  - cbn [s3IteratorFromLister] in Hrun. unfold bind at 1 in Hrun.
    cbn [s3Paths map]. fold (s3Paths rest).
    set (path := S3Path (Bucket obj) (Key obj)) in *.
    unfold collectS3Path at 1 in Hrun. fold path in Hrun.
    destruct (Z.eqb_spec (llen (pending ++ [path])) B) as [Hfull|Hnot].
    + unfold bind at 1 in Hrun.
      destruct (addS3PathsToQueue_adds uploader (pending ++ [path]) s)
        as (o1 & w1 & evs & Heq & Hfuel & Hadd).
      rewrite Heq in Hrun.
      destruct (json_Marshal_strings (pending ++ [path])) as [body|e] eqn:Hm.
      * assert (Hstop : (o, s') = (o, mkEnv w1 (trace s ++ evs)) ->
                  exists groups bodies,
                    add_bodies (trace s') = add_bodies (trace s) ++ bodies
                    /\ Forall2 marshals_paths groups bodies
                    /\ Forall (fun g => llen g = B) groups
                    /\ (exists rest0,
                           concat groups ++ rest0 = pending ++ path :: s3Paths rest)).
        { intros Hs. injection Hs as ->.
          exists [pending ++ [path]], [body]. cbn [trace concat].
          rewrite add_bodies_app, Hadd.
          split; [reflexivity|].
          split; [constructor; [exact Hm | constructor]|].
          split; [constructor; [exact Hfull | constructor]|].
          exists (s3Paths rest). rewrite app_nil_r, <- app_assoc. reflexivity. }
        destruct o1 as [[u1 [e|]]| |]; [| | |congruence].
        -- unfold ret in Hrun. injection Hrun as <- <-.
           destruct (Hstop eq_refl) as (groups & bodies & H1 & H2 & H3 & H4).
           exists groups, bodies. repeat (split; [assumption|]).
           intros pending' u' Habs. discriminate.
        -- unfold bind at 1 in Hrun.
           destruct (logProgress_unfold jobSpec u1 (mkEnv w1 (trace s ++ evs)))
             as (w2 & logs & Hlog & Hlogs).
           rewrite Hlog in Hrun. unfold ret at 1 in Hrun.
           cbn [trace] in Hrun.
           assert (Hnil : llen (@nil string) < B) by exact Hpos.
           destruct (IH _ _ _ Hnil Hrun)
             as (groups & bodies & Hb & Hf & Hg & (rest0 & Hpre) & Hdone).
           exists ((pending ++ [path]) :: groups), (body :: bodies).
           cbn [trace] in Hb.
           rewrite Hb, !add_bodies_app, Hadd, (add_bodies_logs _ Hlogs),
             app_nil_r, <- app_assoc.
           split; [reflexivity|].
           split; [constructor; [exact Hm | exact Hf]|].
           split; [constructor; [exact Hfull | exact Hg]|].
           cbn [concat]. split.
           ++ exists rest0. rewrite <- !app_assoc. cbn [app].
              rewrite Hpre. reflexivity.
           ++ intros pending' u' Ho. destruct (Hdone _ _ Ho) as [Hc Hl].
              split; [|exact Hl]. rewrite <- !app_assoc. cbn [app].
              rewrite Hc. reflexivity.
        -- injection Hrun as <- <-.
           destruct (Hstop eq_refl) as (groups & bodies & H1 & H2 & H3 & H4).
           exists groups, bodies. repeat (split; [assumption|]).
           intros pending' u' Habs. discriminate.
      * destruct Hadd as [Hadd Herr].
        assert (Hs : add_bodies (trace s') = add_bodies (trace s)
                     /\ forall pending' u', o <> Returned ((pending', u'), None)).
        { destruct o1 as [[u1 [e1|]]| |]; [| | |congruence].
          - unfold ret in Hrun. injection Hrun as <- <-. cbn [trace].
            rewrite add_bodies_app, Hadd, app_nil_r. split; [reflexivity|].
            intros ? ?. discriminate.
          - exfalso. exact (Herr u1 eq_refl).
          - injection Hrun as <- <-. cbn [trace].
            rewrite add_bodies_app, Hadd, app_nil_r. split; [reflexivity|].
            intros ? ?. discriminate. }
        destruct Hs as [Hs Hno]. exists [], []. rewrite app_nil_r.
        split; [exact Hs|]. split; [constructor|]. split; [constructor|].
        split; [eexists; reflexivity|].
        intros pending' u' Ho. destruct (Hno _ _ Ho).
    + unfold ret at 1 in Hrun.
      assert (Hfew' : llen (pending ++ [path]) < B).
      { rewrite llen_app in *. unfold llen in *. cbn in *. lia. }
      destruct (IH _ _ _ Hfew' Hrun)
        as (groups & bodies & Hb & Hf & Hg & (rest0 & Hpre) & Hdone).
      exists groups, bodies. repeat (split; [assumption|]).
      rewrite <- app_assoc in Hpre. cbn [app] in Hpre.
      split; [exists rest0; exact Hpre|].
      intros pending' u' Ho. destruct (Hdone _ _ Ho) as [Hc Hl].
      rewrite <- app_assoc in Hc. auto.
Qed.

Lemma collectS3Path_never_full jobSpec B objects listing pending uploader s :
  B <= 0 ->
  s3IteratorFromLister objects listing (collectS3Path jobSpec B)
                       (pending, uploader) s
    = (Returned ((pending ++ s3Paths objects, uploader), listing), s).
Proof.
  intros Hle. revert pending.
  induction objects as [|obj rest IH]; intros pending.
  - cbn. rewrite app_nil_r. reflexivity.
  - cbn [s3IteratorFromLister]. unfold bind, collectS3Path at 1.
    destruct (Z.eqb_spec (llen (pending ++ [S3Path (Bucket obj) (Key obj)])) B)
      as [Hfull|_].
    { rewrite llen_app in Hfull. unfold llen in Hfull. cbn in Hfull. lia. }
    unfold ret at 1. rewrite IH, <- app_assoc. reflexivity.
Qed.

(** A batch size of zero or less. The list of paths then never reaches the
    batch size, so no batch is handed over during the listing, and after a
    listing without error [enqueueS3Paths] hands every path to the uploader
    in one call of [AddToBatch] (none when there is no path, or when
    [json.Marshal] fails). *)
Theorem paths_go_in_one_batch_without_batch_size jobSpec lister s :
  PathBatchSize lister <= 0 ->
  listing_err (PathLister lister) = None ->
  add_bodies (trace (snd (enqueueS3Paths jobSpec lister s)))
    = add_bodies (trace s)
      ++ match s3Paths (listed (PathLister lister)) with
         | [] => []
         | paths =>
             match json_Marshal_strings paths with
             | inl body => [body]
             | inr _ => []
             end
         end.
Proof.
  intros Hle Hlisting. rewrite enqueueS3Paths_collects. unfold bind at 1.
  rewrite (collectS3Path_never_full _ _ _ _ [] _ _ Hle), Hlisting.
  cbn [app]. set (paths := s3Paths (listed (PathLister lister))).
  assert (Hcase : (0 <? llen paths) = if paths is [] then false else true).
  { destruct paths; reflexivity. }
  rewrite Hcase. clear Hcase.
  destruct paths as [|p0 paths'] eqn:Hp.
  { cbn. rewrite app_nil_r. reflexivity. }
  rewrite <- Hp. clear Hp. unfold bind at 1.
  destruct (addS3PathsToQueue_adds (newUploader jobSpec) paths s)
    as (o1 & w1 & evs & Heq & Hfuel & Hadd).
  rewrite Heq.
  assert (Hevs : add_bodies evs = match json_Marshal_strings paths with
                                  | inl body => [body]
                                  | inr _ => []
                                  end).
  { destruct (json_Marshal_strings paths); [exact Hadd | exact (proj1 Hadd)]. }
  rewrite <- Hevs.
  destruct o1 as [[u1 [e|]]| |]; [| | |congruence]; cbn [snd trace].
  - apply add_bodies_app.
  - unfold bind.
    destruct (Flush_spec u1 (mkEnv w1 (trace s ++ evs)))
      as (u2 & err & w2 & sends & HF & Hall & _).
    rewrite HF. destruct err; unfold ret; cbn [snd trace];
      rewrite !add_bodies_app, (add_bodies_sends _ _ Hall), app_nil_r;
      reflexivity.
  - apply add_bodies_app.
Qed.

(** What handling one more document does to the documents that wait. *)
Lemma feed_batches jobSpec B docs uploader jml idx s o s' :
  0 < B ->
  BatchSize jml = B ->
  llen (bufferedMessages jml) < B ->
  feed jobSpec docs (uploader, jml, idx) s = (o, s') ->
  exists groups bodies,
    add_bodies (trace s') = add_bodies (trace s) ++ bodies
    /\ Forall2 marshals groups bodies
    /\ Forall (fun g => llen g = B) groups
    /\ (exists rest, concat groups ++ rest = bufferedMessages jml ++ docs)
    /\ forall u' jml' idx',
         o = Returned ((u', jml', idx'), None) ->
         concat groups ++ bufferedMessages jml' = bufferedMessages jml ++ docs
         /\ llen (bufferedMessages jml') < B
         /\ BatchSize jml' = B
         /\ idx' = idx + llen docs.
Proof.
  intros Hpos. revert uploader jml idx s.
  induction docs as [|doc rest IH]; intros uploader jml idx s Hsize Hfew Hrun.
  - cbn in Hrun. unfold ret in Hrun. injection Hrun as <- <-.
    exists [], []. rewrite !app_nil_r. cbn.
    split; [reflexivity|]. split; [constructor|]. split; [constructor|].
    split; [exists (bufferedMessages jml); reflexivity|].
    intros u' jml' idx' Heq. injection Heq as <- <- <-.
    change (llen []) with 0. repeat split; [assumption.. | lia].
  - cbn [feed] in Hrun. unfold bind at 1 in Hrun.
    unfold handle_document at 1 in Hrun.
    destruct (llen doc >? _messageSizeLimit).
    { unfold ret in Hrun. cbn [fst snd] in Hrun. injection Hrun as <- <-.
      exists [], []. rewrite app_nil_r.
      split; [reflexivity|]. split; [constructor|]. split; [constructor|].
      split; [eexists; reflexivity|].
      intros u' jml' idx' Habs. discriminate. }
    unfold jsonBuffer_Length, jsonBuffer_Add in Hrun.
    cbn [bufferedMessages BatchSize] in Hrun. rewrite Hsize in Hrun.
    destruct (Z.eqb_spec (llen (bufferedMessages jml ++ [doc])) B)
      as [Hfull|Hnot].
    + unfold bind at 1 in Hrun.
      destruct (addJSONObjectsToQueue_adds uploader
                  (mkJSONBuffer B (bufferedMessages jml ++ [doc])) s)
        as (o1 & w1 & evs & Heq & Hfuel & Hadd).
      rewrite Heq in Hrun. cbn [bufferedMessages] in Hadd.
      destruct (json_Marshal_raw (bufferedMessages jml ++ [doc]))
        as [body|e] eqn:Hm.
      * assert (Hstop : (o, s') = (o, mkEnv w1 (trace s ++ evs)) ->
                  exists groups bodies,
                    add_bodies (trace s') = add_bodies (trace s) ++ bodies
                    /\ Forall2 marshals groups bodies
                    /\ Forall (fun g => llen g = B) groups
                    /\ (exists rest0,
                           concat groups ++ rest0
                           = bufferedMessages jml ++ doc :: rest)).
        { intros Hs. injection Hs as ->.
          exists [bufferedMessages jml ++ [doc]], [body]. cbn [trace concat].
          rewrite add_bodies_app, Hadd.
          split; [reflexivity|].
          split; [constructor; [exact Hm | constructor]|].
          split; [constructor; [exact Hfull | constructor]|].
          exists rest. rewrite app_nil_r, <- app_assoc. reflexivity. }
        destruct o1 as [[u1 [e|]]| |]; [| | |congruence].
        -- unfold ret in Hrun. cbn [fst snd] in Hrun. injection Hrun as <- <-.
           destruct (Hstop eq_refl) as (groups & bodies & H1 & H2 & H3 & H4).
           exists groups, bodies. repeat (split; [assumption|]).
           intros u' jml' idx' Habs. discriminate.
        -- unfold bind at 1 in Hrun.
           destruct (logProgress_unfold jobSpec u1 (mkEnv w1 (trace s ++ evs)))
             as (w2 & logs & Hlog & Hlogs).
           rewrite Hlog in Hrun. unfold ret at 1 in Hrun.
           cbn [fst snd trace] in Hrun. unfold jsonBuffer_Clear in Hrun.
           cbn [BatchSize] in Hrun.
           destruct (IH u1 (mkJSONBuffer B []) (idx + 1) _ eq_refl Hpos Hrun)
             as (groups & bodies & Hb & Hf & Hg & (rest0 & Hpre) & Hdone).
           exists ((bufferedMessages jml ++ [doc]) :: groups), (body :: bodies).
           cbn [trace bufferedMessages] in Hb, Hpre, Hdone.
           rewrite Hb, !add_bodies_app, Hadd, (add_bodies_logs _ Hlogs),
             app_nil_r, <- app_assoc.
           split; [reflexivity|].
           split; [constructor; [exact Hm | exact Hf]|].
           split; [constructor; [exact Hfull | exact Hg]|].
           cbn [concat]. split.
           ++ exists rest0. rewrite <- !app_assoc. cbn [app].
              rewrite Hpre. reflexivity.
           ++ intros u' jml' idx' Ho.
              destruct (Hdone _ _ _ Ho) as (Hc & Hl & Hs & Hi).
              split; [|split; [exact Hl|split; [exact Hs|]]].
              ** rewrite <- !app_assoc. cbn [app]. rewrite Hc. reflexivity.
              ** rewrite Hi. unfold llen. cbn [length]. lia.
        -- cbn [fst snd] in Hrun. injection Hrun as <- <-.
           destruct (Hstop eq_refl) as (groups & bodies & H1 & H2 & H3 & H4).
           exists groups, bodies. repeat (split; [assumption|]).
           intros u' jml' idx' Habs. discriminate.
      * destruct Hadd as [Hadd Herr].
        assert (Hs : add_bodies (trace s') = add_bodies (trace s)
                     /\ forall st', o <> Returned (st', None)).
        { destruct o1 as [[u1 [e1|]]| |]; [| | |congruence].
          - unfold ret in Hrun. cbn [fst snd] in Hrun.
            injection Hrun as <- <-. cbn [trace].
            rewrite add_bodies_app, Hadd, app_nil_r. split; [reflexivity|].
            intros ?. discriminate.
          - exfalso. exact (Herr u1 eq_refl).
          - cbn [fst snd] in Hrun. injection Hrun as <- <-. cbn [trace].
            rewrite add_bodies_app, Hadd, app_nil_r. split; [reflexivity|].
            intros ?. discriminate. }
        destruct Hs as [Hs Hno]. exists [], []. rewrite app_nil_r.
        split; [exact Hs|]. split; [constructor|]. split; [constructor|].
        split; [eexists; reflexivity|].
        intros u' jml' idx' Ho. destruct (Hno _ Ho).
    + unfold ret at 1 in Hrun. cbn [fst snd] in Hrun.
      assert (Hfew' : llen (bufferedMessages jml ++ [doc]) < B).
      { rewrite llen_app in *. unfold llen in *. cbn in *. lia. }
      destruct (IH uploader (mkJSONBuffer B (bufferedMessages jml ++ [doc]))
                   (idx + 1) s eq_refl Hfew' Hrun)
        as (groups & bodies & Hb & Hf & Hg & (rest0 & Hpre) & Hdone).
      cbn [bufferedMessages] in Hpre, Hdone.
      exists groups, bodies. repeat (split; [assumption|]).
      rewrite <- app_assoc in Hpre. cbn [app] in Hpre.
      split; [exists rest0; exact Hpre|].
      intros u' jml' idx' Ho.
      destruct (Hdone _ _ _ Ho) as (Hc & Hl & Hs & Hi).
      rewrite <- app_assoc in Hc. cbn [app] in Hc.
      repeat (split; [assumption|]). rewrite Hi. unfold llen. cbn [length]. lia.
Qed.

(** The documents [streamJSONToQueue] decodes from its buffer go to the
    uploader in batches of the batch size, in the order of the stream. The
    calls of [AddToBatch] are made with the marshalled lists of consecutive
    documents, the documents that waited before first, each list of exactly
    the batch size; and when the buffer has been read to its end, or to an
    incomplete document, the documents not handed over, fewer than the batch
    size, wait in the buffer of documents, and the count of documents has
    grown by the number of documents read. *)
Theorem documents_are_batched_in_stream_order jobSpec sp s o s' :
  0 < BatchSize (jsonMessageList sp) ->
  llen (bufferedMessages (jsonMessageList sp)) < BatchSize (jsonMessageList sp) ->
  streamJSONToQueue jobSpec sp s = (o, s') ->
  exists groups bodies,
    add_bodies (trace s') = add_bodies (trace s) ++ bodies
    /\ Forall2 marshals groups bodies
    /\ Forall (fun g => llen g = BatchSize (jsonMessageList sp)) groups
    /\ (exists rest,
           concat groups ++ rest
           = bufferedMessages (jsonMessageList sp)
             ++ fst (json.documents (bytesBuffer sp)))
    /\ forall sp' err,
         o = Returned (sp', err) ->
         err = None \/ err = Some ErrUnexpectedEOF ->
         concat groups ++ bufferedMessages (jsonMessageList sp')
           = bufferedMessages (jsonMessageList sp)
             ++ fst (json.documents (bytesBuffer sp))
         /\ llen (bufferedMessages (jsonMessageList sp'))
            < BatchSize (jsonMessageList sp)
         /\ BatchSize (jsonMessageList sp') = BatchSize (jsonMessageList sp)
         /\ itemIndex sp'
            = itemIndex sp + llen (fst (json.documents (bytesBuffer sp))).
Proof.
  intros Hpos Hfew Hrun. unfold streamJSONToQueue in Hrun.
  destruct (streamJSON_loop_feed (S (length (bytesBuffer sp))) jobSpec
              (bytesBuffer sp) (sp_uploader sp) (jsonMessageList sp)
              (itemIndex sp) s (Nat.lt_succ_diag_r _)) as [buf Heq].
  rewrite Heq in Hrun. clear Heq.
  destruct (json.documents (bytesBuffer sp)) as [docs e] eqn:Hdocs.
  cbn [fst snd] in *.
  destruct (feed jobSpec docs (sp_uploader sp, jsonMessageList sp, itemIndex sp) s)
    as [o1 s1] eqn:Hfeed.
  cbn [fst snd] in Hrun. injection Hrun as <- <-.
  destruct (feed_batches _ _ _ _ _ _ _ _ _ Hpos eq_refl Hfew Hfeed)
    as (groups & bodies & Hb & Hf & Hg & Hpre & Hdone).
  exists groups, bodies. repeat (split; [assumption|]).
  intros sp' err Ho Herr.
  destruct o1 as [[[[u1 jml1] idx1] [e1|]]| |]; cbn [stream_result] in Ho;
    try discriminate.
  - injection Ho as <- <-.
    pose proof (feed_error _ _ _ _ _ _ _ Hfeed) as Hne.
    destruct Herr as [Herr|Herr]; [discriminate|].
    injection Herr as ->. discriminate.
  - assert (Hsp : jsonMessageList sp' = jml1 /\ itemIndex sp' = idx1).
    { destruct e as [|t|e0]; injection Ho as <- _; auto. }
    destruct Hsp as [-> ->]. exact (Hdone _ _ _ eq_refl).
Qed.

Lemma Decode_nothing ws :
  json.nonSpace ws = false -> json.Decode ws = json.DecEOF.
Proof.
  intros Hws. rewrite <- (app_nil_r ws), (Decode_spaces ws [] Hws).
  reflexivity.
Qed.

(** Documents written one after the other are read back as they were
    written: the decoding loop yields exactly these documents, in order,
    and meets no number at the top level. *)
Lemma delimited_documents lead items :
  json.nonSpace lead = false ->
  Forall (fun it => whole_document (fst it) /\ json.nonSpace (snd it) = false)
         items ->
  json.documents (lead ++ delimited items) = (map fst items, json.EndClean)
  /\ json.no_top_level_number (lead ++ delimited items).
Proof.
  intros Hlead Hitems. revert lead Hlead.
  induction Hitems as [|[doc delimiter] rest [[Hdoc Hnum] Hdel] _ IH];
    intros lead Hlead.
  - cbn [delimited]. rewrite app_nil_r. split.
    + rewrite documents_unfold, (Decode_nothing _ Hlead). reflexivity.
    + apply no_top_level_number_unfold.
      rewrite (Decode_nothing _ Hlead). split; [|exact I].
      unfold json.starts_number.
      rewrite <- (app_nil_r lead), (skipSpace_spaces lead [] Hlead).
      reflexivity.
  - cbn [delimited fst snd map] in *.
    destruct (IH delimiter Hdel) as [IHdocs IHfree].
    assert (Hdec : json.Decode (lead ++ doc ++ delimiter ++ delimited rest)
                   = json.DecValue doc (delimiter ++ delimited rest)).
    { rewrite (Decode_spaces lead _ Hlead).
      exact (Decode_extend doc (delimiter ++ delimited rest) doc [] Hdoc Hnum). }
    split.
    + rewrite documents_unfold, Hdec, IHdocs. reflexivity.
    + apply no_top_level_number_unfold. rewrite Hdec.
      split; [|exact IHfree].
      unfold json.starts_number. rewrite (skipSpace_spaces lead _ Hlead).
      fold (json.starts_number (doc ++ delimiter ++ delimited rest)).
      rewrite starts_number_app; [exact Hnum|].
      exact (Decode_value_nonSpace _ _ _ Hdoc).
Qed.

(** A file of delimited documents, none of them a bare number, is batched
    by document however it is cut in parts. When the parts of a file, read
    without error, make up documents that each stand whole and are followed
    by white space or nothing, the iteration over the parts hands to
    [AddToBatch], in order, the marshalled lists of consecutive documents
    of the file (after the documents that waited), each list of exactly the
    batch size; and when the iteration ends without error the byte buffer
    is empty, the documents not handed over, fewer than the batch size, wait
    for the next file or for the last batch, and the count of documents is
    the number of documents of the file. *)
Theorem delimited_file_is_batched_by_document
    jobSpec chunks sp s lead items o s' :
  Forall (fun c => chunk_err c = None) chunks ->
  bytesBuffer sp = [] ->
  stream_of chunks = lead ++ delimited items ->
  json.nonSpace lead = false ->
  Forall (fun it => whole_document (fst it) /\ json.nonSpace (snd it) = false)
         items ->
  0 < BatchSize (jsonMessageList sp) ->
  llen (bufferedMessages (jsonMessageList sp)) < BatchSize (jsonMessageList sp) ->
  S3FileIterator chunks (readChunk jobSpec) sp s = (o, s') ->
  exists groups bodies,
    add_bodies (trace s') = add_bodies (trace s) ++ bodies
    /\ Forall2 marshals groups bodies
    /\ Forall (fun g => llen g = BatchSize (jsonMessageList sp)) groups
    /\ (exists rest,
           concat groups ++ rest
           = bufferedMessages (jsonMessageList sp) ++ map fst items)
    /\ forall sp',
         o = Returned (sp', None) ->
         concat groups ++ bufferedMessages (jsonMessageList sp')
           = bufferedMessages (jsonMessageList sp) ++ map fst items
         /\ llen (bufferedMessages (jsonMessageList sp'))
            < BatchSize (jsonMessageList sp)
         /\ bytesBuffer sp' = []
         /\ itemIndex sp' = itemIndex sp + llen items.
Proof.
  intros Hreads Hbuf Hstream Hlead Hitems Hpos Hfew Hrun.
  destruct (delimited_documents lead items Hlead Hitems) as [Hdocs Hfree].
  destruct (S3FileIterator_feed jobSpec chunks sp s (map fst items) Hreads)
    as [buf Heq].
  - rewrite Hbuf, Hstream. exact Hdocs.
  - rewrite Hbuf, Hstream. exact Hfree.
  - intros _. exact Hbuf.
  - rewrite Heq in Hrun. clear Heq. unfold splitter_state in Hrun.
    destruct (feed jobSpec (map fst items)
                (sp_uploader sp, jsonMessageList sp, itemIndex sp) s)
      as [o1 s1] eqn:Hfeed.
    cbn [fst snd] in Hrun. injection Hrun as <- <-.
    destruct (feed_batches _ _ _ _ _ _ _ _ _ Hpos eq_refl Hfew Hfeed)
      as (groups & bodies & Hb & Hf & Hg & Hpre & Hdone).
    exists groups, bodies. repeat (split; [assumption|]).
    intros sp' Ho.
    destruct o1 as [[[[u1 jml1] idx1] [e1|]]| |]; cbn [file_result] in Ho;
      try discriminate.
    injection Ho as <-. cbn [jsonMessageList bytesBuffer itemIndex].
    destruct (Hdone _ _ _ eq_refl) as (Hc & Hl & _ & Hi).
    repeat (split; [assumption || reflexivity|]).
    rewrite Hi. unfold llen. rewrite length_map. reflexivity.
Qed.

(** ** The size check of the splitter *)

Lemma Flush_attempts_item_error k retries uploader e0 s u' e s' :
  Flush_attempts k retries uploader e0 s = (Returned (u', Some e), s') ->
  item_error e = false.
Proof.
  revert e0 s. induction k as [|k IH]; intros e0 s Hrun.
  - cbn in Hrun. unfold ret in Hrun. destruct e0; cbn in Hrun; [|discriminate].
    injection Hrun as _ <- _. reflexivity.
  - cbn [Flush_attempts] in Hrun. unfold bind in Hrun.
    rewrite enqueueToSQS_unfold in Hrun. cbv zeta in Hrun.
    destruct (SQS_SendMessageBatch _ _ _) as [[out err] w1]. cbn [fst snd] in Hrun.
    destruct err as [e1|]; [|unfold ret in Hrun; discriminate].
    destruct (Failed out); eapply IH; exact Hrun.
Qed.

Lemma AddToBatch_item_error id body uploader s u' e s' :
  AddToBatch id body uploader s = (Returned (u', Some e), s') ->
  item_error e = false.
Proof.
  unfold AddToBatch, bind, emit. intros Hrun.
  destruct (len body >? _messageSizeLimit).
  { unfold ret in Hrun. injection Hrun as _ <- _. reflexivity. }
  match type of Hrun with
  | context [if ?c then Flush uploader else _] => destruct c
  end.
  - destruct (Flush uploader _) as [[[u1 [e1|]]| |] s1] eqn:HF;
      try discriminate.
    + unfold ret in Hrun. injection Hrun as _ <- _.
      unfold Flush in HF. destruct (messageList uploader);
        [unfold ret in HF; discriminate|].
      eapply Flush_attempts_item_error. exact HF.
    + destruct (messageIDToListIndex u1); unfold ret, panic in Hrun; discriminate.
  - unfold ret at 1 in Hrun. cbn [fst snd] in Hrun.
    destruct (messageIDToListIndex uploader); unfold ret, panic in Hrun;
      discriminate.
Qed.

(** The two ways a document is handled: refused for its size, with the
    error that names its index, or taken, in which case an error, if any,
    comes from the uploader or from [json.Marshal]. *)
Lemma handle_document_cases jobSpec doc uploader jml idx s st1 err s1 :
  handle_document jobSpec doc (uploader, jml, idx) s = (Returned (st1, err), s1) ->
  (_messageSizeLimit < llen doc
   /\ err = Some (Wrapped (MsgItem idx)
                    (ErrorMessageExceedsMaxSize (llen doc) _messageSizeLimit)))
  \/ (llen doc <= _messageSizeLimit
      /\ (forall e, err = Some e -> item_error e = false)
      /\ (err = None -> snd st1 = idx + 1)).
Proof.
  unfold handle_document. intros Hrun.
  destruct (Z.gtb_spec (llen doc) _messageSizeLimit) as [Hbig|Hfit].
  { unfold ret in Hrun. injection Hrun as _ <- _. left. auto. }
  right. split; [exact Hfit|].
  destruct (_ =? _).
  2:{ unfold ret in Hrun. injection Hrun as <- <- _.
      split; [discriminate | reflexivity]. }
  unfold bind at 1 in Hrun.
  destruct (addJSONObjectsToQueue uploader _ s) as [[[u1 [e1|]]|x|] s0] eqn:Hadd;
    try discriminate.
  - unfold ret in Hrun. injection Hrun as _ <- _.
    split; [|discriminate]. intros e He. injection He as <-.
    unfold addJSONObjectsToQueue in Hadd.
    destruct (json_Marshal_raw _) as [jsonBytes|d].
    + unfold bind, randomID, randomString in Hadd.
      destruct (random_String 40 (world s)) as [id w1].
      apply AddToBatch_item_error in Hadd. exact Hadd.
    + unfold ret in Hadd. injection Hadd as _ <- _. reflexivity.
  - unfold bind in Hrun.
    destruct (logProgress_unfold jobSpec u1 s0) as (w3 & logs & Hlog & _).
    rewrite Hlog in Hrun. unfold ret in Hrun. injection Hrun as <- <- _.
    split; [discriminate | reflexivity].
Qed.

Lemma feed_size_check jobSpec docs uploader jml idx s st1 err s1 :
  feed jobSpec docs (uploader, jml, idx) s = (Returned (st1, err), s1) ->
  (forall k e,
      err = Some (Wrapped (MsgItem k) e) ->
      exists (n : nat) doc,
        k = idx + Z.of_nat n
        /\ docs !! n = Some doc
        /\ e = ErrorMessageExceedsMaxSize (llen doc) _messageSizeLimit
        /\ _messageSizeLimit < llen doc
        /\ Forall (fun d => llen d <= _messageSizeLimit) (take n docs))
  /\ (err = None -> Forall (fun d => llen d <= _messageSizeLimit) docs).
Proof.
  revert uploader jml idx s.
  induction docs as [|doc rest IH]; intros uploader jml idx s Hrun.
  - cbn in Hrun. unfold ret in Hrun. injection Hrun as _ <- _.
    split; [discriminate | constructor].
  - cbn [feed] in Hrun. unfold bind in Hrun.
    destruct (handle_document jobSpec doc (uploader, jml, idx) s)
      as [[[st2 err2]|x|] s2] eqn:Hh; cbn [fst snd] in Hrun; try discriminate.
    destruct (handle_document_cases _ _ _ _ _ _ _ _ _ Hh)
      as [[Hbig ->]|(Hfit & Hshape & Hnext)].
    + unfold ret in Hrun. injection Hrun as _ <- _. split; [|discriminate].
      intros k e He. injection He as <- <-.
      exists O, doc. rewrite Z.add_0_r.
      repeat split; [assumption | constructor].
    + destruct err2 as [e2|].
      * unfold ret in Hrun. injection Hrun as _ <- _. split; [|discriminate].
        intros k e He. injection He as ->.
        specialize (Hshape _ eq_refl). discriminate.
      * destruct st2 as [[u2 jml2] idx2]. specialize (Hnext eq_refl).
        cbn [snd] in Hnext. subst idx2.
        destruct (IH _ _ _ _ Hrun) as [Hitem Hall]. split.
        -- intros k e He.
           destruct (Hitem k e He) as (n & d & -> & Hd & -> & Hbig & Hsmall).
           exists (S n), d. cbn [lookup list_lookup take].
           repeat split; [lia | exact Hd | exact Hbig |].
           constructor; assumption.
        -- intros He. constructor; [exact Hfit | exact (Hall He)].
Qed.

Lemma documents_syntax_error data docs e :
  json.documents data = (docs, json.EndError e) -> item_error e = false.
Proof.
  unfold json.documents. generalize (S (length data)) as fuel.
  intros fuel. revert data docs.
  induction fuel as [|fuel IH]; intros data docs Hdocs; [discriminate|].
  cbn [json.split_documents] in Hdocs.
  destruct (json.Decode data) as [doc rest| | |e'] eqn:Hdec; try discriminate.
  - destruct (json.split_documents fuel rest) as [docs' e''] eqn:Hrest.
    injection Hdocs as _ ->. eapply IH. exact Hrest.
  - injection Hdocs as _ <-.
    unfold json.Decode, json.readValue in Hdec.
    destruct (json.scan_value json.reset data data 0) as [n| | |e1] eqn:Hscan;
      try discriminate.
    injection Hdec as ->.
    destruct (scan_value_error json.reset _ _ _ _ I Hscan) as (c & ctx & ->).
    reflexivity.
Qed.

(** The size check of [streamJSONToQueue]. An error that names an item
    comes from the size check only, and tells the truth: the item it names
    is the first document of the buffer, counted from the count of
    documents at the start, that is longer than the ceiling, and the error
    inside gives its length. And when the buffer has been read to its end,
    or to an incomplete document, every document read is within the
    ceiling. *)
Theorem size_error_names_the_first_oversized_document
    jobSpec sp s sp' err s' :
  streamJSONToQueue jobSpec sp s = (Returned (sp', err), s') ->
  (forall k e,
      err = Some (Wrapped (MsgItem k) e) ->
      exists (n : nat) doc,
        k = itemIndex sp + Z.of_nat n
        /\ fst (json.documents (bytesBuffer sp)) !! n = Some doc
        /\ e = ErrorMessageExceedsMaxSize (llen doc) _messageSizeLimit
        /\ _messageSizeLimit < llen doc
        /\ Forall (fun d => llen d <= _messageSizeLimit)
                  (take n (fst (json.documents (bytesBuffer sp)))))
  /\ (err = None \/ err = Some ErrUnexpectedEOF ->
      Forall (fun d => llen d <= _messageSizeLimit)
             (fst (json.documents (bytesBuffer sp)))).
Proof.
  intros Hrun. unfold streamJSONToQueue in Hrun.
  destruct (streamJSON_loop_feed (S (length (bytesBuffer sp))) jobSpec
              (bytesBuffer sp) (sp_uploader sp) (jsonMessageList sp)
              (itemIndex sp) s (Nat.lt_succ_diag_r _)) as [buf Heq].
  rewrite Heq in Hrun. clear Heq.
  destruct (json.documents (bytesBuffer sp)) as [docs e] eqn:Hdocs.
  cbn [fst snd] in *.
  destruct (feed jobSpec docs (sp_uploader sp, jsonMessageList sp, itemIndex sp) s)
    as [o1 s1] eqn:Hfeed.
  cbn [fst snd] in Hrun. injection Hrun as Ho _.
  destruct o1 as [[[[u1 jml1] idx1] err1]| |]; cbn [stream_result] in Ho;
    try discriminate.
  destruct (feed_size_check _ _ _ _ _ _ _ _ _ Hfeed) as [Hitem Hall].
  destruct err1 as [e1|].
  - injection Ho as _ <-. split; [exact Hitem|].
    pose proof (feed_error _ _ _ _ _ _ _ Hfeed) as Hne.
    intros [Herr|Herr]; [discriminate|]. injection Herr as ->. discriminate.
  - specialize (Hall eq_refl). split; [|intros _; exact Hall].
    intros k e0 He. exfalso.
    destruct e as [|t|e2].
    + injection Ho as _ <-. discriminate.
    + injection Ho as _ <-. discriminate.
    + injection Ho as _ <-. injection He as ->.
      apply documents_syntax_error in Hdocs. discriminate.
Qed.

End Orchestrators.

Section Orchestrator_examples.

Import Scripted Cases.

(** The liveness file cannot be written: nothing else happens. *)
Lemma enqueue_stops_when_liveness_fails_witness :
  enqueue job (mkSubmission (Some items25) None None) (start no_liveness)
    = (Returned (0, Some (Wrapped (MsgText "failed to update liveness")
                            (ExternalError "access denied"))),
       mkEnv quiet [EvUpdateLiveness "job" (Some (ExternalError "access denied"))]).
Proof.
  exact (enqueue_stops_when_liveness_fails job
           (mkSubmission (Some items25) None None) (start no_liveness)
           (ExternalError "access denied") quiet eq_refl).
Defined.

(** Files to read by documents, none listed, in batches of five. *)
Lemma empty_submission_enqueues_the_sentinel_alone_witness :
  fst (enqueue job (mkSubmission None None (Some no_files)) (start quiet))
    = Returned (0, None)
  /\ sentinels (trace (snd (enqueue job (mkSubmission None None (Some no_files))
                                   (start quiet))))
     = [job_complete_message job "name-a"].
Proof.
  destruct (empty_submission_enqueues_the_sentinel_alone job
              (mkSubmission None None (Some no_files)) (start quiet) quiet)
    as (logs & id & err & w' & Heq & _).
  - cbn. repeat split. lia.
  - reflexivity.
  - split; vm_compute; reflexivity.
Defined.

(** The same with a batch size below zero: the buffer of documents cannot be
    made, [enqueueS3FileContents] panics on its first line and [enqueue] with
    it, after the liveness update and without the job_complete message. *)
Example enqueue_with_negative_file_batch_size :
  enqueueS3FileContents job negative_files (start quiet)
    = (Panicked "makeslice: cap out of range", start quiet)
  /\ enqueue job (mkSubmission None None (Some negative_files)) (start quiet)
     = (Panicked "makeslice: cap out of range",
        mkEnv quiet [EvUpdateLiveness "job" None; EvCronRun "job"; EvCronCancel]).
Proof. split; vm_compute; reflexivity. Qed.

(** One item, a JSON string that alone is longer than the ceiling, in
    batches of one: the marshalled batch, the string between brackets, is
    262147 bytes long. *)
Lemma enqueueItems_names_the_refused_batch_witness :
  fst (enqueueItems job oversized_item (start quiet))
    = Returned (0, Some (Wrapped (MsgItemsBetween 0 1)
                           (ErrorMessageExceedsMaxSize 262147
                                                       _messageSizeLimit))).
Proof.
  pose proof (enqueueItems_names_the_refused_batch job oversized_item
                (start quiet) eq_refl) as H.
  assert (Hne : Items oversized_item <> []) by discriminate.
  specialize (H Hne). cbv zeta in H.
  assert (Hm : match json_Marshal_raw (W := script)
                       (take (Z.to_nat (ItemListBatchSize oversized_item))
                             (Items oversized_item)) with
               | inl body => len body =? 262147
               | inr _ => false
               end = true) by (vm_compute; reflexivity).
  destruct (json_Marshal_raw (W := script)
              (take (Z.to_nat (ItemListBatchSize oversized_item))
                    (Items oversized_item))) as [body|e]; [|discriminate Hm].
  apply Z.eqb_eq in Hm.
  rewrite H by (rewrite Hm; reflexivity). cbn [fst]. rewrite Hm. reflexivity.
Defined.

(** An item that is not JSON: [json.Marshal] refuses the first slice, and
    [enqueueItems] returns its error as that of batch 0 without any call of
    [AddToBatch]. *)
Example enqueueItems_on_an_item_that_is_not_JSON :
  enqueueItems job (mkItemList [bytes oversized] 1) (start quiet)
    = (Returned
         (0, Some (Wrapped (MsgBatch 0)
                     (MarshalerError
                        (String.append
                           "json: error calling MarshalJSON for type json.RawMessage: "
                           "invalid character 'x' looking for beginning of value")))),
       mkEnv quiet [EvLog "job" (LogPartitioning 1 1 1)]).
Proof. vm_compute. reflexivity. Qed.

(** One item and a batch size of -2: the slice from 0 to -2 panics. *)
Lemma enqueueItems_with_negative_batch_size_witness :
  fst (enqueueItems job negative_size (start quiet))
    = Panicked "slice bounds out of range".
Proof.
  rewrite (enqueueItems_with_negative_batch_size job negative_size (start quiet));
    reflexivity.
Defined.

(** Five objects in batches of two: two batches handed over during the
    listing, one path left for the last batch. *)
Lemma paths_are_batched_in_listing_order_witness :
  exists groups bodies,
    add_bodies
      (trace (snd (s3IteratorFromLister five_objects None
                     (collectS3Path job 2) ([], ready) (start quiet))))
      = bodies
    /\ Forall2 marshals_paths groups bodies
    /\ Forall (fun g => llen g = 2) groups
    /\ exists rest, concat groups ++ rest = s3Paths five_objects.
Proof.
  destruct (paths_are_batched_in_listing_order job 2 five_objects None []
              ready (start quiet) _ _ eq_refl eq_refl
              (surjective_pairing _))
    as (groups & bodies & Hb & Hf & Hg & Hpre & _).
  exists groups, bodies. auto.
Defined.

(** Three objects and a batch size of zero: one batch with the three
    paths. *)
Lemma paths_go_in_one_batch_without_batch_size_witness :
  map String.length
      (add_bodies
         (trace (snd (enqueueS3Paths job
                        (mkFilePathLister
                           (mkLister (take 3 five_objects) None) 0)
                        (start quiet)))))
    = [49%nat].
Proof.
  rewrite (paths_go_in_one_batch_without_batch_size job
             (mkFilePathLister (mkLister (take 3 five_objects) None) 0)
             (start quiet)).
  - vm_compute. reflexivity.
  - vm_compute. discriminate.
  - reflexivity.
Defined.

(** Three objects in the buffer, in batches of two documents. *)
Lemma documents_are_batched_in_stream_order_witness :
  exists groups bodies,
    add_bodies
      (trace (snd (streamJSONToQueue job
                     (mkSplitter ready three_objects (mkJSONBuffer 2 []) 0)
                     (start quiet))))
      = bodies
    /\ Forall2 marshals groups bodies
    /\ Forall (fun g => llen g = 2) groups.
Proof.
  destruct (documents_are_batched_in_stream_order job
              (mkSplitter ready three_objects (mkJSONBuffer 2 []) 0)
              (start quiet) _ _ eq_refl eq_refl (surjective_pairing _))
    as (groups & bodies & Hb & Hf & Hg & _).
  exists groups, bodies. auto.
Defined.

(** Three objects, each on its line, read in parts of five bytes, in
    batches of two documents. *)
Lemma delimited_file_is_batched_by_document_witness :
  exists groups bodies,
    add_bodies
      (trace (snd (S3FileIterator (parts_of 5 (delimited three_lines))
                     (readChunk job)
                     (mkSplitter ready [] (mkJSONBuffer 2 []) 0) (start quiet))))
      = bodies
    /\ Forall2 marshals groups bodies
    /\ Forall (fun g => llen g = 2) groups
    /\ exists rest, concat groups ++ rest = map fst three_lines.
Proof.
  edestruct (delimited_file_is_batched_by_document job
               (parts_of 5 (delimited three_lines))
               (mkSplitter ready [] (mkJSONBuffer 2 []) 0) (start quiet)
               [] three_lines)
    as (groups & bodies & Hb & Hf & Hg & Hpre & _).
  - repeat constructor.
  - reflexivity.
  - vm_compute. reflexivity.
  - reflexivity.
  - repeat constructor; vm_compute; reflexivity.
  - reflexivity.
  - reflexivity.
  - apply surjective_pairing.
  - exists groups, bodies. auto.
Defined.

(** A small object and then a string longer than the ceiling: the error
    names item 1, the second document of the buffer. *)
Lemma size_error_names_the_first_oversized_document_witness :
  exists sp' e s' doc,
    streamJSONToQueue job oversized_second (start quiet)
      = (Returned (sp', Some (Wrapped (MsgItem 1) e)), s')
    /\ fst (json.documents (bytesBuffer oversized_second)) !! 1%nat = Some doc
    /\ e = ErrorMessageExceedsMaxSize (llen doc) _messageSizeLimit
    /\ _messageSizeLimit < llen doc.
Proof.
  assert (Hrun : exists sp' e s',
             streamJSONToQueue job oversized_second (start quiet)
               = (Returned (sp', Some (Wrapped (MsgItem 1) e)), s'))
    by (eexists _, _, _; vm_compute; reflexivity).
  destruct Hrun as (sp' & e & s' & Hrun).
  destruct (size_error_names_the_first_oversized_document _ _ _ _ _ _ Hrun)
    as [Hitem _].
  destruct (Hitem 1 e eq_refl) as (n & doc & Hk & Hd & He & Hbig & _).
  change (itemIndex oversized_second) with 0 in Hk.
  assert (Hn : n = 1%nat) by lia. subst n.
  exists sp', e, s', doc. auto.
Defined.

End Orchestrator_examples.

(** * The log group of a job *)

Section Logging_properties.

Import logging.

Context {W : Type} {L : CloudWatchLogs W}.

Lemma merged_tags_union cfg jobKey :
  merged_tags cfg jobKey = Tags cfg ∪ job_tags jobKey.
Proof.
  unfold merged_tags.
  apply (map_fold_weak_ind
           (fun r (m : gmap string string) => r = m ∪ job_tags jobKey)).
  - symmetry. apply (left_id_L ∅ (∪)).
  - intros key value m r _ ->. apply insert_union_l.
Qed.

(** The tags of the log group of a job, and the order of the two calls. The
    log group is created under the name made of the log group of the
    cluster, the name of the API and the id of the job, with the tags of the
    cluster and, for the keys apiName and jobID that the cluster does not
    use, the name of the API and the id of the job: on these two keys a tag
    of the cluster wins. The log stream is created only after the log group
    has been, in that group; an error of either call comes back as the
    error of the function, and after an error of the first call no second
    call is made. *)
Theorem createLogGroupForJob_tags_and_calls cfg jobKey (s : @log_env W) :
  exists tags,
    (forall tag,
        tags !! tag = match Tags cfg !! tag with
                      | Some value => Some value
                      | None =>
                          if decide (tag = "jobID") then Some (ID jobKey)
                          else if decide (tag = "apiName")
                               then Some (APIName jobKey)
                               else None
                      end)
    /\ let group := mkCreateLogGroupInput (logGroupNameForJob cfg jobKey) tags in
       let stream := mkCreateLogStreamInput (logGroupNameForJob cfg jobKey)
                                            (_operatorService cfg) in
       match fst (CreateLogGroup group (lworld s)) with
       | Some e =>
           createLogGroupForJob cfg jobKey s =
             (Some (CallFailed e),
              mkLogEnv (snd (CreateLogGroup group (lworld s)))
                       (requests s ++ [ReqCreateLogGroup group]))
       | None =>
           let r := CreateLogStream stream
                      (snd (CreateLogGroup group (lworld s))) in
           createLogGroupForJob cfg jobKey s =
             (option_map CallFailed (fst r),
              mkLogEnv (snd r)
                       (requests s ++ [ReqCreateLogGroup group;
                                       ReqCreateLogStream stream]))
       end.
Proof.
  exists (merged_tags cfg jobKey). split.
  - intros tag. rewrite merged_tags_union, lookup_union.
    unfold job_tags. rewrite !lookup_insert, lookup_empty.
    destruct (Tags cfg !! tag) as [value|];
      repeat (destruct (decide _)); congruence || reflexivity.
  - cbv zeta. unfold createLogGroupForJob.
    destruct (CreateLogGroup _ (lworld s)) as [[e|] w1]; cbn [fst snd];
      [reflexivity|].
    destruct (CreateLogStream _ w1) as [[e|] w2]; cbn [fst snd requests];
      rewrite <- app_assoc; reflexivity.
Qed.

Lemma fill_events_from curTime rest done :
  foldl (fun inputLogEvents '(i, line) =>
           <[i := Some (mkInputLogEvent (marshal_fluentdLog line) curTime)]>
             inputLogEvents)
        (done ++ replicate (length rest) None)
        (imap (fun i line => (length done + i, line)%nat) rest)
  = done ++ map (fun line =>
                   Some (mkInputLogEvent (marshal_fluentdLog line) curTime))
                rest.
Proof.
  revert done. induction rest as [|line rest IH]; intros done; [reflexivity|].
  rewrite imap_cons. cbn [foldl length replicate map].
  rewrite insert_app_r. cbn [insert list_insert].
  rewrite (imap_ext _ (fun i l => (length (done ++ [Some (mkInputLogEvent
                                     (marshal_fluentdLog line) curTime)]) + i,
                                   l)%nat)).
  2:{ intros i l _. cbn. rewrite length_app. cbn. f_equal. lia. }
  rewrite (cons_middle _ done), app_assoc, IH, <- app_assoc. reflexivity.
Qed.

Lemma fill_events_map curTime logLines :
  fill_events curTime logLines
  = map (fun line => Some (mkInputLogEvent (marshal_fluentdLog line) curTime))
        logLines.
Proof. exact (fill_events_from curTime logLines []). Qed.

(** [writeToJobLogGroup] writes every line, once and in order. When the log
    streams of the operator are described without error and there is at
    least one, the function makes one call of [PutLogEvents], in the log
    group of the job and the stream of the operator, with the sequence
    token of the first stream described and one event per log line, the
    first line first: no pointer of the slice stays nil, every event
    carries its line wrapped by [json.Marshal] and the same time, read once.
    The error of that call, if any, is the error of the function. *)
Theorem writeToJobLogGroup_writes_every_line
    cfg jobKey logLine logLines (s : @log_env W) first more w1 :
  DescribeLogStreams
    (mkDescribeLogStreamsInput (logGroupNameForJob cfg jobKey)
                               (_operatorService cfg)) (lworld s)
    = ((first :: more, None), w1) ->
  let curTime := fst (now_millis w1) in
  let put :=
    mkPutLogEventsInput (logGroupNameForJob cfg jobKey) (_operatorService cfg)
      (map (fun line => Some (mkInputLogEvent (marshal_fluentdLog line) curTime))
           (logLine :: logLines))
      (UploadSequenceToken first) in
  let r := PutLogEvents put (snd (now_millis w1)) in
  writeToJobLogGroup cfg jobKey logLine logLines s =
    (option_map CallFailed (fst r),
     mkLogEnv (snd r)
              (requests s ++
                 [ReqDescribeLogStreams
                    (mkDescribeLogStreamsInput (logGroupNameForJob cfg jobKey)
                                               (_operatorService cfg));
                  ReqPutLogEvents put])).
Proof.
  intros Hdescribe. cbv zeta. unfold writeToJobLogGroup. rewrite Hdescribe.
  destruct (now_millis w1) as [curTime w2]. cbn [fst snd].
  rewrite fill_events_map.
  destruct (PutLogEvents _ w2) as [[e|] w3]; cbn [fst snd requests];
    rewrite <- app_assoc; reflexivity.
Qed.

(** Without a log stream nothing is written. When the description of the
    log streams fails, or finds no stream, [writeToJobLogGroup] returns an
    error (that of the call, or the unexpected absence of the stream of the
    operator in the log group of the job) after that one call: the clock is
    not read and [PutLogEvents] is not called. *)
Theorem writeToJobLogGroup_needs_a_log_stream
    cfg jobKey logLine logLines (s : @log_env W) streams err w1 :
  DescribeLogStreams
    (mkDescribeLogStreamsInput (logGroupNameForJob cfg jobKey)
                               (_operatorService cfg)) (lworld s)
    = ((streams, err), w1) ->
  err <> None \/ streams = [] ->
  writeToJobLogGroup cfg jobKey logLine logLines s =
    (Some match err with
          | Some e => CallFailed e
          | None => ErrorUnexpected (_operatorService cfg)
                                    (logGroupNameForJob cfg jobKey)
          end,
     mkLogEnv w1
              (requests s ++
                 [ReqDescribeLogStreams
                    (mkDescribeLogStreamsInput (logGroupNameForJob cfg jobKey)
                                               (_operatorService cfg))])).
Proof.
  intros Hdescribe Hnone. unfold writeToJobLogGroup. rewrite Hdescribe.
  destruct err as [e|]; [reflexivity|].
  destruct Hnone as [Habs| ->]; [congruence | reflexivity].
Qed.

End Logging_properties.

Section Logging_examples.

Import logging.

(** Two lines written to the stream of the operator. *)
Lemma writeToJobLogGroup_writes_every_line_witness :
  writeToJobLogGroup cluster key "first" ["second"] (mkLogEnv calm [])
    = (None,
       mkLogEnv calm
         [ReqDescribeLogStreams
            (mkDescribeLogStreamsInput "cortex/classifier.job-1" "operator");
          ReqPutLogEvents
            (mkPutLogEventsInput "cortex/classifier.job-1" "operator"
               [Some (mkInputLogEvent "{first}" 1000);
                Some (mkInputLogEvent "{second}" 1000)]
               (Some "token-7"))]).
Proof.
  exact (writeToJobLogGroup_writes_every_line cluster key "first" ["second"]
           (mkLogEnv calm []) (mkLogStream (Some "token-7")) [] calm eq_refl).
Defined.

(** No log stream: an error, and no event written. *)
Lemma writeToJobLogGroup_needs_a_log_stream_witness :
  writeToJobLogGroup cluster key "first" [] (mkLogEnv no_stream [])
    = (Some (ErrorUnexpected "operator" "cortex/classifier.job-1"),
       mkLogEnv no_stream
         [ReqDescribeLogStreams
            (mkDescribeLogStreamsInput "cortex/classifier.job-1" "operator")]).
Proof.
  exact (writeToJobLogGroup_needs_a_log_stream cluster key "first" []
           (mkLogEnv no_stream []) [] None no_stream eq_refl
           (or_intror eq_refl)).
Defined.

(** A cluster that has a tag named apiName: the log group carries the tag of
    the cluster under that key, and the id of the job under jobID. *)
Example createLogGroupForJob_on_a_clash :
  merged_tags cluster key !! "apiName" = Some "shared"
  /\ merged_tags cluster key !! "jobID" = Some "job-1"
  /\ merged_tags cluster key !! "team" = Some "search".
Proof.
  rewrite merged_tags_union. repeat split; vm_compute; reflexivity.
Qed.

End Logging_examples.
